(** * Hybrid A* coarse trajectory generator (hybrid_a_star.cc)

    A shallow embedding of [apollo::planning::HybridAStar] and the
    properties of its search loop, validity check, motion primitives,
    path reconstruction and speed profile.

    Conventions of the embedding:
    - [double] is Rocq's primitive IEEE-754 binary64 [float]; arithmetic and
      comparisons are the kernel's, so NaN and signed zeros behave as in C++;
    - [size_t] is a [Z] in [0, 2^64) with wrap-around written out;
    - [std::vector<T>] is [list T]; [v[i]] out of range is undefined
      behaviour, which the [res] monad records as [Undefined];
    - [std::unordered_map<std::string, shared_ptr<Node3d>>] is
      [gmap string Node3d.t]; a node owns an immutable copy of its parent
      chain (parents are never mutated once linked);
    - collaborators whose code is outside this file (libm, NormalizeAngle,
      Box2d, ReedShepp, GridSearch, PathTimeQpProblem, the string index of
      Node3d) are the fields of the [Externals] class. *)

From Stdlib Require Import ZArith List Floats Uint63 Lia.
From stdpp Require Import base option list gmap strings pretty.

Set Default Proof Using "Type".
Set Warnings "-register-all,-inexact-float".

(** ** Outcomes of a C++ computation *)

Inductive res (A : Type) : Type :=
| Done (a : A)
| Undefined
| OutOfFuel.
Arguments Done {A} a.
Arguments Undefined {A}.
Arguments OutOfFuel {A}.

#[global] Instance res_ret : MRet res := @Done.
#[global] Instance res_bind : MBind res := fun A B f m =>
  match m with
  | Done a => f a
  | Undefined => Undefined
  | OutOfFuel => OutOfFuel
  end.

(** ** size_t and std::vector *)

Module Cpp.

Definition SIZE_MOD : Z := 2 ^ 64.

Definition size_wrap (n : Z) : Z := n mod SIZE_MOD.
Definition size_add (a b : Z) : Z := size_wrap (a + b).
Definition size_sub (a b : Z) : Z := size_wrap (a - b).
Definition size_div (a b : Z) : Z := a / b.

Definition vsize {A} (v : list A) : Z := Z.of_nat (length v).

(** [v[i]], and [*(v.begin() + i)] for a possibly negative offset. *)
Definition vec_at {A} (v : list A) (i : Z) : res A :=
  if (i <? 0)%Z then Undefined
  else match v !! Z.to_nat i with
       | Some a => Done a
       | None => Undefined
       end.

(** [v.back()] *)
Definition vec_back {A} (v : list A) : res A :=
  match last v with
  | Some a => Done a
  | None => Undefined
  end.

(** [static_cast<double>(n)] for a [size_t] n: exact below 2^63; above,
    the usual sticky-bit halving keeps the rounding correct. *)
Definition double_of_size_t (n : Z) : float :=
if (n <? 2 ^ 63)%Z then PrimFloat.of_uint63 (Uint63.of_Z n)
else (PrimFloat.of_uint63
        (Uint63.of_Z (Z.lor (Z.shiftr n 1) (Z.land n 1))) * 2)%float.

(** [a > b] on doubles is [b < a]. *)
Definition fgt (a b : float) : bool := PrimFloat.ltb b a.
Definition flt (a b : float) : bool := PrimFloat.ltb a b.

(** [std::min_element] / [std::max_element]: index of the first extremum
    under [operator<]; [None] stands for [end()] on an empty range. *)
Fixpoint min_element_from (best_i : nat) (best : float) (i : nat)
    (v : list float) : nat :=
  match v with
  | [] => best_i
  | a :: v' =>
      if flt a best then min_element_from i a (S i) v'
      else min_element_from best_i best (S i) v'
  end.

Definition min_element (v : list float) : option nat :=
  match v with
  | [] => None
  | a :: v' => Some (min_element_from 0 a 1 v')
  end.

Fixpoint max_element_from (best_i : nat) (best : float) (i : nat)
    (v : list float) : nat :=
  match v with
  | [] => best_i
  | a :: v' =>
      if flt best a then max_element_from i a (S i) v'
      else max_element_from best_i best (S i) v'
  end.

Definition max_element (v : list float) : option nat :=
  match v with
  | [] => None
  | a :: v' => Some (max_element_from 0 a 1 v')
  end.

(** [v[i] = a] *)
Definition vec_set {A} (v : list A) (i : Z) (a : A) : res (list A) :=
  if (i <? 0)%Z then Undefined
  else if (Z.to_nat i <? length v)%nat then Done (<[Z.to_nat i := a]> v)
  else Undefined.

(** [v.pop_back()] *)
Definition vec_pop_back {A} (v : list A) : res (list A) :=
  match v with
  | [] => Undefined
  | _ :: _ => Done (removelast v)
  end.

(** [m.insert(make_pair(k, v))] and [m.emplace(k, v)] keep an existing
    entry. *)
Definition umap_insert {V} (k : string) (v : V) (m : gmap string V)
    : gmap string V :=
  match m !! k with
  | Some _ => m
  | None => <[k := v]> m
  end.

(** [for (size_t i = i0; ...; ++i) body] with [n] iterations left. *)
Fixpoint for_loop {S} (n : nat) (i : Z) (body : Z -> S -> res S) (s : S)
    : res S :=
  match n with
  | O => Done s
  | Datatypes.S n' => s' ← body i s; for_loop n' (i + 1)%Z body s'
  end.

(** A loop over the elements of a range, collecting one result each. *)
Fixpoint for_each {A B} (f : A -> res B) (l : list A) : res (list B) :=
  match l with
  | [] => Done []
  | a :: l' => b ← f a; bs ← for_each f l'; Done (b :: bs)
  end.

End Cpp.
Import Cpp.

(** ** Geometry values built in this file *)

Record Vec2d := { vx : float; vy : float }.
Record LineSegment2d := { seg_start : Vec2d; seg_end : Vec2d }.

Record ReedSheppPath := {
  rs_x : list float;
  rs_y : list float;
  rs_phi : list float }.

(** The piecewise-jerk problem handed to [PathTimeQpProblem]. *)
Record QpProblem := {
  qp_num : Z;
  qp_delta_t : float;
  qp_w : list float;
  qp_init_s : list float;
  qp_end_s : list float;
  qp_zero_order_bounds : float * float;
  qp_first_order_bounds : float * float;
  qp_second_order_bounds : float * float;
  qp_third_order_bound : float;
  qp_desire_derivative : float;
  qp_zero_order_reference : list float }.

Record QpSolution := {
  qp_x : list float;
  qp_x_derivative : list float;
  qp_x_second_order_derivative : list float }.

(** ** Collaborators outside hybrid_a_star.cc *)

Class Externals := {
  (* libm *)
  d_cos : float -> float;
  d_sin : float -> float;
  d_tan : float -> float;
  d_atan : float -> float;
  (* common::math *)
  NormalizeAngle : float -> float;
  Box2d : Type;
  HasOverlap : Box2d -> LineSegment2d -> bool;
  (* Node3d statics; the vehicle parameters are fixed per planner *)
  GetBoundingBox : float -> float -> float -> Box2d;
  ComputeStringIndex : float -> float -> float -> list float -> string;
  (* ReedShepp::ShortestRSP on the poses of two nodes *)
  ShortestRSP : float * float * float -> float * float * float ->
                option ReedSheppPath;
  (* GridSearch *)
  DpMap : Type;
  empty_dp_map : DpMap;
  GenerateDpMap : float -> float -> list float ->
                  list (list LineSegment2d) -> DpMap;
  CheckDpMap : DpMap -> float -> float -> float;
  (* PathTimeQpProblem::Optimize *)
  Optimize : QpProblem -> option QpSolution }.

(** ** Node3d *)

Module Node3d.

Inductive t : Type := Build {
  traversed_x_ : list float;
  traversed_y_ : list float;
  traversed_phi_ : list float;
  x_ : float;
  y_ : float;
  phi_ : float;
  step_size_ : Z;
  index_ : string;
  traj_cost_ : float;
  heuristic_cost_ : float;
  steering_ : float;
  direction_ : bool;
  pre_node_ : option t }.

Definition GetXs (n : t) : list float := traversed_x_ n.
Definition GetYs (n : t) : list float := traversed_y_ n.
Definition GetPhis (n : t) : list float := traversed_phi_ n.
Definition GetX (n : t) : float := x_ n.
Definition GetY (n : t) : float := y_ n.
Definition GetPhi (n : t) : float := phi_ n.
Definition GetStepSize (n : t) : Z := step_size_ n.
Definition GetIndex (n : t) : string := index_ n.
Definition GetPreNode (n : t) : option t := pre_node_ n.
Definition GetDirec (n : t) : bool := direction_ n.
Definition GetSteer (n : t) : float := steering_ n.
Definition GetTrajCost (n : t) : float := traj_cost_ n.
Definition GetCost (n : t) : float :=
  (traj_cost_ n + heuristic_cost_ n)%float.

Definition SetPre (p : t) (n : t) : t :=
  Build (traversed_x_ n) (traversed_y_ n) (traversed_phi_ n) (x_ n) (y_ n)
    (phi_ n) (step_size_ n) (index_ n) (traj_cost_ n) (heuristic_cost_ n)
    (steering_ n) (direction_ n) (Some p).
Definition SetDirec (d : bool) (n : t) : t :=
  Build (traversed_x_ n) (traversed_y_ n) (traversed_phi_ n) (x_ n) (y_ n)
    (phi_ n) (step_size_ n) (index_ n) (traj_cost_ n) (heuristic_cost_ n)
    (steering_ n) d (pre_node_ n).
Definition SetSteer (s : float) (n : t) : t :=
  Build (traversed_x_ n) (traversed_y_ n) (traversed_phi_ n) (x_ n) (y_ n)
    (phi_ n) (step_size_ n) (index_ n) (traj_cost_ n) (heuristic_cost_ n)
    s (direction_ n) (pre_node_ n).
Definition SetTrajCost (c : float) (n : t) : t :=
  Build (traversed_x_ n) (traversed_y_ n) (traversed_phi_ n) (x_ n) (y_ n)
    (phi_ n) (step_size_ n) (index_ n) c (heuristic_cost_ n)
    (steering_ n) (direction_ n) (pre_node_ n).
Definition SetHeuCost (c : float) (n : t) : t :=
  Build (traversed_x_ n) (traversed_y_ n) (traversed_phi_ n) (x_ n) (y_ n)
    (phi_ n) (step_size_ n) (index_ n) (traj_cost_ n) c
    (steering_ n) (direction_ n) (pre_node_ n).

(** Modelled from the spec: the constructor of Node3d (node3d.cc is not part
    of the translated file). It takes three pose sequences of equal length
    at least 1; the representative pose is the last element of each,
    [step_size] is their length and the index is the quantised
    representative pose. A fresh node has zero costs and steering, forward
    direction and no parent. On empty or unequal sequences the constructor
    has no defined result. *)
Definition make `{Externals} (xs ys phis : list float) (XYbounds : list float)
    : res t :=
  if negb ((length xs =? length ys)%nat && (length xs =? length phis)%nat)
  then Undefined
  else
    x ← vec_back xs;
    y ← vec_back ys;
    phi ← vec_back phis;
    Done (Build xs ys phis x y phi (vsize xs)
            (ComputeStringIndex x y phi XYbounds)
            0%float 0%float 0%float true None).

(** The poses of a node in stored order. *)
Definition poses (n : t) : list (float * float * float) :=
  zip (zip (GetXs n) (GetYs n)) (GetPhis n).

(** The class invariant established by [make] and kept by the setters. *)
Record wf (n : t) : Prop := {
  wf_len_y : length (GetYs n) = length (GetXs n);
  wf_len_phi : length (GetPhis n) = length (GetXs n);
  wf_nonempty : (1 <= length (GetXs n))%nat;
  wf_size : (vsize (GetXs n) < SIZE_MOD)%Z;
  wf_step : GetStepSize n = vsize (GetXs n);
  wf_x : last (GetXs n) = Some (GetX n);
  wf_y : last (GetYs n) = Some (GetY n);
  wf_phi : last (GetPhis n) = Some (GetPhi n) }.

End Node3d.

(** ** The planner object *)

(** Members fixed by the constructor of HybridAStar (from the planner
    configuration, the vehicle parameters and the global flags). *)
Record Config := {
  next_node_num_ : Z;
  max_steer_angle_ : float;
  step_size_ : float;
  xy_grid_resolution_ : float;
  delta_t_ : float;
  traj_forward_penalty_ : float;
  traj_back_penalty_ : float;
  traj_gear_switch_penalty_ : float;
  traj_steer_penalty_ : float;
  traj_steer_change_penalty_ : float;
  wheel_base : float;
  s_curve_weights : list float;
  FLAGS_use_s_curve_speed_smooth : bool;
  FLAGS_longitudinal_jerk_bound : float }.

Record HybridAStartResult := {
  r_x : list float;
  r_y : list float;
  r_phi : list float;
  r_v : list float;
  r_a : list float;
  r_steer : list float;
  r_accumulated_s : list float }.

Section HybridAStar.
Context `{E : Externals}.

(** Members mutated by [Plan]. [pushed_] and [expanded_] are history
    variables: the indices handed to [open_pq_.push/emplace] and the indices
    taken by [open_pq_.pop], oldest first. They are not read by the code. *)
Record Planner := {
  XYbounds_ : list float;
  obstacles_linesegments_vec_ : list (list LineSegment2d);
  start_node_ : option Node3d.t;
  end_node_ : option Node3d.t;
  final_node_ : option Node3d.t;
  open_set_ : gmap string Node3d.t;
  close_set_ : gmap string Node3d.t;
  open_pq_ : list (string * float);
  dp_map_ : DpMap;
  pushed_ : list string;
  expanded_ : list string }.

Definition set_final_node (v : option Node3d.t) (s : Planner) : Planner :=
  Build_Planner (XYbounds_ s) (obstacles_linesegments_vec_ s) (start_node_ s)
    (end_node_ s) v (open_set_ s) (close_set_ s) (open_pq_ s) (dp_map_ s)
    (pushed_ s) (expanded_ s).
Definition set_open_set (v : gmap string Node3d.t) (s : Planner) : Planner :=
  Build_Planner (XYbounds_ s) (obstacles_linesegments_vec_ s) (start_node_ s)
    (end_node_ s) (final_node_ s) v (close_set_ s) (open_pq_ s) (dp_map_ s)
    (pushed_ s) (expanded_ s).
Definition set_close_set (v : gmap string Node3d.t) (s : Planner) : Planner :=
  Build_Planner (XYbounds_ s) (obstacles_linesegments_vec_ s) (start_node_ s)
    (end_node_ s) (final_node_ s) (open_set_ s) v (open_pq_ s) (dp_map_ s)
    (pushed_ s) (expanded_ s).

(** ** ValidityCheck (lines 83-122) *)

(** The body of the [for (size_t i = 0; i < last_check_index; ++i)] loop,
    with [n] iterations left. The [||] chain short-circuits. *)
Fixpoint ValidityCheck_loop (self : Planner) (traversed_x traversed_y
    traversed_phi : list float) (n : nat) (i : Z) : res bool :=
  match n with
  | O => Done true
  | S n' =>
      xi ← vec_at traversed_x i;
      b1 ← vec_at (XYbounds_ self) 1;
      if fgt xi b1 then Done false else
      b0 ← vec_at (XYbounds_ self) 0;
      if flt xi b0 then Done false else
      yi ← vec_at traversed_y i;
      b3 ← vec_at (XYbounds_ self) 3;
      if fgt yi b3 then Done false else
      b2 ← vec_at (XYbounds_ self) 2;
      if flt yi b2 then Done false else
      phii ← vec_at traversed_phi i;
      let bounding_box := GetBoundingBox xi yi phii in
      if existsb (fun obstacle_linesegments =>
                    existsb (HasOverlap bounding_box) obstacle_linesegments)
           (obstacles_linesegments_vec_ self)
      then Done false
      else ValidityCheck_loop self traversed_x traversed_y traversed_phi n'
             (i + 1)
  end.

Definition ValidityCheck (self : Planner) (node : Node3d.t) : res bool :=
  match obstacles_linesegments_vec_ self with
  | [] => Done true
  | _ :: _ =>
      let node_step_size := Node3d.GetStepSize node in
      let traversed_x := rev (Node3d.GetXs node) in
      let traversed_y := rev (Node3d.GetYs node) in
      let traversed_phi := rev (Node3d.GetPhis node) in
      let last_check_index :=
        if (node_step_size =? 1)%Z then 1%Z else size_sub node_step_size 1 in
      ValidityCheck_loop self traversed_x traversed_y traversed_phi
        (Z.to_nat last_check_index) 0
  end.

(** A pose passes when it is inside [XYbounds_] (by the comparisons of the
    code, so a NaN coordinate passes) and the vehicle box at the pose
    overlaps no obstacle segment. *)
Definition InXYbounds (xmin xmax ymin ymax : float) (x y : float) : bool :=
  negb (fgt x xmax || flt x xmin || fgt y ymax || flt y ymin).

Definition CollisionFree (self : Planner) (p : float * float * float) : bool :=
  let '(x, y, phi) := p in
  negb (existsb (fun segs => existsb (HasOverlap (GetBoundingBox x y phi)) segs)
          (obstacles_linesegments_vec_ self)).

Definition PoseValid (xmin xmax ymin ymax : float) (self : Planner)
    (p : float * float * float) : bool :=
  InXYbounds xmin xmax ymin ymax p.1.1 p.1.2 && CollisionFree self p.

(** ** Analytic expansion (lines 56-81, 124-133) *)

Definition RSPCheck (self : Planner) (reeds_shepp_to_end : ReedSheppPath)
    : res bool :=
  node ← Node3d.make (rs_x reeds_shepp_to_end) (rs_y reeds_shepp_to_end)
           (rs_phi reeds_shepp_to_end) (XYbounds_ self);
  ValidityCheck self node.

Definition LoadRSPinCS (self : Planner) (reeds_shepp_to_end : ReedSheppPath)
    (current_node : Node3d.t) : res (Node3d.t * Planner) :=
  end_node ← Node3d.make (rs_x reeds_shepp_to_end) (rs_y reeds_shepp_to_end)
               (rs_phi reeds_shepp_to_end) (XYbounds_ self);
  let end_node := Node3d.SetPre current_node end_node in
  Done (end_node,
        set_close_set
          (umap_insert (Node3d.GetIndex end_node) end_node (close_set_ self))
          self).

Definition node_pose (n : Node3d.t) : float * float * float :=
  (Node3d.GetX n, Node3d.GetY n, Node3d.GetPhi n).

Definition AnalyticExpansion (self : Planner) (current_node : Node3d.t)
    : res (bool * Planner) :=
  match end_node_ self with
  | None => Undefined
  | Some end_node =>
      match ShortestRSP (node_pose current_node) (node_pose end_node) with
      | None => Done (false, self)
      | Some reeds_shepp_to_check =>
          ok ← RSPCheck self reeds_shepp_to_check;
          if negb ok then Done (false, self)
          else
            '(final, self') ← LoadRSPinCS self reeds_shepp_to_check
                                current_node;
            Done (true, set_final_node (Some final) self')
      end
  end.

(** ** Next_node_generator (lines 135-193) *)

Definition arc_length (cfg : Config) : float :=
  (PrimFloat.sqrt 2 * xy_grid_resolution_ cfg)%float.

(** The integration loop [for (size_t i = 0; i < arc / step_size_; ++i)].
    [fuel] bounds the number of evaluations of the loop condition. *)
Fixpoint Next_node_loop (fuel : nat) (cfg : Config)
    (traveled_distance steering : float) (i : Z)
    (last_x last_y last_phi : float)
    (intermediate_x intermediate_y intermediate_phi : list float)
    : res (list float * list float * list float) :=
  match fuel with
  | O => OutOfFuel
  | S fuel' =>
      if flt (double_of_size_t i) (arc_length cfg / step_size_ cfg)%float
      then
        let next_x := (last_x + traveled_distance * d_cos last_phi)%float in
        let next_y := (last_y + traveled_distance * d_sin last_phi)%float in
        let next_phi :=
          NormalizeAngle
            (last_phi +
             traveled_distance / wheel_base cfg * d_tan steering)%float in
        Next_node_loop fuel' cfg traveled_distance steering (size_add i 1)
          next_x next_y next_phi
          (intermediate_x ++ [next_x]) (intermediate_y ++ [next_y])
          (intermediate_phi ++ [next_phi])
      else Done (intermediate_x, intermediate_y, intermediate_phi)
  end.

Definition primitive_steering (cfg : Config) (k : Z) : float :=
  (- max_steer_angle_ cfg +
   (2 * max_steer_angle_ cfg /
      (double_of_size_t (next_node_num_ cfg) / 2 - 1)) *
   double_of_size_t k)%float.

(** Lines 137-153: steering and signed step of primitive
    [next_node_index]. *)
Definition primitive_choice (cfg : Config) (next_node_index : Z)
    : float * float :=
  if flt (double_of_size_t next_node_index)
         (double_of_size_t (next_node_num_ cfg) / 2)%float
  then (primitive_steering cfg next_node_index, step_size_ cfg)
  else
    let index :=
      size_sub next_node_index (size_div (next_node_num_ cfg) 2) in
    (primitive_steering cfg index, (- step_size_ cfg)%float).

Definition Next_node_generator (fuel : nat) (cfg : Config) (self : Planner)
    (current_node : Node3d.t) (next_node_index : Z)
    : res (option Node3d.t) :=
  let '(steering, traveled_distance) :=
    primitive_choice cfg next_node_index in
  let last_x := Node3d.GetX current_node in
  let last_y := Node3d.GetY current_node in
  let last_phi := Node3d.GetPhi current_node in
  '(intermediate_x, intermediate_y, intermediate_phi) ←
    Next_node_loop fuel cfg traveled_distance steering 0 last_x last_y
      last_phi [last_x] [last_y] [last_phi];
  xb ← vec_back intermediate_x;
  b1 ← vec_at (XYbounds_ self) 1;
  if fgt xb b1 then Done None else
  b0 ← vec_at (XYbounds_ self) 0;
  if flt xb b0 then Done None else
  yb ← vec_back intermediate_y;
  b3 ← vec_at (XYbounds_ self) 3;
  if fgt yb b3 then Done None else
  b2 ← vec_at (XYbounds_ self) 2;
  if flt yb b2 then Done None else
  next_node ← Node3d.make intermediate_x intermediate_y intermediate_phi
                (XYbounds_ self);
  let next_node := Node3d.SetPre current_node next_node in
  let next_node := Node3d.SetDirec (fgt traveled_distance 0) next_node in
  let next_node := Node3d.SetSteer steering next_node in
  Done (Some next_node).

(** ** Costs (lines 195-228) *)

Definition TrajCost (cfg : Config) (current_node next_node : Node3d.t)
    : float :=
  let piecewise_cost := 0%float in
  let piecewise_cost :=
    if Node3d.GetDirec next_node then
      (piecewise_cost +
       double_of_size_t (size_sub (Node3d.GetStepSize next_node) 1) *
       step_size_ cfg * traj_forward_penalty_ cfg)%float
    else
      (piecewise_cost +
       double_of_size_t (size_sub (Node3d.GetStepSize next_node) 1) *
       step_size_ cfg * traj_back_penalty_ cfg)%float in
  let piecewise_cost :=
    if negb (Bool.eqb (Node3d.GetDirec current_node) (Node3d.GetDirec next_node))
    then (piecewise_cost + traj_gear_switch_penalty_ cfg)%float
    else piecewise_cost in
  let piecewise_cost :=
    (piecewise_cost +
     traj_steer_penalty_ cfg * PrimFloat.abs (Node3d.GetSteer next_node))%float in
  let piecewise_cost :=
    (piecewise_cost +
     traj_steer_change_penalty_ cfg *
     PrimFloat.abs
       (Node3d.GetSteer next_node - Node3d.GetSteer current_node))%float in
  piecewise_cost.

Definition HoloObstacleHeuristic (self : Planner) (next_node : Node3d.t)
    : float :=
  CheckDpMap (dp_map_ self) (Node3d.GetX next_node) (Node3d.GetY next_node).

Definition CalculateNodeCost (cfg : Config) (self : Planner)
    (current_node next_node : Node3d.t) : Node3d.t :=
  let next_node :=
    Node3d.SetTrajCost
      (Node3d.GetTrajCost current_node + TrajCost cfg current_node next_node)
      next_node in
  let optimal_path_cost := 0%float in
  let optimal_path_cost :=
    (optimal_path_cost + HoloObstacleHeuristic self next_node)%float in
  Node3d.SetHeuCost optimal_path_cost next_node.

(** ** Speed profiles (lines 296-448) *)

Definition set_v (v : list float) (r : HybridAStartResult)
    : HybridAStartResult :=
  Build_HybridAStartResult (r_x r) (r_y r) (r_phi r) v (r_a r) (r_steer r)
    (r_accumulated_s r).
Definition set_a (a : list float) (r : HybridAStartResult)
    : HybridAStartResult :=
  Build_HybridAStartResult (r_x r) (r_y r) (r_phi r) (r_v r) a (r_steer r)
    (r_accumulated_s r).
Definition set_steer (st : list float) (r : HybridAStartResult)
    : HybridAStartResult :=
  Build_HybridAStartResult (r_x r) (r_y r) (r_phi r) (r_v r) (r_a r) st
    (r_accumulated_s r).
Definition set_accumulated_s (acc : list float) (r : HybridAStartResult)
    : HybridAStartResult :=
  Build_HybridAStartResult (r_x r) (r_y r) (r_phi r) (r_v r) (r_a r)
    (r_steer r) acc.
Definition set_path (x y phi : list float) (r : HybridAStartResult)
    : HybridAStartResult :=
  Build_HybridAStartResult x y phi (r_v r) (r_a r) (r_steer r)
    (r_accumulated_s r).

(** [discrete_v] of both profiles at index [i]. *)
Definition discrete_v_at (cfg : Config) (result : HybridAStartResult) (i : Z)
    : res float :=
  x1 ← vec_at (r_x result) (i + 1);
  x0 ← vec_at (r_x result) i;
  phi0 ← vec_at (r_phi result) i;
  y1 ← vec_at (r_y result) (i + 1);
  y0 ← vec_at (r_y result) i;
  Done (((x1 - x0) / delta_t_ cfg) * d_cos phi0 +
        ((y1 - y0) / delta_t_ cfg) * d_sin phi0)%float.

Definition load_velocity (cfg : Config) (i : Z) (result : HybridAStartResult)
    : res HybridAStartResult :=
  discrete_v ← discrete_v_at cfg result i;
  Done (set_v (r_v result ++ [discrete_v]) result).

Definition load_acceleration (cfg : Config) (i : Z)
    (result : HybridAStartResult) : res HybridAStartResult :=
  v1 ← vec_at (r_v result) (i + 1);
  v0 ← vec_at (r_v result) i;
  let discrete_a := ((v1 - v0) / delta_t_ cfg)%float in
  Done (set_a (r_a result ++ [discrete_a]) result).

Definition load_steering (cfg : Config) (i : Z) (result : HybridAStartResult)
    : res HybridAStartResult :=
  phi1 ← vec_at (r_phi result) (i + 1);
  phi0 ← vec_at (r_phi result) i;
  let discrete_steer :=
    ((phi1 - phi0) * wheel_base cfg / step_size_ cfg)%float in
  vi ← vec_at (r_v result) i;
  let discrete_steer :=
    if fgt vi 0 then d_atan discrete_steer
    else d_atan (- discrete_steer)%float in
  Done (set_steer (r_steer result ++ [discrete_steer]) result).

(** The number of iterations of [for (size_t i = 0; i + 1 < x_size; ++i)]. *)
Definition pairs_count (x_size : Z) : nat := Z.to_nat (x_size - 1).

Definition GenerateSpeedAcceleration (cfg : Config)
    (result : HybridAStartResult) : res (bool * HybridAStartResult) :=
  if ((vsize (r_x result) <? 2) || (vsize (r_y result) <? 2) ||
      (vsize (r_phi result) <? 2))%Z
  then Done (false, result)
  else
    let x_size := vsize (r_x result) in
    result ← for_loop (pairs_count x_size) 0 (load_velocity cfg) result;
    let result := set_v (r_v result ++ [0%float]) result in
    result ← for_loop (pairs_count x_size) 0 (load_acceleration cfg) result;
    result ← for_loop (pairs_count x_size) 0 (load_steering cfg) result;
    Done (true, result).

(** One round of the first loop of the s-curve profile. The accumulator is
    the local [accumulated_s]; the local vectors [s_bounds] and [ds_bounds]
    are written but never read and are left out. *)
Definition load_reference (cfg : Config) (i : Z)
    (st : float * HybridAStartResult) : res (float * HybridAStartResult) :=
  let '(accumulated_s, result) := st in
  discrete_v ← discrete_v_at cfg result i;
  let accumulated_s := (accumulated_s + discrete_v * delta_t_ cfg)%float in
  let result := set_v (r_v result ++ [discrete_v]) result in
  let result :=
    set_accumulated_s (r_accumulated_s result ++ [accumulated_s]) result in
  Done (accumulated_s, result).

(** [*(std::min_element(begin(v), end(v)) - 10)]: the iterator is moved ten
    places back and then dereferenced. *)
Definition first_order_lower_bound (v : list float) : res float :=
  match min_element v with
  | None => Undefined
  | Some k => vec_at v (Z.of_nat k - 10)
  end.

Definition deref_min (v : list float) : res float :=
  match min_element v with
  | None => Undefined
  | Some k => vec_at v (Z.of_nat k)
  end.

Definition deref_max (v : list float) : res float :=
  match max_element v with
  | None => Undefined
  | Some k => vec_at v (Z.of_nat k)
  end.

(** Everything up to [path_time_qp->Optimize()]: the problem that is
    handed to the solver. *)
Definition SCurveProblem (cfg : Config) (result : HybridAStartResult)
    : res (QpProblem * HybridAStartResult) :=
  let x_size := vsize (r_x result) in
  let accumulated_s := 0%float in
  let result :=
    set_accumulated_s (r_accumulated_s result ++ [0%float]) result in
  let result := set_v (r_v result ++ [0%float]) result in
  '(accumulated_s, result) ←
    for_loop (pairs_count x_size) 0 (load_reference cfg)
      (accumulated_s, result);
  v ← vec_set (r_v result) (x_size - 1) 0%float;
  let result := set_v v result in
  s0 ← vec_at (r_accumulated_s result) 0;
  v0 ← vec_at (r_v result) 0;
  v1 ← vec_at (r_v result) 1;
  v0' ← vec_at (r_v result) 0;
  let init_s := [s0; v0; ((v1 - v0') / delta_t_ cfg)%float] in
  s_end ← vec_at (r_accumulated_s result) (x_size - 1);
  let end_s := [s_end; 0%float; 0%float] in
  s_min ← deref_min (r_accumulated_s result);
  s_max ← deref_max (r_accumulated_s result);
  ds_min ← first_order_lower_bound (r_v result);
  ds_max ← deref_max (r_v result);
  Done ({| qp_num := x_size;
           qp_delta_t := delta_t_ cfg;
           qp_w := s_curve_weights cfg;
           qp_init_s := init_s;
           qp_end_s := end_s;
           qp_zero_order_bounds := ((s_min - 10)%float, (s_max + 10)%float);
           qp_first_order_bounds := (ds_min, (ds_max + 10)%float);
           qp_second_order_bounds := ((-4.4)%float, 10%float);
           qp_third_order_bound := FLAGS_longitudinal_jerk_bound cfg;
           qp_desire_derivative := 0%float;
           qp_zero_order_reference := r_accumulated_s result |},
        result).

Definition GenerateSCurveSpeedAcceleration (cfg : Config)
    (result : HybridAStartResult) : res (bool * HybridAStartResult) :=
  if ((vsize (r_x result) <? 2) || (vsize (r_y result) <? 2) ||
      (vsize (r_phi result) <? 2))%Z
  then Done (false, result)
  else
    let x_size := vsize (r_x result) in
    '(path_time_qp, result) ← SCurveProblem cfg result;
    match Optimize path_time_qp with
    | None => Done (false, result)
    | Some sol =>
        let result := set_accumulated_s (qp_x sol) result in
        let result := set_v (qp_x_derivative sol) result in
        a ← vec_pop_back (qp_x_second_order_derivative sol);
        let result := set_a a result in
        result ← for_loop (pairs_count x_size) 0 (load_steering cfg) result;
        Done (true, result)
    end.

(** ** GetResult (lines 230-294) *)

(** The [while (current_node->GetPreNode() != nullptr)] loop. [None] is the
    [return false] of the size check; otherwise the node the walk stops at
    and the three accumulated vectors. *)
Fixpoint GetResult_walk (current_node : Node3d.t)
    (hybrid_a_x hybrid_a_y hybrid_a_phi : list float)
    : option (Node3d.t * list float * list float * list float) :=
  match Node3d.pre_node_ current_node with
  | None => Some (current_node, hybrid_a_x, hybrid_a_y, hybrid_a_phi)
  | Some pre =>
      let x := Node3d.GetXs current_node in
      let y := Node3d.GetYs current_node in
      let phi := Node3d.GetPhis current_node in
      match x, y, phi with
      | _ :: _, _ :: _, _ :: _ =>
          let x := removelast (rev x) in
          let y := removelast (rev y) in
          let phi := removelast (rev phi) in
          GetResult_walk pre (hybrid_a_x ++ x) (hybrid_a_y ++ y)
            (hybrid_a_phi ++ phi)
      | _, _, _ => None
      end
  end.

Definition GetResult_path (final_node : Node3d.t)
    : option (list float * list float * list float) :=
  match GetResult_walk final_node [] [] [] with
  | None => None
  | Some (current_node, hybrid_a_x, hybrid_a_y, hybrid_a_phi) =>
      let hybrid_a_x := hybrid_a_x ++ [Node3d.GetX current_node] in
      let hybrid_a_y := hybrid_a_y ++ [Node3d.GetY current_node] in
      let hybrid_a_phi := hybrid_a_phi ++ [Node3d.GetPhi current_node] in
      Some (rev hybrid_a_x, rev hybrid_a_y, rev hybrid_a_phi)
  end.

Definition result_sizes_ok (result : HybridAStartResult) : bool :=
  negb ((negb (vsize (r_x result) =? vsize (r_y result))%Z) ||
        (negb (vsize (r_x result) =? vsize (r_v result))%Z) ||
        (negb (vsize (r_x result) =? vsize (r_phi result))%Z)) &&
  negb ((negb (vsize (r_a result) =? vsize (r_steer result))%Z) ||
        (negb (size_sub (vsize (r_x result)) (vsize (r_a result)) =? 1)%Z)).

Definition GetResult (cfg : Config) (self : Planner)
    (result : HybridAStartResult) : res (bool * HybridAStartResult) :=
  match final_node_ self with
  | None => Undefined
  | Some final_node =>
      match GetResult_path final_node with
      | None => Done (false, result)
      | Some (hybrid_a_x, hybrid_a_y, hybrid_a_phi) =>
          let result := set_path hybrid_a_x hybrid_a_y hybrid_a_phi result in
          '(ok, result) ←
            (if FLAGS_use_s_curve_speed_smooth cfg
             then GenerateSCurveSpeedAcceleration cfg result
             else GenerateSpeedAcceleration cfg result);
          if negb ok then Done (false, result)
          else Done (result_sizes_ok result, result)
      end
  end.

(** ** Plan (lines 450-560) *)

(** The body of [for (size_t i = 0; i < vertices_num - 1; ++i)]. *)
Definition build_segment (obstacle_vertices : list Vec2d) (i : Z)
    (obstacle_linesegments : list LineSegment2d)
    : res (list LineSegment2d) :=
  a ← vec_at obstacle_vertices i;
  b ← vec_at obstacle_vertices (i + 1);
  let line_segment := {| seg_start := a; seg_end := b |} in
  Done (obstacle_linesegments ++ [line_segment]).

Definition obstacle_segments (obstacle_vertices : list Vec2d)
    : res (list LineSegment2d) :=
  let vertices_num := vsize obstacle_vertices in
  for_loop (Z.to_nat (size_sub vertices_num 1)) 0
    (build_segment obstacle_vertices) [].

(** Modelled from the spec: the ordering of [open_pq_], whose comparator is
    declared in hybrid_a_star.h. The queue yields the entry of lowest total
    cost, and the earliest inserted among entries of equal cost. The queue
    is kept in insertion order. *)
Definition pq_top_index (q : list (string * float)) : option nat :=
  min_element (map snd q).

Definition pq_top (q : list (string * float)) : option (string * float) :=
  k ← pq_top_index q; q !! k.

Definition pq_pop (q : list (string * float)) : list (string * float) :=
  match pq_top_index q with
  | Some k => delete k q
  | None => q
  end.

Definition pq_push (e : string * float) (self : Planner) : Planner :=
  Build_Planner (XYbounds_ self) (obstacles_linesegments_vec_ self)
    (start_node_ self) (end_node_ self) (final_node_ self) (open_set_ self)
    (close_set_ self) (open_pq_ self ++ [e]) (dp_map_ self)
    (pushed_ self ++ [e.1]) (expanded_ self).

Definition pq_take (id : string) (self : Planner) : Planner :=
  Build_Planner (XYbounds_ self) (obstacles_linesegments_vec_ self)
    (start_node_ self) (end_node_ self) (final_node_ self) (open_set_ self)
    (close_set_ self) (pq_pop (open_pq_ self)) (dp_map_ self)
    (pushed_ self) (expanded_ self ++ [id]).

(** Lines 455-497: everything before the search loop. The boolean is false
    on an early [return false]. *)
Definition Plan_setup (self : Planner) (sx sy sphi ex ey ephi : float)
    (XYbounds : list float) (obstacles_vertices_vec : list (list Vec2d))
    : res (bool * Planner) :=
  obstacles_linesegments_vec ←
    for_each obstacle_segments obstacles_vertices_vec;
  start_node ← Node3d.make [sx] [sy] [sphi] XYbounds;
  end_node ← Node3d.make [ex] [ey] [ephi] XYbounds;
  let self :=
    Build_Planner XYbounds obstacles_linesegments_vec (Some start_node)
      (Some end_node) None ∅ ∅ [] (dp_map_ self) [] [] in
  ok ← ValidityCheck self start_node;
  if negb ok then Done (false, self) else
  ok ← ValidityCheck self end_node;
  if negb ok then Done (false, self) else
  let self :=
    Build_Planner (XYbounds_ self) (obstacles_linesegments_vec_ self)
      (start_node_ self) (end_node_ self) (final_node_ self) (open_set_ self)
      (close_set_ self) (open_pq_ self)
      (GenerateDpMap ex ey (XYbounds_ self) (obstacles_linesegments_vec_ self))
      (pushed_ self) (expanded_ self) in
  let self :=
    set_open_set
      (umap_insert (Node3d.GetIndex start_node) start_node (open_set_ self))
      self in
  Done (true,
        pq_push (Node3d.GetIndex start_node, Node3d.GetCost start_node) self).

(** Lines 522-543: the body of the loop over the motion primitives. *)
Definition Plan_successor (fuel : nat) (cfg : Config)
    (current_node : Node3d.t) (i : Z) (self : Planner) : res Planner :=
  next ← Next_node_generator fuel cfg self current_node i;
  match next with
  | None => Done self
  | Some next_node =>
      match close_set_ self !! Node3d.GetIndex next_node with
      | Some _ => Done self
      | None =>
          ok ← ValidityCheck self next_node;
          if negb ok then Done self
          else
            match open_set_ self !! Node3d.GetIndex next_node with
            | Some _ => Done self
            | None =>
                let next_node :=
                  CalculateNodeCost cfg self current_node next_node in
                let self :=
                  set_open_set
                    (umap_insert (Node3d.GetIndex next_node) next_node
                       (open_set_ self)) self in
                Done (pq_push (Node3d.GetIndex next_node,
                               Node3d.GetCost next_node) self)
            end
      end
  end.

(** Lines 507-544: one round of [while (!open_pq_.empty())], entered with a
    non-empty queue. The boolean is the [break]. [open_set_[current_id]] on
    a missing key yields a null pointer, which the analytic expansion
    dereferences. *)
Definition Plan_iteration (fuel : nat) (cfg : Config) (self : Planner)
    : res (bool * Planner) :=
  match pq_top (open_pq_ self) with
  | None => Undefined
  | Some (current_id, _) =>
      let self := pq_take current_id self in
      match open_set_ self !! current_id with
      | None => Undefined
      | Some current_node =>
          '((found, self) : bool * Planner) ←
            AnalyticExpansion self current_node;
          if found then Done (true, self)
          else
            let self :=
              set_close_set
                (umap_insert (Node3d.GetIndex current_node) current_node
                   (close_set_ self)) self in
            self ← for_loop (Z.to_nat (next_node_num_ cfg)) 0
                     (Plan_successor fuel cfg current_node) self;
            Done (false, self)
      end
  end.

(** The search loop; [rounds] bounds the number of rounds. *)
Fixpoint Plan_search (rounds : nat) (fuel : nat) (cfg : Config)
    (self : Planner) : res Planner :=
  match rounds with
  | O => OutOfFuel
  | S rounds' =>
      match open_pq_ self with
      | [] => Done self
      | _ :: _ =>
          '((found, self) : bool * Planner) ← Plan_iteration fuel cfg self;
          if found then Done self
          else Plan_search rounds' fuel cfg self
      end
  end.

Definition Plan (rounds fuel : nat) (cfg : Config) (self : Planner)
    (sx sy sphi ex ey ephi : float) (XYbounds : list float)
    (obstacles_vertices_vec : list (list Vec2d))
    (result : HybridAStartResult)
    : res (bool * Planner * HybridAStartResult) :=
'((ok, self) : bool * Planner) ←
    Plan_setup self sx sy sphi ex ey ephi XYbounds obstacles_vertices_vec;
  if negb ok then Done (false, self, result)
  else
    self ← Plan_search rounds fuel cfg self;
    match final_node_ self with
    | None => Done (false, self, result)
    | Some _ =>
        '(ok, result) ← GetResult cfg self result;
        Done (ok, self, result)
    end.

(** ** The search loop in the words of the specification

    The specification consults the closed set after the pop and before
    the expansion, and skips an entry whose index is closed. The next two
    definitions follow those words, to be compared with [Plan_iteration]
    and [Plan_search] above, which follow the code. *)

(** A pop that expands nothing. *)
Definition pq_skip (self : Planner) : Planner :=
  Build_Planner (XYbounds_ self) (obstacles_linesegments_vec_ self)
    (start_node_ self) (end_node_ self) (final_node_ self) (open_set_ self)
    (close_set_ self) (pq_pop (open_pq_ self)) (dp_map_ self)
    (pushed_ self) (expanded_ self).

Definition Plan_iteration_checked (fuel : nat) (cfg : Config)
    (self : Planner) : res (bool * Planner) :=
  match pq_top (open_pq_ self) with
  | Some (current_id, _) =>
      match close_set_ self !! current_id with
      | Some _ => Done (false, pq_skip self)
      | None => Plan_iteration fuel cfg self
      end
  | None => Plan_iteration fuel cfg self
  end.

Fixpoint Plan_search_checked (rounds : nat) (fuel : nat) (cfg : Config)
    (self : Planner) : res Planner :=
  match rounds with
  | O => OutOfFuel
  | S rounds' =>
      match open_pq_ self with
      | [] => Done self
      | _ :: _ =>
          '((found, self) : bool * Planner) ←
            Plan_iteration_checked fuel cfg self;
          if found then Done self
          else Plan_search_checked rounds' fuel cfg self
      end
  end.

(** ** Vocabulary of the statements *)

(** The rounds of the search loop reachable from a seeded planner. *)
Inductive reachable (cfg : Config) (s0 : Planner) : Planner -> Prop :=
| reach_seed : reachable cfg s0 s0
| reach_round (fuel : nat) (s s' : Planner) :
    reachable cfg s0 s ->
    open_pq_ s <> [] ->
    Plan_iteration fuel cfg s = Done (false, s') ->
    reachable cfg s0 s'.

(** What holds of the maps, the queue and the two histories between two
    rounds of the search loop. *)
Record Plan_inv (s : Planner) : Prop := {
  inv_pushed_nodup : NoDup (pushed_ s);
  inv_open_pushed : forall id, is_Some (open_set_ s !! id) <-> id ∈ pushed_ s;
  inv_queue : map fst (open_pq_ s) ++ expanded_ s ≡ₚ pushed_ s;
  inv_closed : forall id, is_Some (close_set_ s !! id) -> id ∈ expanded_ s;
  inv_index : forall id n,
    open_set_ s !! id = Some n -> Node3d.GetIndex n = id }.

(** The poses [ValidityCheck] tests when there are obstacles: the single
    pose of a one-pose node, and otherwise all stored poses but the first. *)
Definition checked_poses (node : Node3d.t) : list (float * float * float) :=
  if (Node3d.GetStepSize node =? 1)%Z then Node3d.poses node
  else tail (Node3d.poses node).

(** One substep of the bicycle model with signed step [d]. *)
Definition bicycle_step (cfg : Config) (d steering : float)
    (p : float * float * float) : float * float * float :=
  let '(x, y, phi) := p in
  ((x + d * d_cos phi)%float,
   (y + d * d_sin phi)%float,
   NormalizeAngle (phi + d / wheel_base cfg * d_tan steering)%float).

(** The start pose followed by [n] substeps. *)
Fixpoint primitive_poses (cfg : Config) (d steering : float) (n : nat)
    (p : float * float * float) : list (float * float * float) :=
  match n with
  | O => [p]
  | S n' => p :: primitive_poses cfg d steering n' (bicycle_step cfg d steering p)
  end.

(** The pose after [n] substeps. *)
Fixpoint primitive_end (cfg : Config) (d steering : float) (n : nat)
    (p : float * float * float) : float * float * float :=
  match n with
  | O => p
  | S n' => primitive_end cfg d steering n' (bicycle_step cfg d steering p)
  end.

(** [n] is the number of rounds of the integration loop: its condition
    holds for 0, ..., n-1 and fails for n. *)
Definition substeps (cfg : Config) (n : nat) : bool :=
  forallb (fun i => flt (double_of_size_t (Z.of_nat i))
                      (arc_length cfg / step_size_ cfg)%float) (seq 0 n) &&
  negb (flt (double_of_size_t (Z.of_nat n))
          (arc_length cfg / step_size_ cfg)%float).

(** The parent chain of a node is linked when every node with a parent is
    well formed and starts at the pose its parent ends at. *)
Inductive linked : Node3d.t -> Prop :=
| linked_root n :
    Node3d.GetPreNode n = None -> linked n
| linked_edge n p :
    Node3d.GetPreNode n = Some p ->
    linked p ->
    Node3d.wf n ->
    head (Node3d.GetXs n) = Some (Node3d.GetX p) ->
    head (Node3d.GetYs n) = Some (Node3d.GetY p) ->
    head (Node3d.GetPhis n) = Some (Node3d.GetPhi p) ->
    linked n.

(** The node a parent chain starts from. *)
Fixpoint chain_root (n : Node3d.t) : Node3d.t :=
  match Node3d.pre_node_ n with
  | None => n
  | Some p => chain_root p
  end.

(** The path of a chain, start to goal: the pose of the root, then the
    stored poses of every later node without its first one. *)
Fixpoint chain_path (rep : Node3d.t -> float) (sq : Node3d.t -> list float)
    (n : Node3d.t) : list float :=
  match Node3d.pre_node_ n with
  | None => [rep n]
  | Some p => chain_path rep sq p ++ tail (sq n)
  end.

(** The finite-difference profile in closed form. *)
Definition discrete_v (cfg : Config) (x y phi : list float) (i : nat)
    : float :=
  (((nth (S i) x 0 - nth i x 0) / delta_t_ cfg) * d_cos (nth i phi 0) +
   ((nth (S i) y 0 - nth i y 0) / delta_t_ cfg) * d_sin (nth i phi 0))%float.

Definition discrete_a (cfg : Config) (v : list float) (i : nat) : float :=
  ((nth (S i) v 0 - nth i v 0) / delta_t_ cfg)%float.

Definition discrete_steer (cfg : Config) (phi v : list float) (i : nat)
    : float :=
  let s := ((nth (S i) phi 0 - nth i phi 0) * wheel_base cfg /
            step_size_ cfg)%float in
  if fgt (nth i v 0%float) 0 then d_atan s else d_atan (- s)%float.

End HybridAStar.

(** Inputs used to test the statements, for any collaborators: a node whose
    final pose is far outside the bounds below, and a planner with exactly
    one obstacle that has no segment (a one-vertex obstacle). *)
Definition far_node : Node3d.t :=
  Node3d.Build [0; 100]%float [0; 0]%float [0; 0]%float 100 0 0 2
    "far" 0 0 0 true None.

Definition one_vertex_world `{Externals} (dp : DpMap) : Planner :=
  Build_Planner [-10; 10; -10; 10]%float [[]] None None None ∅ ∅ [] dp [] [].

(** A planner, without obstacles, whose queue holds one entry for an index
    that is already in the closed set. *)
Definition stale_node : Node3d.t :=
  Node3d.Build [0]%float [0]%float [0]%float 0 0 0 1 "a" 0 0 0 true None.
Definition stale_goal : Node3d.t :=
  Node3d.Build [5]%float [0]%float [0]%float 5 0 0 1 "g" 0 0 0 true None.

Definition stale_world `{Externals} (dp : DpMap) : Planner :=
  Build_Planner [-10; 10; -10; 10]%float [] (Some stale_node)
    (Some stale_goal) None {[ "a" := stale_node ]} {[ "a" := stale_node ]}
    [("a", 0%float)] dp ["a"] ["a"].

(** A configuration with unit grid resolution and unit step size. *)
Definition unit_config : Config := {|
  next_node_num_ := 10;
  max_steer_angle_ := 0.5;
  step_size_ := 1;
  xy_grid_resolution_ := 1;
  delta_t_ := 1;
  traj_forward_penalty_ := 1;
  traj_back_penalty_ := 1;
  traj_gear_switch_penalty_ := 10;
  traj_steer_penalty_ := 0;
  traj_steer_change_penalty_ := 0;
  wheel_base := 2.8448;
  s_curve_weights := [1; 1; 1; 1; 1]%float;
  FLAGS_use_s_curve_speed_smooth := false;
  FLAGS_longitudinal_jerk_bound := 4 |}.

(** [⌊f⌋] of a finite double, exactly. *)
Definition floor_Z (f : float) : Z :=
  match Prim2SF f with
  | S754_finite s m e => Z.shiftl (if s then Z.neg m else Z.pos m) e
  | _ => 0%Z
  end.

(** [⌈f⌉] of a finite double, exactly. *)
Definition ceil_Z (f : float) : Z := (- floor_Z (- f)%float)%Z.

(** ** Vocabulary of the further properties *)

(** The loop condition of the integration loop at counter [i]. *)
Definition substep_cond (cfg : Config) (i : Z) : bool :=
  flt (double_of_size_t i) (arc_length cfg / step_size_ cfg)%float.

Section SearchVocabulary.
Context `{E : Externals}.

(** What holds of the stored nodes between two rounds of the search loop,
    for the start node [start]: every stored node hangs off [start] by a
    linked parent chain, its parent is stored and closed, its costs are
    those [CalculateNodeCost] computes from its parent, the queue carries
    the cost of the stored node, closed nodes are stored nodes, and every
    expanded index is closed. *)
Record Search_inv (cfg : Config) (start : Node3d.t) (s : Planner) : Prop := {
  sinv_linked : forall id n,
    open_set_ s !! id = Some n -> linked n /\ chain_root n = start;
  sinv_root : forall id n,
    open_set_ s !! id = Some n -> Node3d.GetPreNode n = None -> n = start;
  sinv_parent : forall id n p,
    open_set_ s !! id = Some n -> Node3d.GetPreNode n = Some p ->
    open_set_ s !! Node3d.GetIndex p = Some p /\
    close_set_ s !! Node3d.GetIndex p = Some p;
  sinv_cost : forall id n p,
    open_set_ s !! id = Some n -> Node3d.GetPreNode n = Some p ->
    Node3d.GetTrajCost n
    = (Node3d.GetTrajCost p + TrajCost cfg p n)%float /\
    Node3d.heuristic_cost_ n
    = (0 + CheckDpMap (dp_map_ s) (Node3d.GetX n) (Node3d.GetY n))%float;
  sinv_queue_cost : forall id c,
    (id, c) ∈ open_pq_ s ->
    exists n, open_set_ s !! id = Some n /\ Node3d.GetCost n = c;
  sinv_closed_open : forall id n,
    close_set_ s !! id = Some n -> open_set_ s !! id = Some n;
  sinv_expanded_closed : forall id,
    id ∈ expanded_ s -> is_Some (close_set_ s !! id) }.

(** The members a round of the search loop only reads. *)
Definition same_problem (s s' : Planner) : Prop :=
  XYbounds_ s' = XYbounds_ s /\
  obstacles_linesegments_vec_ s' = obstacles_linesegments_vec_ s /\
  start_node_ s' = start_node_ s /\
  end_node_ s' = end_node_ s /\
  dp_map_ s' = dp_map_ s.

(** Both maps only gain entries. *)
Definition maps_grow (s s' : Planner) : Prop :=
  open_set_ s ⊆ open_set_ s' /\ close_set_ s ⊆ close_set_ s'.

End SearchVocabulary.

Section FurtherVocabulary.
Context `{E : Externals}.

(** Every node of the open set passes [ValidityCheck]. *)
Definition stored_valid (s : Planner) : Prop :=
  forall id n, open_set_ s !! id = Some n -> ValidityCheck s n = Done true.

(** The segments between successive vertices of an obstacle, without a
    closing edge. *)
Definition polyline (vs : list Vec2d) : list LineSegment2d :=
  zip_with (fun a b => {| seg_start := a; seg_end := b |}) vs (tail vs).

End FurtherVocabulary.

(** ** A small world to run the planner in

    Stand-ins for the collaborators, precise enough to execute the model on
    examples: truncated series for the libm functions, one wrap for
    [NormalizeAngle], a unit square around the pose as vehicle box, a grid
    index printed from the floors of the quantised pose, a two-pose
    straight Reeds-Shepp curve between poses of equal heading and ordinate,
    the Manhattan distance to the goal as heuristic, and a solver that
    reports failure. *)

Module Demo.

Definition pi : float := 3.141592653589793%float.

Definition cos_series (x : float) : float :=
  (1 - x * x / 2 + x * x * x * x / 24)%float.
Definition sin_series (x : float) : float :=
  (x - x * x * x / 6 + x * x * x * x * x / 120)%float.
Definition tan_series (x : float) : float :=
  (x + x * x * x / 3)%float.
Definition atan_series (x : float) : float :=
  (x - x * x * x / 3)%float.

Definition wrap_angle (a : float) : float :=
  if PrimFloat.ltb pi a then (a - 2 * pi)%float
  else if PrimFloat.ltb a (- pi)%float then (a + 2 * pi)%float
  else a.

Definition near (c p : float) : bool :=
  PrimFloat.leb (c - 1)%float p && PrimFloat.leb p (c + 1)%float.

Definition box_touches (b : float * float * float) (l : LineSegment2d)
    : bool :=
  let '(x, y, _) := b in
  (near x (vx (seg_start l)) && near y (vy (seg_start l))) ||
  (near x (vx (seg_end l)) && near y (vy (seg_end l))).

Definition cell (v lo : float) : string :=
  pretty (floor_Z ((v - lo) / 0.5)%float).

Definition grid_index (x y phi : float) (XYbounds : list float) : string :=
  cell x (nth 0 XYbounds 0%float) +:+ "_" +:+
  cell y (nth 2 XYbounds 0%float) +:+ "_" +:+ cell phi (- pi)%float.

Definition straight_curve (a b : float * float * float)
    : option ReedSheppPath :=
  let '(x0, y0, phi0) := a in
  let '(x1, y1, phi1) := b in
  if PrimFloat.eqb y0 y1 && PrimFloat.eqb phi0 phi1
  then Some {| rs_x := [x0; x1]; rs_y := [y0; y1]; rs_phi := [phi0; phi1] |}
  else None.

Definition manhattan (goal : float * float) (x y : float) : float :=
  (PrimFloat.abs (x - goal.1) + PrimFloat.abs (y - goal.2))%float.

Definition world : Externals := {|
  d_cos := cos_series;
  d_sin := sin_series;
  d_tan := tan_series;
  d_atan := atan_series;
  NormalizeAngle := wrap_angle;
  Box2d := float * float * float;
  HasOverlap := box_touches;
  GetBoundingBox := fun x y phi => (x, y, phi);
  ComputeStringIndex := grid_index;
  ShortestRSP := straight_curve;
  DpMap := float * float;
  empty_dp_map := (0%float, 0%float);
  GenerateDpMap := fun ex ey _ _ => (ex, ey);
  CheckDpMap := manhattan;
  Optimize := fun _ => None |}.

Definition config : Config := {|
  next_node_num_ := 10;
  max_steer_angle_ := 0.5;
  step_size_ := 0.5;
  xy_grid_resolution_ := 0.3;
  delta_t_ := 0.5;
  traj_forward_penalty_ := 1;
  traj_back_penalty_ := 1;
  traj_gear_switch_penalty_ := 10;
  traj_steer_penalty_ := 0;
  traj_steer_change_penalty_ := 0;
  wheel_base := 2.8448;
  s_curve_weights := [1; 1; 1; 1; 1]%float;
  FLAGS_use_s_curve_speed_smooth := false;
  FLAGS_longitudinal_jerk_bound := 4 |}.

Definition blank : @Planner world :=
  @Build_Planner world [] [] None None None ∅ ∅ [] (0%float, 0%float) [] [].

Definition no_result : HybridAStartResult :=
  Build_HybridAStartResult [] [] [] [] [] [] [].

Definition bounds : list float := [-10; 10; -10; 10]%float.

(** A planner with one two-vertex obstacle, and a two-pose node. *)
Definition fenced : @Planner world :=
  @Build_Planner world bounds
    [[ {| seg_start := {| vx := 5; vy := 5 |};
          seg_end := {| vx := 6; vy := 5 |} |} ]]
    None None None ∅ ∅ [] (0%float, 0%float) [] [].

Definition hop : Node3d.t :=
  Node3d.Build [0; 0.5]%float [0; 0]%float [0; 0]%float 0.5 0 0 2
    "21_20_6" 0 0 0 true None.

(** A chain of three nodes: a start node, a primitive and a final curve. *)
Definition chain_start : Node3d.t :=
  Node3d.Build [0]%float [0]%float [0]%float 0 0 0 1 "20_20_6" 0 0 0 true
    None.
Definition chain_mid : Node3d.t :=
  Node3d.Build [0; 0.5]%float [0; 0]%float [0; 0]%float 0.5 0 0 2
    "21_20_6" 0.5 4.5 0 true (Some chain_start).
Definition chain_final : Node3d.t :=
  Node3d.Build [0.5; 2; 5]%float [0; 0; 0]%float [0; 0; 0]%float 5 0 0 3
    "30_20_6" 0 0 0 true (Some chain_mid).

(** A two-pose path with empty outputs. *)
Definition straight : HybridAStartResult :=
  Build_HybridAStartResult [0; 5]%float [0; 0]%float [0; 0]%float [] [] [] [].

(** The planner seeded for a goal off the start's ordinate, so that the
    first round finds no curve, and the planner after that round. *)
Definition seeded : @Planner world :=
  match @Plan_setup world blank 0 0 0 5 1 0 bounds [] with
  | Done (_, s) => s
  | _ => blank
  end.
Definition second_round : @Planner world :=
  match @Plan_iteration world 5 config seeded with
  | Done (_, s) => s
  | _ => seeded
  end.

(** Primitive 0 from [hop]: its steering and step, and where it ends. *)
Definition hop_choice : float * float :=
  Eval vm_compute in primitive_choice config 0.
Definition hop_end : float * float * float :=
  Eval vm_compute in
    @primitive_end world config hop_choice.2 hop_choice.1 1 (node_pose hop).


(** The planner seeded for a goal straight ahead of the start, and the
    planner after the round that ends that search. *)
Definition aimed : @Planner world :=
  match @Plan_setup world blank 0 0 0 5 0 0 bounds [] with
  | Done (_, s) => s
  | _ => blank
  end.
Definition arrived : @Planner world :=
  match @Plan_iteration world 5 config aimed with
  | Done (_, s) => s
  | _ => aimed
  end.

(** An obstacle of three vertices and one of a single vertex; the planner
    seeded among them, and the planner after its first round. *)
Definition corner : list (list Vec2d) :=
  [ [ {| vx := 5; vy := 5 |}; {| vx := 6; vy := 5 |};
      {| vx := 6; vy := 6 |} ];
    [ {| vx := 8; vy := 8 |} ] ].
Definition yard : @Planner world :=
  match @Plan_setup world blank 0 0 0 5 1 0 bounds corner with
  | Done (_, s) => s
  | _ => blank
  end.
Definition yard_round : @Planner world :=
  match @Plan_iteration world 5 config yard with
  | Done (_, s) => s
  | _ => yard
  end.

(** A call that reaches the goal in its first round, and a call whose
    bounds leave no successor, so that the queue runs empty. *)
Definition planned : @Planner world * HybridAStartResult :=
  match @Plan world 5 5 config blank 0 0 0 5 0 0 bounds [] no_result with
  | Done (_, s, r) => (s, r)
  | _ => (blank, no_result)
  end.
Definition narrow : list float := [-0.1; 0.1; -0.1; 0.1]%float.
Definition boxed : @Planner world * HybridAStartResult :=
  match @Plan world 5 5 config blank 0 0 0 0 0.05 0 narrow [] no_result with
  | Done (_, s, r) => (s, r)
  | _ => (blank, no_result)
  end.

(** A planner that holds [chain_final] as its final node. *)
Definition finished : @Planner world :=
  @Build_Planner world bounds [] None None (Some chain_final) ∅ ∅ []
    (0%float, 0%float) [] [].

(** A twelve-pose path that only moves forward, and a result that already
    holds a steering angle. *)
Definition cruise : HybridAStartResult :=
  Build_HybridAStartResult
    [0; 0.5; 1; 1.5; 2; 2.5; 3; 3.5; 4; 4.5; 5; 5.5]%float
    [0; 0; 0; 0; 0; 0; 0; 0; 0; 0; 0; 0]%float
    [0; 0; 0; 0; 0; 0; 0; 0; 0; 0; 0; 0]%float [] [] [] [].
Definition used_result : HybridAStartResult :=
  Build_HybridAStartResult [] [] [] [] [] [0%float] [].

(** The node stored under "21_20_6" after the first round towards
    (5, 1, 0), and the final node of [planned]. *)
Definition stored_hop : Node3d.t :=
  Eval vm_compute in
    match open_set_ second_round !! "21_20_6"%string with
    | Some n => n
    | None => chain_start
    end.
Definition goal_curve : Node3d.t :=
  Eval vm_compute in
    match final_node_ planned.1 with
    | Some n => n
    | None => chain_start
    end.

(** The planner after the analytic expansion from the start node towards
    (5, 0, 0). *)
Definition expanded : @Planner world :=
  match @AnalyticExpansion world aimed chain_start with
  | Done (_, s) => s
  | _ => aimed
  end.

(** The two-pose path of [straight] with one velocity already in v, and
    an empty result that holds one velocity. *)
Definition reused : HybridAStartResult :=
  Build_HybridAStartResult [0; 5]%float [0; 0]%float [0; 0]%float
    [7]%float [] [] [].
Definition reused_empty_path : HybridAStartResult :=
  Build_HybridAStartResult [] [] [] [7]%float [] [] [].

End Demo.

(** * Properties *)

(** ** Vectors, loops and lists *)

Lemma vec_at_lookup {A} (v : list A) (i : nat) a :
  v !! i = Some a -> vec_at v (Z.of_nat i) = Done a.
Proof.
  intros H. unfold vec_at.
  destruct (Z.ltb_spec (Z.of_nat i) 0); [lia|].
  rewrite Nat2Z.id, H. reflexivity.
Qed.

Lemma vec_at_nth (v : list float) (i : nat) :
  (i < length v)%nat -> vec_at v (Z.of_nat i) = Done (nth i v 0%float).
Proof.
  intros Hi. apply vec_at_lookup.
  destruct (lookup_lt_is_Some_2 v i Hi) as [a Ha].
  rewrite (nth_lookup_Some _ _ 0%float _ Ha). exact Ha.
Qed.

Lemma for_loop_S {S} n i (body : Z -> S -> res S) s :
  for_loop (Datatypes.S n) i body s =
  body i s ≫= fun s' => for_loop n (i + 1)%Z body s'.
Proof. reflexivity. Qed.

Lemma for_loop_preserves {S} (P : S -> Prop) (body : Z -> S -> res S) n :
  (forall i s s', P s -> body i s = Done s' -> P s') ->
  forall i s s', P s -> for_loop n i body s = Done s' -> P s'.
Proof.
  intros Hbody. induction n as [|n IH]; intros i s s' Hs Hrun.
  - injection Hrun as <-. exact Hs.
  - rewrite for_loop_S in Hrun.
    destruct (body i s) as [s1| |] eqn:Hb; try discriminate.
    cbn in Hrun. eapply IH; [|exact Hrun]. eapply Hbody; eassumption.
Qed.

Lemma zip_rev {A B} (l : list A) (k : list B) :
  length l = length k -> zip (rev l) (rev k) = rev (zip l k).
Proof.
  revert k. induction l as [|a l IH]; intros [|b k] Hlen;
    simpl in Hlen; try discriminate; [reflexivity|].
  cbn [rev zip_with]. rewrite zip_with_app by (rewrite !length_rev; lia).
  rewrite IH by lia. reflexivity.
Qed.

Lemma forallb_rev {A} (f : A -> bool) (l : list A) :
  forallb f (rev l) = forallb f l.
Proof.
  induction l as [|a l IH]; [reflexivity|].
  cbn [rev forallb]. rewrite forallb_app, IH. cbn [forallb].
  rewrite andb_true_r. apply andb_comm.
Qed.

Lemma removelast_rev {A} (l : list A) : removelast (rev l) = rev (tail l).
Proof.
  destruct l as [|a l]; [reflexivity|].
  cbn [rev tail]. apply removelast_last.
Qed.

Lemma last_map {A B} (f : A -> B) (l : list A) :
  last (map f l) = f <$> last l.
Proof.
  induction l as [|a [|b l] IH]; try reflexivity. exact IH.
Qed.

Lemma last_glue {A} (l s : list A) a b :
  last l = Some a -> head s = Some a -> last s = Some b ->
  last (l ++ tail s) = Some b.
Proof.
  intros Hl Hh Hs. destruct s as [|a' [|a'' s]]; try discriminate.
  - cbn in *. rewrite app_nil_r. congruence.
  - cbn [tail]. rewrite last_app. rewrite last_cons_cons in Hs.
    rewrite Hs. reflexivity.
Qed.

(** A result is determined by its flag and its state; used to run the
    model without normalising the maps. *)
Lemma Done_pair_eta {A} (r : res (bool * A)) (d : A) (b : bool) :
  match r with Done (b', _) => Bool.eqb b' b | _ => false end = true ->
  r = Done (b, match r with Done (_, s) => s | _ => d end).
Proof.
  destruct r as [[b' s]| |]; cbn; try discriminate.
  destruct b', b; try discriminate; reflexivity.
Qed.


(** ** ValidityCheck *)

Section ValidityCheckProps.
Context `{E : Externals}.

Lemma ValidityCheck_loop_spec self xmin xmax ymin ymax
    (tx ty tphi : list float) :
  XYbounds_ self = [xmin; xmax; ymin; ymax] ->
  length ty = length tx -> length tphi = length tx ->
  forall n i, (i + n <= length tx)%nat ->
  ValidityCheck_loop self tx ty tphi n (Z.of_nat i) =
  Done (forallb (PoseValid xmin xmax ymin ymax self)
          (take n (drop i (zip (zip tx ty) tphi)))).
Proof.
  intros HXY Hy Hphi n. induction n as [|n IH]; intros i Hi.
  - reflexivity.
  - destruct (lookup_lt_is_Some_2 tx i ltac:(lia)) as [xi Hxi].
    destruct (lookup_lt_is_Some_2 ty i ltac:(lia)) as [yi Hyi].
    destruct (lookup_lt_is_Some_2 tphi i ltac:(lia)) as [pi Hpi].
    assert (Hd : drop i (zip (zip tx ty) tphi) =
                 (xi, yi, pi) :: drop (S i) (zip (zip tx ty) tphi)).
    { apply drop_S.
      rewrite !lookup_zip_with. rewrite Hxi, Hyi, Hpi. reflexivity. }
    rewrite Hd. cbn [take forallb ValidityCheck_loop].
    replace (Z.of_nat i + 1)%Z with (Z.of_nat (S i)) by lia.
    rewrite IH by lia.
    generalize (forallb (PoseValid xmin xmax ymin ymax self)
                  (take n (drop (S i) (zip (zip tx ty) tphi)))).
    intros rest.
    rewrite (vec_at_lookup _ _ _ Hxi), (vec_at_lookup _ _ _ Hyi),
      (vec_at_lookup _ _ _ Hpi), HXY.
    change (vec_at [xmin; xmax; ymin; ymax] 0) with (Done xmin).
    change (vec_at [xmin; xmax; ymin; ymax] 1) with (Done xmax).
    change (vec_at [xmin; xmax; ymin; ymax] 2) with (Done ymin).
    change (vec_at [xmin; xmax; ymin; ymax] 3) with (Done ymax).
    unfold PoseValid, InXYbounds, CollisionFree, fgt, flt. cbn.
    destruct (PrimFloat.ltb xmax xi); [reflexivity|].
    destruct (PrimFloat.ltb xi xmin); [reflexivity|].
    destruct (PrimFloat.ltb ymax yi); [reflexivity|].
    destruct (PrimFloat.ltb yi ymin); [reflexivity|].
    cbn.
    destruct (existsb _ _); reflexivity.
Qed.

Lemma poses_rev (node : Node3d.t) :
  Node3d.wf node ->
  zip (zip (rev (Node3d.GetXs node)) (rev (Node3d.GetYs node)))
    (rev (Node3d.GetPhis node)) = rev (Node3d.poses node).
Proof.
  intros [Hy Hphi _ _ _ _ _ _]. unfold Node3d.poses.
  rewrite zip_rev by lia. apply zip_rev.
  rewrite length_zip_with. lia.
Qed.

Lemma poses_length (node : Node3d.t) :
  Node3d.wf node -> length (Node3d.poses node) = length (Node3d.GetXs node).
Proof.
  intros [Hy Hphi _ _ _ _ _ _]. unfold Node3d.poses.
  rewrite !length_zip_with. lia.
Qed.

(** C1, as the code has it: with an empty obstacle list [ValidityCheck]
    accepts every node without reading [XYbounds_], and [Plan] passes the
    checks of the start and end pose, whatever the poses and the bounds, and
    seeds the search with the start node. *)
Theorem ValidityCheck_without_obstacles :
  (forall XY sn en fn os cs pq dp pu ex node,
     ValidityCheck (Build_Planner XY [] sn en fn os cs pq dp pu ex) node
     = Done true) /\
  (forall self sx sy sphi ex ey ephi XYbounds,
     exists start s,
       Node3d.make [sx] [sy] [sphi] XYbounds = Done start /\
       Plan_setup self sx sy sphi ex ey ephi XYbounds [] = Done (true, s) /\
       obstacles_linesegments_vec_ s = [] /\
       open_set_ s = {[ Node3d.GetIndex start := start ]} /\
       open_pq_ s = [(Node3d.GetIndex start, Node3d.GetCost start)]).
Proof.
  split; [reflexivity|].
  intros. eexists _, _. repeat split.
Qed.

(** C4, as the code has it: with a non-empty obstacle list, [ValidityCheck]
    tests the single pose of a node of step size 1, and for a longer node
    every stored pose except the first one (the pose it shares with its
    parent); the node's own final pose is tested. *)
Theorem ValidityCheck_checked_poses self node xmin xmax ymin ymax :
  XYbounds_ self = [xmin; xmax; ymin; ymax] ->
  obstacles_linesegments_vec_ self <> [] ->
  Node3d.wf node ->
  ValidityCheck self node =
  Done (forallb (PoseValid xmin xmax ymin ymax self) (checked_poses node)).
Proof.
  intros HXY Hobs Hwf. unfold ValidityCheck, checked_poses.
  destruct (obstacles_linesegments_vec_ self) as [|o os] eqn:Ho; [done|].
  clear Ho Hobs o os.
  pose proof (poses_length node Hwf) as Hlen.
  pose proof (poses_rev node Hwf) as Hrev.
  destruct Hwf as [Hy Hphi Hne Hbig Hstep _ _ _].
  rewrite Hstep. unfold vsize in *.
  set (n := length (Node3d.GetXs node)) in *.
  rewrite (ValidityCheck_loop_spec self xmin xmax ymin ymax _ _ _ HXY)
    with (i := 0%nat); rewrite ?length_rev; try lia.
  2:{ destruct (Z.eqb_spec (Z.of_nat n) 1); unfold size_sub, size_wrap;
      [lia|]. cbn [Nat.add]. rewrite Z.mod_small by (unfold SIZE_MOD in *; lia).
      lia. }
  rewrite drop_0, Hrev. f_equal.
  destruct (Node3d.poses node) as [|p ps] eqn:Hp; [simpl in Hlen; lia|].
  destruct (Z.eqb_spec (Z.of_nat n) 1) as [H1|H1].
  - destruct ps; [reflexivity|simpl in Hlen; lia].
  - unfold size_sub, size_wrap.
    rewrite Z.mod_small by (unfold SIZE_MOD in *; lia).
    cbn [rev tail]. simpl in Hlen.
    replace (Z.to_nat (Z.of_nat n - 1)) with (length (rev ps))
      by (rewrite length_rev; lia).
    rewrite take_app_length. apply forallb_rev.
Qed.

End ValidityCheckProps.

(** C1 fails as stated: the pose (100, 0) is outside the bounds
    [0, 10] x [0, 10], yet with no obstacles [ValidityCheck] returns true
    for the start node and [Plan] passes its checks, whatever the
    collaborators; in the demo world [Plan] goes on to return true with a
    two-pose path from that start pose. *)
Lemma ValidityCheck_out_of_bounds_accepted :
  InXYbounds 0 10 0 10 100 0 = false /\
  (forall (E' : Externals) (self : @Planner E'),
     exists start s,
       Node3d.make [100%float] [0%float] [0%float] [0; 10; 0; 10]%float
       = Done start /\
       Plan_setup self 100 0 0 5 5 0 [0; 10; 0; 10]%float [] = Done (true, s) /\
       ValidityCheck s start = Done true) /\
  match @Plan Demo.world 5 5 Demo.config Demo.blank 100 0 0 5 0 0
          [0; 10; 0; 10]%float [] Demo.no_result with
  | Done (ok, _, r) => ok && (length (r_x r) =? 2)%nat
  | _ => false
  end = true.
Proof.
  split; [reflexivity|]. split; [|vm_compute; reflexivity].
  intros. eexists _, _. repeat split.
Qed.

(** C4 fails as stated: every pose of [far_node] except its final pose is
    valid, yet the node is rejected, because the final pose is tested. *)
Lemma ValidityCheck_final_pose_checked :
  Node3d.wf far_node /\
  forall (E' : Externals) (dp : @DpMap E'),
    forallb (PoseValid (-10) 10 (-10) 10 (one_vertex_world dp))
      (removelast (Node3d.poses far_node)) = true /\
    ValidityCheck (one_vertex_world dp) far_node = Done false.
Proof.
  split; [|intros; split; reflexivity].
  constructor; try reflexivity; cbn; unfold SIZE_MOD; lia.
Qed.

(** The two-pose node [hop] among the obstacles of [fenced]: its first pose
    is skipped and its final pose passes. *)
Lemma ValidityCheck_checked_poses_witness :
  XYbounds_ Demo.fenced = [-10; 10; -10; 10]%float /\
  obstacles_linesegments_vec_ Demo.fenced <> [] /\
  Node3d.wf Demo.hop /\
  @ValidityCheck Demo.world Demo.fenced Demo.hop = Done true.
Proof.
  assert (Hwf : Node3d.wf Demo.hop)
    by (constructor; try reflexivity; cbn; unfold SIZE_MOD; lia).
  split; [reflexivity|]. split; [discriminate|]. split; [exact Hwf|].
  exact (@ValidityCheck_checked_poses Demo.world Demo.fenced Demo.hop
           (-10) 10 (-10) 10 eq_refl ltac:(discriminate) Hwf).
Defined.


(** ** TrajCost *)

(** C6: for a successor [next] of [current] (a node has at least one pose),
    the edge cost is the travelled length (step_size_count - 1) * step_size
    weighted by the forward or the back penalty of [next]'s direction, plus
    the gear switch penalty when the directions differ, plus the steer and
    the steer change terms. The sum is accumulated from the literal 0.0 in
    this order. *)
Theorem TrajCost_formula cfg (current next : Node3d.t) :
  (1 <= Node3d.GetStepSize next < SIZE_MOD)%Z ->
  TrajCost cfg current next =
  let travel :=
    (double_of_size_t (Node3d.GetStepSize next - 1) * step_size_ cfg *
     (if Node3d.GetDirec next then traj_forward_penalty_ cfg
      else traj_back_penalty_ cfg))%float in
  let steer :=
    (traj_steer_penalty_ cfg * PrimFloat.abs (Node3d.GetSteer next))%float in
  let steer_change :=
    (traj_steer_change_penalty_ cfg *
     PrimFloat.abs (Node3d.GetSteer next - Node3d.GetSteer current))%float in
  if Bool.eqb (Node3d.GetDirec current) (Node3d.GetDirec next)
  then (0 + travel + steer + steer_change)%float
  else (0 + travel + traj_gear_switch_penalty_ cfg + steer +
        steer_change)%float.
Proof.
  intros Hn. unfold TrajCost, size_sub, size_wrap.
  rewrite Z.mod_small by lia.
  destruct (Node3d.GetDirec next), (Node3d.GetDirec current); reflexivity.
Qed.

(** A forward primitive of two poses from the start node costs one step. *)
Lemma TrajCost_formula_witness :
  (1 <= Node3d.GetStepSize Demo.chain_mid < SIZE_MOD)%Z /\
  TrajCost Demo.config Demo.chain_start Demo.chain_mid = 0.5%float.
Proof.
  assert (H : (1 <= Node3d.GetStepSize Demo.chain_mid < SIZE_MOD)%Z)
    by (unfold SIZE_MOD; cbn; lia).
  split; [exact H|].
  exact (TrajCost_formula Demo.config Demo.chain_start Demo.chain_mid H).
Defined.


(** ** Next_node_generator *)

Section Primitive.
Context `{E : Externals}.

Lemma substeps_true cfg n :
  substeps cfg n = true ->
  (forall j, (j < n)%nat ->
     flt (double_of_size_t (Z.of_nat j))
       (arc_length cfg / step_size_ cfg)%float = true) /\
  flt (double_of_size_t (Z.of_nat n))
    (arc_length cfg / step_size_ cfg)%float = false.
Proof.
  unfold substeps. rewrite andb_true_iff, negb_true_iff, forallb_forall.
  intros [Hall Hn]. split; [|exact Hn].
  intros j Hj. apply Hall, in_seq. lia.
Qed.

Lemma primitive_poses_length cfg d st n p :
  length (primitive_poses cfg d st n p) = S n.
Proof. revert p. induction n as [|n IH]; intros p; simpl; [|rewrite IH]; done. Qed.

Lemma primitive_poses_head cfg d st n p :
  head (primitive_poses cfg d st n p) = Some p.
Proof. destruct n; reflexivity. Qed.

(** Consecutive poses of a primitive are one bicycle substep apart. *)
Lemma primitive_poses_step cfg d st n p k q :
  primitive_poses cfg d st n p !! k = Some q ->
  (k < n)%nat ->
  primitive_poses cfg d st n p !! S k = Some (bicycle_step cfg d st q).
Proof.
  revert p k. induction n as [|n IH]; intros p k Hq Hk; [lia|].
  destruct k as [|k]; simpl in *.
  - injection Hq as <-. destruct n; reflexivity.
  - apply IH; [exact Hq|lia].
Qed.

Lemma primitive_poses_last cfg d st n p :
  last (primitive_poses cfg d st n p) = Some (primitive_end cfg d st n p).
Proof.
  revert p. induction n as [|n IH]; intros p; [reflexivity|].
  cbn [primitive_poses primitive_end]. rewrite <- IH.
  destruct n; reflexivity.
Qed.

Lemma Next_node_loop_spec cfg d st n :
  forall fuel i x y phi ix iy iphi,
  (forall j, (j < n)%nat ->
     flt (double_of_size_t (Z.of_nat (i + j)))
       (arc_length cfg / step_size_ cfg)%float = true) ->
  flt (double_of_size_t (Z.of_nat (i + n)))
    (arc_length cfg / step_size_ cfg)%float = false ->
  (n < fuel)%nat ->
  (Z.of_nat (i + n) < SIZE_MOD)%Z ->
  Next_node_loop fuel cfg d st (Z.of_nat i) x y phi ix iy iphi =
  Done (ix ++ map (fun q => q.1.1)
                (tail (primitive_poses cfg d st n (x, y, phi))),
        iy ++ map (fun q => q.1.2)
                (tail (primitive_poses cfg d st n (x, y, phi))),
        iphi ++ map snd (tail (primitive_poses cfg d st n (x, y, phi)))).
Proof.
  induction n as [|n IH]; intros fuel i x y phi ix iy iphi Hlt Hexit Hfuel Hi.
  - destruct fuel as [|fuel]; [lia|]. cbn [Next_node_loop].
    rewrite Nat.add_0_r in Hexit. rewrite Hexit.
    cbn. rewrite !app_nil_r. reflexivity.
  - destruct fuel as [|fuel]; [lia|]. cbn [Next_node_loop].
    rewrite <- (Nat.add_0_r i) at 1. rewrite (Hlt 0%nat) by lia.
    unfold size_add, size_wrap.
    rewrite Z.mod_small by lia.
    replace (Z.of_nat i + 1)%Z with (Z.of_nat (S i)) by lia.
    rewrite IH; try lia.
    + cbn [primitive_poses tail bicycle_step].
      destruct n; cbn [primitive_poses tail map fst snd];
        rewrite <- !app_assoc; reflexivity.
    + intros j Hj. replace (S i + j)%nat with (i + S j)%nat by lia.
      apply Hlt. lia.
    + replace (S i + n)%nat with (i + S n)%nat by lia. exact Hexit.
Qed.

(** What the generator does with the three vectors the integration loop
    leaves: the bounds test on the final pose, then the new node. *)
Lemma Next_node_generator_after_loop fuel cfg self current k steering d
    ix iy iphi xmin xmax ymin ymax xf yf phif :
  XYbounds_ self = [xmin; xmax; ymin; ymax] ->
  primitive_choice cfg k = (steering, d) ->
  Next_node_loop fuel cfg d steering 0 (Node3d.GetX current)
    (Node3d.GetY current) (Node3d.GetPhi current) [Node3d.GetX current]
    [Node3d.GetY current] [Node3d.GetPhi current] = Done (ix, iy, iphi) ->
  last ix = Some xf -> last iy = Some yf -> last iphi = Some phif ->
  length iy = length ix -> length iphi = length ix ->
  Next_node_generator fuel cfg self current k =
  Done (if InXYbounds xmin xmax ymin ymax xf yf
        then Some (Node3d.Build ix iy iphi xf yf phif (vsize ix)
                     (ComputeStringIndex xf yf phif (XYbounds_ self))
                     0 0 steering (fgt d 0) (Some current))
        else None).
Proof.
  intros HXY Hchoice Hloop Hx Hy Hphi Hly Hlphi.
  unfold Next_node_generator. rewrite Hchoice, Hloop.
  cbn [mbind res_bind]. unfold Node3d.make, vec_back.
  rewrite Hx, Hy, Hphi, HXY.
  change (vec_at [xmin; xmax; ymin; ymax] 0) with (Done xmin).
  change (vec_at [xmin; xmax; ymin; ymax] 1) with (Done xmax).
  change (vec_at [xmin; xmax; ymin; ymax] 2) with (Done ymin).
  change (vec_at [xmin; xmax; ymin; ymax] 3) with (Done ymax).
  cbn [mbind res_bind]. unfold InXYbounds.
  destruct (fgt xf xmax); [reflexivity|].
  destruct (flt xf xmin); [reflexivity|].
  destruct (fgt yf ymax); [reflexivity|].
  destruct (flt yf ymin); [reflexivity|].
  cbn [orb negb]. rewrite Hly, Hlphi, !Nat.eqb_refl. reflexivity.
Qed.

(** C3, as the code has it: the generator records the pose of the current
    node first and then takes one bicycle-model substep for every
    i = 0, 1, 2, ... with i < (sqrt 2 * xy_grid_resolution) / step_size,
    that is [n] substeps where [n] is the first count the comparison fails
    for (the quotient rounded up, not down). Each substep adds
    d * cos phi to x, d * sin phi to y and maps phi to
    NormalizeAngle (phi + d / wheel_base * tan steering), with d = +step_size
    or -step_size. The sequences have length [n + 1]; the node is returned
    when its final pose is inside XYbounds, and no node otherwise. *)
Theorem Next_node_generator_substeps fuel cfg self current k n
    steering d xmin xmax ymin ymax xf yf phif :
  XYbounds_ self = [xmin; xmax; ymin; ymax] ->
  substeps cfg n = true ->
  (n < fuel)%nat ->
  (Z.of_nat n < SIZE_MOD)%Z ->
  primitive_choice cfg k = (steering, d) ->
  primitive_end cfg d steering n (node_pose current) = (xf, yf, phif) ->
  let ps := primitive_poses cfg d steering n (node_pose current) in
  length ps = S n /\
  head ps = Some (node_pose current) /\
  (forall j q, ps !! j = Some q -> (j < n)%nat ->
     ps !! S j = Some (bicycle_step cfg d steering q)) /\
  Next_node_generator fuel cfg self current k =
  Done (if InXYbounds xmin xmax ymin ymax xf yf
        then Some (Node3d.Build
                     (map (fun q => q.1.1) ps) (map (fun q => q.1.2) ps)
                     (map snd ps) xf yf phif (Z.of_nat (S n))
                     (ComputeStringIndex xf yf phif (XYbounds_ self))
                     0 0 steering (fgt d 0) (Some current))
        else None).
Proof.
  intros HXY Hsub Hfuel Hn Hchoice Hend ps.
  pose proof (primitive_poses_length cfg d steering n (node_pose current))
    as Hlen.
  pose proof (primitive_poses_head cfg d steering n (node_pose current)) as Hh.
  pose proof (primitive_poses_last cfg d steering n (node_pose current)) as Hl.
  fold ps in Hlen, Hh, Hl. rewrite Hend in Hl.
  split; [exact Hlen|]. split; [exact Hh|].
  split; [intros j q; apply primitive_poses_step|].
  apply substeps_true in Hsub as [Hlt Hexit].
  pose proof (Next_node_loop_spec cfg d steering n fuel 0
                (Node3d.GetX current) (Node3d.GetY current)
                (Node3d.GetPhi current) [Node3d.GetX current]
                [Node3d.GetY current] [Node3d.GetPhi current]
                Hlt Hexit Hfuel ltac:(lia)) as Hloop.
  fold (node_pose current) in Hloop. fold ps in Hloop.
  assert (Hps : ps = node_pose current :: tail ps)
    by (destruct ps; [discriminate|injection Hh as ->; reflexivity]).
  assert (Hx : [Node3d.GetX current] ++
               map (fun q : float * float * float => q.1.1) (tail ps)
               = map (fun q => q.1.1) ps)
    by (rewrite Hps at 2; reflexivity).
  assert (Hy : [Node3d.GetY current] ++
               map (fun q : float * float * float => q.1.2) (tail ps)
               = map (fun q => q.1.2) ps)
    by (rewrite Hps at 2; reflexivity).
  assert (Hphi : [Node3d.GetPhi current] ++
                 map (snd : float * float * float -> float) (tail ps)
                 = map snd ps)
    by (rewrite Hps at 2; reflexivity).
  rewrite Hx, Hy, Hphi in Hloop.
  rewrite (Next_node_generator_after_loop fuel cfg self current k steering d
             _ _ _ xmin xmax ymin ymax xf yf phif HXY Hchoice Hloop);
    rewrite ?last_map, ?Hl, ?length_map; try reflexivity.
  unfold vsize. rewrite length_map, Hlen. reflexivity.
Qed.

End Primitive.

(** C3 fails as stated: with unit resolution and unit step the quotient is
    sqrt 2, whose floor is 1, so the claimed length is 2; but a generated
    node always has 3 poses (two substeps), and one is generated. *)
Lemma Next_node_generator_rounds_up :
  floor_Z (arc_length unit_config / step_size_ unit_config) = 1%Z /\
  (forall (E' : Externals) (dp : @DpMap E') (current : Node3d.t) (k : Z),
     Next_node_generator 3 unit_config (one_vertex_world dp) current k
     = Done None \/
     exists node,
       Next_node_generator 3 unit_config (one_vertex_world dp) current k
       = Done (Some node) /\
       length (Node3d.GetXs node) = 3%nat) /\
  (exists node,
     @Next_node_generator Demo.world 3 unit_config Demo.fenced Demo.hop 0
     = Done (Some node)).
Proof.
  split; [reflexivity|]. split.
  - intros E' dp current k.
    destruct (primitive_choice unit_config k) as [st d] eqn:Hc.
    pose proof (Next_node_loop_spec unit_config d st 2 3 0
                  (Node3d.GetX current) (Node3d.GetY current)
                  (Node3d.GetPhi current) [Node3d.GetX current]
                  [Node3d.GetY current] [Node3d.GetPhi current]) as Hloop.
    destruct (substeps_true unit_config 2 eq_refl) as [Hlt Hexit].
    specialize (Hloop Hlt Hexit ltac:(lia) ltac:(unfold SIZE_MOD; lia)).
    cbn [primitive_poses tail map app fst snd] in Hloop.
    rewrite (Next_node_generator_after_loop 3 unit_config
               (one_vertex_world dp) current k st d _ _ _ (-10) 10 (-10) 10
               _ _ _ eq_refl Hc Hloop eq_refl eq_refl eq_refl eq_refl
               eq_refl).
    destruct (InXYbounds _ _ _ _ _ _); [right|left; reflexivity].
    eexists. split; reflexivity.
  - eexists. vm_compute. reflexivity.
Qed.


(** The number of substeps against the floor and the ceiling of the
    quotient, for the two configurations used here. *)
Example substeps_examples :
  substeps unit_config 2 = true /\
  floor_Z (arc_length unit_config / step_size_ unit_config) = 1%Z /\
  ceil_Z (arc_length unit_config / step_size_ unit_config) = 2%Z /\
  substeps Demo.config 1 = true /\
  floor_Z (arc_length Demo.config / step_size_ Demo.config) = 0%Z /\
  ceil_Z (arc_length Demo.config / step_size_ Demo.config) = 1%Z.
Proof. repeat split; reflexivity. Qed.


(** Primitive 0 from [hop] in the demo configuration: one substep, two
    poses. *)
Lemma Next_node_generator_substeps_witness :
  XYbounds_ Demo.fenced = [-10; 10; -10; 10]%float /\
  substeps Demo.config 1 = true /\
  primitive_choice Demo.config 0 = Demo.hop_choice /\
  length (Node3d.GetXs Demo.hop) = 2%nat /\
  exists node,
    @Next_node_generator Demo.world 5 Demo.config Demo.fenced Demo.hop 0
    = Done (Some node) /\
    length (Node3d.GetXs node) = 2%nat.
Proof.
  split; [reflexivity|]. split; [reflexivity|]. split; [reflexivity|].
  split; [reflexivity|].
  destruct (@Next_node_generator_substeps Demo.world 5 Demo.config
              Demo.fenced Demo.hop 0 1 Demo.hop_choice.1 Demo.hop_choice.2
              (-10) 10 (-10) 10
              Demo.hop_end.1.1 Demo.hop_end.1.2 Demo.hop_end.2
              eq_refl eq_refl ltac:(lia) ltac:(unfold SIZE_MOD; lia)
              eq_refl eq_refl) as (_ & _ & _ & H).
  eexists. split; [exact H|reflexivity].
Defined.


(** ** The finite-difference speed profile *)

Section SpeedProfile.
Context `{E : Externals}.

Lemma discrete_v_at_spec cfg result (i : nat) :
  length (r_y result) = length (r_x result) ->
  length (r_phi result) = length (r_x result) ->
  (S i < length (r_x result))%nat ->
  discrete_v_at cfg result (Z.of_nat i) =
  Done (discrete_v cfg (r_x result) (r_y result) (r_phi result) i).
Proof.
  intros Hy Hphi Hi. unfold discrete_v_at.
  replace (Z.of_nat i + 1)%Z with (Z.of_nat (S i)) by lia.
  rewrite !vec_at_nth by lia. reflexivity.
Qed.

Lemma load_velocity_spec cfg result (i : nat) :
  length (r_y result) = length (r_x result) ->
  length (r_phi result) = length (r_x result) ->
  (S i < length (r_x result))%nat ->
  load_velocity cfg (Z.of_nat i) result =
  Done (set_v (r_v result ++
               [discrete_v cfg (r_x result) (r_y result) (r_phi result) i])
          result).
Proof.
  intros Hy Hphi Hi. unfold load_velocity.
  rewrite discrete_v_at_spec by lia. reflexivity.
Qed.

Lemma load_acceleration_spec cfg result (i : nat) :
  (S i < length (r_v result))%nat ->
  load_acceleration cfg (Z.of_nat i) result =
  Done (set_a (r_a result ++ [discrete_a cfg (r_v result) i]) result).
Proof.
  intros Hi. unfold load_acceleration.
  replace (Z.of_nat i + 1)%Z with (Z.of_nat (S i)) by lia.
  rewrite !vec_at_nth by lia. reflexivity.
Qed.

Lemma load_steering_spec cfg result (i : nat) :
  (S i < length (r_phi result))%nat ->
  (i < length (r_v result))%nat ->
  load_steering cfg (Z.of_nat i) result =
  Done (set_steer (r_steer result ++
                   [discrete_steer cfg (r_phi result) (r_v result) i])
          result).
Proof.
  intros Hi Hv. unfold load_steering.
  replace (Z.of_nat i + 1)%Z with (Z.of_nat (S i)) by lia.
  rewrite !vec_at_nth by lia. reflexivity.
Qed.

Lemma load_velocity_loop cfg k : forall i result,
  length (r_y result) = length (r_x result) ->
  length (r_phi result) = length (r_x result) ->
  (i + k < length (r_x result))%nat ->
  for_loop k (Z.of_nat i) (load_velocity cfg) result =
  Done (set_v (r_v result ++
               map (discrete_v cfg (r_x result) (r_y result) (r_phi result))
                 (seq i k)) result).
Proof.
  induction k as [|k IH]; intros i result Hy Hphi Hi.
  - cbn. rewrite app_nil_r. destruct result; reflexivity.
  - rewrite for_loop_S, load_velocity_spec by lia. cbn [mbind res_bind].
    replace (Z.of_nat i + 1)%Z with (Z.of_nat (S i)) by lia.
    rewrite IH by (cbn; lia). cbn [seq map set_v r_x r_y r_phi r_v r_a
      r_steer r_accumulated_s].
    rewrite <- app_assoc. reflexivity.
Qed.

Lemma load_acceleration_loop cfg k : forall i result,
  (i + k < length (r_v result))%nat ->
  for_loop k (Z.of_nat i) (load_acceleration cfg) result =
  Done (set_a (r_a result ++ map (discrete_a cfg (r_v result)) (seq i k))
          result).
Proof.
  induction k as [|k IH]; intros i result Hi.
  - cbn. rewrite app_nil_r. destruct result; reflexivity.
  - rewrite for_loop_S, load_acceleration_spec by lia.
    cbn [mbind res_bind].
    replace (Z.of_nat i + 1)%Z with (Z.of_nat (S i)) by lia.
    rewrite IH by (cbn; lia). cbn [seq map set_a r_x r_y r_phi r_v r_a
      r_steer r_accumulated_s].
    rewrite <- app_assoc. reflexivity.
Qed.

Lemma load_steering_loop cfg k : forall i result,
  (i + k < length (r_phi result))%nat ->
  (i + k <= length (r_v result))%nat ->
  for_loop k (Z.of_nat i) (load_steering cfg) result =
  Done (set_steer (r_steer result ++
                   map (discrete_steer cfg (r_phi result) (r_v result))
                     (seq i k)) result).
Proof.
  induction k as [|k IH]; intros i result Hi Hv.
  - cbn. rewrite app_nil_r. destruct result; reflexivity.
  - rewrite for_loop_S, load_steering_spec by lia.
    cbn [mbind res_bind].
    replace (Z.of_nat i + 1)%Z with (Z.of_nat (S i)) by lia.
    rewrite IH by (cbn; lia). cbn [seq map set_steer r_x r_y r_phi r_v r_a
      r_steer r_accumulated_s].
    rewrite <- app_assoc. reflexivity.
Qed.

(** C7, as the code has it: on a path of N >= 2 poses (three sequences of
    the same length) and output vectors v, a and steer that are empty on
    entry (the profiler appends to them and clears nothing), the
    finite-difference profiler returns true
    with v[i] = ((x[i+1]-x[i])/dt) cos(phi[i]) + ((y[i+1]-y[i])/dt) sin(phi[i])
    for i < N-1 and v[N-1] = 0, a[i] = (v[i+1]-v[i])/dt, the steering of
    lines 317-326, |v| = |x| and |a| = |steer| = |x| - 1; the size checks
    at the end of GetResult pass. *)
Theorem GenerateSpeedAcceleration_profile cfg result :
  r_v result = [] -> r_a result = [] -> r_steer result = [] ->
  length (r_y result) = length (r_x result) ->
  length (r_phi result) = length (r_x result) ->
  (2 <= length (r_x result))%nat ->
  let N := length (r_x result) in
  let v :=
    map (discrete_v cfg (r_x result) (r_y result) (r_phi result))
      (seq 0 (N - 1)) ++ [0%float] in
  let a := map (discrete_a cfg v) (seq 0 (N - 1)) in
  let steer := map (discrete_steer cfg (r_phi result) v) (seq 0 (N - 1)) in
  let result' := set_steer steer (set_a a (set_v v result)) in
  GenerateSpeedAcceleration cfg result = Done (true, result') /\
  (forall i, (i < N - 1)%nat ->
     v !! i = Some (discrete_v cfg (r_x result) (r_y result) (r_phi result) i)) /\
  v !! (N - 1)%nat = Some 0%float /\
  (forall i, (i < N - 1)%nat -> a !! i = Some (discrete_a cfg v i)) /\
  length v = N /\ length a = (N - 1)%nat /\ length steer = (N - 1)%nat /\
  result_sizes_ok result' = true.
Proof.
  intros Hv Ha Hs Hy Hphi HN N v a steer result'.
  assert (Hlv : length v = N).
  { unfold v. rewrite length_app, length_map, length_seq. cbn. lia. }
  assert (Hla : length a = (N - 1)%nat)
    by (unfold a; rewrite length_map, length_seq; reflexivity).
  assert (Hls : length steer = (N - 1)%nat)
    by (unfold steer; rewrite length_map, length_seq; reflexivity).
  split; [|repeat split; try assumption].
  - unfold GenerateSpeedAcceleration, vsize. rewrite Hy, Hphi.
    destruct (Z.ltb_spec (Z.of_nat (length (r_x result))) 2); [lia|].
    cbn [orb]. unfold pairs_count.
    replace (Z.to_nat (Z.of_nat (length (r_x result)) - 1)) with (N - 1)%nat
      by lia.
    rewrite (load_velocity_loop cfg (N - 1) 0) by (fold N; lia).
    cbn [mbind res_bind]. rewrite Hv. cbn [app].
    rewrite (load_acceleration_loop cfg (N - 1) 0)
      by (cbn; fold v; rewrite Hlv; lia).
    cbn [mbind res_bind].
    rewrite (load_steering_loop cfg (N - 1) 0)
      by (cbn; fold v; rewrite ?Hlv; lia).
    cbn. rewrite Ha, Hs. reflexivity.
  - intros i Hi. unfold v. rewrite lookup_app_l
      by (rewrite length_map, length_seq; lia).
    rewrite list_lookup_fmap, lookup_seq_lt by lia. reflexivity.
  - unfold v. rewrite lookup_app_r by (rewrite length_map, length_seq; lia).
    rewrite length_map, length_seq, Nat.sub_diag. reflexivity.
  - intros i Hi. unfold a.
    rewrite list_lookup_fmap, lookup_seq_lt by lia. reflexivity.
  - subst result'. unfold result_sizes_ok, vsize.
    cbn [set_steer set_a set_v r_x r_y r_phi r_v r_a r_steer]. rewrite Hy, Hphi, Hlv, Hla, Hls. fold N.
    rewrite !Z.eqb_refl. cbn [negb orb andb].
    unfold size_sub, size_wrap, SIZE_MOD.
    replace (Z.of_nat N - Z.of_nat (N - 1))%Z with 1%Z by lia. reflexivity.
Qed.

End SpeedProfile.

(** The profile of the two-pose path from (0, 0) to (5, 0). *)
Lemma GenerateSpeedAcceleration_profile_witness :
  r_v Demo.straight = [] /\
  length (r_y Demo.straight) = length (r_x Demo.straight) /\
  (2 <= length (r_x Demo.straight))%nat /\
  @GenerateSpeedAcceleration Demo.world Demo.config Demo.straight =
  Done (true,
        Build_HybridAStartResult [0; 5]%float [0; 0]%float [0; 0]%float
          [10; 0]%float [-20]%float [0]%float []).
Proof.
  split; [reflexivity|]. split; [reflexivity|]. split; [simpl; lia|].
  exact (proj1 (@GenerateSpeedAcceleration_profile Demo.world Demo.config
                  Demo.straight eq_refl eq_refl eq_refl eq_refl eq_refl
                  ltac:(simpl; lia))).
Defined.

(** C7 fails as stated: the same two-pose path with one velocity already
    in v. The profiler appends: v becomes [7; 10; 0], so v[0] is not the
    finite difference 10, v[N-1] = v[1] is not 0 and |v| = 3 is not
    |x| = 2; the size check of GetResult fails. [Plan] clears nothing
    either: the call that returns true on an empty result returns false
    on a result that holds one velocity. *)
Lemma GenerateSpeedAcceleration_appends_to_result :
  (2 <= length (r_x Demo.reused))%nat /\
  @discrete_v Demo.world Demo.config (r_x Demo.reused) (r_y Demo.reused)
    (r_phi Demo.reused) 0 = 10%float /\
  @GenerateSpeedAcceleration Demo.world Demo.config Demo.reused =
  Done (true,
        Build_HybridAStartResult [0; 5]%float [0; 0]%float [0; 0]%float
          [7; 10; 0]%float [6]%float [0]%float []) /\
  result_sizes_ok
    (Build_HybridAStartResult [0; 5]%float [0; 0]%float [0; 0]%float
       [7; 10; 0]%float [6]%float [0]%float []) = false /\
  match @Plan Demo.world 5 5 Demo.config Demo.blank 0 0 0 5 0 0 Demo.bounds []
          Demo.no_result with
  | Done (ok, _, r) => ok && (length (r_v r) =? length (r_x r))%nat
  | _ => false
  end = true /\
  match @Plan Demo.world 5 5 Demo.config Demo.blank 0 0 0 5 0 0 Demo.bounds []
          Demo.reused_empty_path with
  | Done (ok, _, r) =>
      negb ok && (length (r_x r) =? 2)%nat && (length (r_v r) =? 3)%nat
  | _ => false
  end = true.
Proof. repeat split; vm_compute; try reflexivity; lia. Qed.


(** ** Path reconstruction *)

Lemma chain_path_head rep sq n :
  linked n -> head (chain_path rep sq n) = Some (rep (chain_root n)).
Proof.
  induction 1 as [n Hpre|n p Hpre _ IH _ _ _ _];
    unfold Node3d.GetPreNode in Hpre;
    destruct n; cbn in Hpre |- *; rewrite Hpre; [reflexivity|].
  destruct (chain_path rep sq p); [discriminate|exact IH].
Qed.

Lemma GetResult_walk_linked n :
  linked n ->
  forall hx hy hphi,
    GetResult_walk n hx hy hphi =
    Some (chain_root n,
          hx ++ rev (tail (chain_path Node3d.GetX Node3d.GetXs n)),
          hy ++ rev (tail (chain_path Node3d.GetY Node3d.GetYs n)),
          hphi ++ rev (tail (chain_path Node3d.GetPhi Node3d.GetPhis n))).
Proof.
  induction 1 as [n Hpre|n p Hpre Hp IH Hwf _ _ _]; intros hx hy hphi;
    unfold Node3d.GetPreNode in Hpre.
  - destruct n; cbn in Hpre |- *. rewrite Hpre. cbn.
    rewrite !app_nil_r. reflexivity.
  - pose proof (chain_path_head Node3d.GetX Node3d.GetXs p Hp) as Hx.
    pose proof (chain_path_head Node3d.GetY Node3d.GetYs p Hp) as Hy.
    pose proof (chain_path_head Node3d.GetPhi Node3d.GetPhis p Hp) as Hphi.
    destruct Hwf as [Hly Hlphi Hne _ _ _ _ _].
    destruct n as [xs ys phis x y phi st idx tc hc sg dr pre].
    cbn in Hpre, Hly, Hlphi, Hne |- *. subst pre.
    destruct xs as [|x0 xs]; [simpl in Hne; lia|].
    destruct ys as [|y0 ys]; [discriminate|].
    destruct phis as [|phi0 phis]; [discriminate|].
    rewrite IH.
    rewrite !(removelast_rev (_ :: _)). cbn [tail].
    destruct (chain_path Node3d.GetX Node3d.GetXs p); [discriminate|].
    destruct (chain_path Node3d.GetY Node3d.GetYs p); [discriminate|].
    destruct (chain_path Node3d.GetPhi Node3d.GetPhis p); [discriminate|].
    cbn [tail app]. rewrite !rev_app_distr, <- !app_assoc. reflexivity.
Qed.

Lemma chain_path_last n :
  linked n ->
  last (chain_path Node3d.GetX Node3d.GetXs n) = Some (Node3d.GetX n) /\
  last (chain_path Node3d.GetY Node3d.GetYs n) = Some (Node3d.GetY n) /\
  last (chain_path Node3d.GetPhi Node3d.GetPhis n) = Some (Node3d.GetPhi n).
Proof.
  induction 1 as [n Hpre|n p Hpre _ (IHx & IHy & IHphi) Hwf Hx Hy Hphi];
    unfold Node3d.GetPreNode in Hpre.
  - destruct n; cbn in Hpre |- *. rewrite Hpre. done.
  - destruct Hwf as [_ _ _ _ _ Hlx Hly Hlphi].
    destruct n as [xs ys phis x y phi st idx tc hc sg dr pre].
    cbn in Hpre, Hx, Hy, Hphi, Hlx, Hly, Hlphi |- *. subst pre.
    repeat split; eapply last_glue; eassumption.
Qed.

(** C8: for a final node whose parent chain is linked (it ends at the start
    node; every later node begins at the pose its parent ends at),
    the reconstruction returns the pose of the start node followed by the
    poses of every later node without its first, shared pose: start to goal,
    each shared pose once, first pose the start pose, last pose the terminal
    pose of the final node. *)
Theorem GetResult_path_linked final :
  linked final ->
  GetResult_path final =
  Some (chain_path Node3d.GetX Node3d.GetXs final,
        chain_path Node3d.GetY Node3d.GetYs final,
        chain_path Node3d.GetPhi Node3d.GetPhis final) /\
  (head (chain_path Node3d.GetX Node3d.GetXs final),
   head (chain_path Node3d.GetY Node3d.GetYs final),
   head (chain_path Node3d.GetPhi Node3d.GetPhis final)) =
  (Some (Node3d.GetX (chain_root final)), Some (Node3d.GetY (chain_root final)),
   Some (Node3d.GetPhi (chain_root final))) /\
  (last (chain_path Node3d.GetX Node3d.GetXs final),
   last (chain_path Node3d.GetY Node3d.GetYs final),
   last (chain_path Node3d.GetPhi Node3d.GetPhis final)) =
  (Some (Node3d.GetX final), Some (Node3d.GetY final),
   Some (Node3d.GetPhi final)).
Proof.
  intros Hl.
  pose proof (chain_path_head Node3d.GetX Node3d.GetXs final Hl) as Hx.
  pose proof (chain_path_head Node3d.GetY Node3d.GetYs final Hl) as Hy.
  pose proof (chain_path_head Node3d.GetPhi Node3d.GetPhis final Hl) as Hphi.
  destruct (chain_path_last final Hl) as (Lx & Ly & Lphi).
  split; [|split; congruence].
  unfold GetResult_path. rewrite (GetResult_walk_linked final Hl).
  cbn [app]. rewrite !rev_app_distr, !rev_involutive. cbn [rev app].
  destruct (chain_path Node3d.GetX Node3d.GetXs final); [discriminate|].
  destruct (chain_path Node3d.GetY Node3d.GetYs final); [discriminate|].
  destruct (chain_path Node3d.GetPhi Node3d.GetPhis final); [discriminate|].
  cbn in Hx, Hy, Hphi |- *. congruence.
Qed.

(** The path of the three-node chain of the demo world. *)
Lemma GetResult_path_linked_witness :
  linked Demo.chain_final /\
  GetResult_path Demo.chain_final =
  Some ([0; 0.5; 2; 5]%float, [0; 0; 0; 0]%float, [0; 0; 0; 0]%float).
Proof.
  assert (Hwf : forall xs ys phis x y phi n idx tc hc sg dr pre,
            length ys = length xs -> length phis = length xs ->
            (1 <= length xs)%nat -> (vsize xs < SIZE_MOD)%Z ->
            n = vsize xs -> last xs = Some x -> last ys = Some y ->
            last phis = Some phi ->
            Node3d.wf (Node3d.Build xs ys phis x y phi n idx tc hc sg dr pre))
    by (intros; constructor; assumption).
  assert (Hl : linked Demo.chain_final).
  { eapply linked_edge; [reflexivity| |apply Hwf|..]; try reflexivity;
      try (cbn; lia); try (unfold vsize, SIZE_MOD; cbn; lia).
    eapply linked_edge; [reflexivity| |apply Hwf|..]; try reflexivity;
      try (cbn; lia); try (unfold vsize, SIZE_MOD; cbn; lia).
    apply linked_root. reflexivity. }
  split; [exact Hl|].
  exact (proj1 (GetResult_path_linked Demo.chain_final Hl)).
Defined.


(** ** The obstacle segments built by Plan *)

Lemma build_segment_loop (vs : list Vec2d) (d : Vec2d) k : forall i acc,
  (i + k < length vs)%nat ->
  for_loop k (Z.of_nat i) (build_segment vs) acc =
  Done (acc ++ map (fun j => {| seg_start := nth j vs d;
                                seg_end := nth (S j) vs d |}) (seq i k)).
Proof.
  induction k as [|k IH]; intros i acc Hi.
  - cbn. rewrite app_nil_r. reflexivity.
  - destruct (lookup_lt_is_Some_2 vs i ltac:(lia)) as [a Ha].
    destruct (lookup_lt_is_Some_2 vs (S i) ltac:(lia)) as [b Hb].
    assert (Hstep : build_segment vs (Z.of_nat i) acc =
                    Done (acc ++ [{| seg_start := a; seg_end := b |}])).
    { unfold build_segment.
      replace (Z.of_nat i + 1)%Z with (Z.of_nat (S i)) by lia.
      rewrite (vec_at_lookup _ _ _ Ha), (vec_at_lookup _ _ _ Hb).
      reflexivity. }
    rewrite for_loop_S, Hstep. cbn [mbind res_bind].
    replace (Z.of_nat i + 1)%Z with (Z.of_nat (S i)) by lia.
    rewrite IH by lia. cbn [seq map].
    rewrite (nth_lookup_Some _ _ d _ Ha), (nth_lookup_Some _ _ d _ Hb).
    rewrite <- app_assoc. reflexivity.
Qed.

(** For an obstacle with n >= 1 vertices the loop builds the n - 1 segments
    between successive vertices and no closing edge. *)
Lemma obstacle_segments_polyline (vs : list Vec2d) (d : Vec2d) :
  (1 <= length vs)%nat -> (vsize vs < SIZE_MOD)%Z ->
  obstacle_segments vs =
  Done (map (fun j => {| seg_start := nth j vs d; seg_end := nth (S j) vs d |})
          (seq 0 (length vs - 1))).
Proof.
  intros Hn Hs. unfold obstacle_segments, size_sub, size_wrap, vsize in *.
  rewrite Z.mod_small by lia.
  replace (Z.to_nat (Z.of_nat (length vs) - 1)) with (length vs - 1)%nat
    by lia.
  rewrite (build_segment_loop vs d (length vs - 1) 0) by lia. reflexivity.
Qed.

Lemma obstacle_segments_no_vertex : obstacle_segments [] = Undefined.
Proof.
  unfold obstacle_segments.
  change (size_sub (vsize (@nil Vec2d)) 1) with 18446744073709551615%Z.
  replace (Z.to_nat 18446744073709551615)
    with (S (Z.to_nat 18446744073709551614)) by lia.
  reflexivity.
Qed.

Section Segments.
Context `{E : Externals}.

(** C9 at the failing input: when one obstacle has an empty vertex list,
    [vertices_num - 1] wraps to 2^64 - 1 and the first round of the loop
    reads [obstacle_vertices[0]] of an empty vector, so [Plan] has no
    defined result. *)
Theorem Plan_obstacle_without_vertices rounds fuel cfg self
    sx sy sphi ex ey ephi XYbounds result :
  Plan rounds fuel cfg self sx sy sphi ex ey ephi XYbounds [[]] result
  = Undefined.
Proof.
  unfold Plan, Plan_setup. cbn [for_each].
  rewrite obstacle_segments_no_vertex. reflexivity.
Qed.

End Segments.


(** ** The s-curve speed profile *)

Lemma min_element_from_lt v : forall bi b i,
  (bi < i)%nat -> (min_element_from bi b i v < i + length v)%nat.
Proof.
  induction v as [|a v IH]; intros bi b i Hb; cbn [min_element_from length].
  - lia.
  - destruct (flt a b).
    + specialize (IH i a (S i) ltac:(lia)). lia.
    + specialize (IH bi b (S i) ltac:(lia)). lia.
Qed.

Lemma min_element_lt v k : min_element v = Some k -> (k < length v)%nat.
Proof.
  destruct v as [|a v]; [discriminate|]. intros [= <-].
  pose proof (min_element_from_lt v 0 a 1 ltac:(lia)). simpl. lia.
Qed.

Lemma max_element_from_lt v : forall bi b i,
  (bi < i)%nat -> (max_element_from bi b i v < i + length v)%nat.
Proof.
  induction v as [|a v IH]; intros bi b i Hb; cbn [max_element_from length].
  - lia.
  - destruct (flt b a).
    + specialize (IH i a (S i) ltac:(lia)). lia.
    + specialize (IH bi b (S i) ltac:(lia)). lia.
Qed.

Lemma deref_min_defined v : v <> [] -> exists a, deref_min v = Done a.
Proof.
  intros Hv. unfold deref_min. destruct (min_element v) as [k|] eqn:Hk.
  - apply min_element_lt in Hk. rewrite vec_at_nth by exact Hk. eauto.
  - destruct v; [done|discriminate].
Qed.

Lemma deref_max_defined v : v <> [] -> exists a, deref_max v = Done a.
Proof.
  intros Hv. unfold deref_max. destruct v as [|a v]; [done|].
  cbn [max_element].
  pose proof (max_element_from_lt v 0 a 1 ltac:(lia)).
  rewrite vec_at_nth by (simpl; lia). eauto.
Qed.

(** The iterator ten places before the minimum lies before [begin()]
    whenever the vector has at most ten elements. *)
Lemma first_order_lower_bound_short v :
  (length v <= 10)%nat -> first_order_lower_bound v = Undefined.
Proof.
  intros Hv. unfold first_order_lower_bound.
  destruct (min_element v) as [k|] eqn:Hk; [|reflexivity].
  apply min_element_lt in Hk. unfold vec_at.
  destruct (Z.ltb_spec (Z.of_nat k - 10) 0); [reflexivity|lia].
Qed.

(** From the eleventh element on, the value read is the element ten places
    before the minimum, not the minimum less ten. *)
Lemma first_order_lower_bound_long v k :
  min_element v = Some k -> (10 <= k)%nat ->
  first_order_lower_bound v = Done (nth (k - 10) v 0%float).
Proof.
  intros Hk H10. unfold first_order_lower_bound. rewrite Hk.
  apply min_element_lt in Hk.
  replace (Z.of_nat k - 10)%Z with (Z.of_nat (k - 10)) by lia.
  apply vec_at_nth. lia.
Qed.


(** Eleven velocities with the minimum last: the value read is the first
    element, 3, where min(v) - 10 is -11. *)
Example first_order_lower_bound_eleven :
  first_order_lower_bound [3; 0; 0; 0; 0; 0; 0; 0; 0; 0; -1]%float
  = Done 3%float.
Proof. reflexivity. Qed.


Section SCurve.
Context `{E : Externals}.

Lemma load_reference_loop cfg k : forall i acc result,
  length (r_y result) = length (r_x result) ->
  length (r_phi result) = length (r_x result) ->
  (i + k < length (r_x result))%nat ->
  exists acc' V S,
    for_loop k (Z.of_nat i) (load_reference cfg) (acc, result) =
    Done (acc', set_accumulated_s (r_accumulated_s result ++ S)
                  (set_v (r_v result ++ V) result)) /\
    length V = k /\ length S = k.
Proof.
  induction k as [|k IH]; intros i acc result Hy Hphi Hi.
  - exists acc, [], []. cbn. rewrite !app_nil_r.
    destruct result; repeat split.
  - assert (Hstep : load_reference cfg (Z.of_nat i) (acc, result) =
      Done ((acc + discrete_v cfg (r_x result) (r_y result) (r_phi result) i
                   * delta_t_ cfg)%float,
            set_accumulated_s
              (r_accumulated_s result ++
               [(acc + discrete_v cfg (r_x result) (r_y result)
                         (r_phi result) i * delta_t_ cfg)%float])
              (set_v (r_v result ++
                      [discrete_v cfg (r_x result) (r_y result)
                         (r_phi result) i]) result))).
    { unfold load_reference. rewrite discrete_v_at_spec by lia. reflexivity. }
    rewrite for_loop_S, Hstep. cbn [mbind res_bind].
    replace (Z.of_nat i + 1)%Z with (Z.of_nat (S i)) by lia.
    edestruct (IH (S i)) as (acc' & V & S & -> & HV & HS);
      [| |shelve|]; [exact Hy|exact Hphi|].
    eexists acc', (_ :: V), (_ :: S).
    cbn [set_accumulated_s set_v r_x r_y r_phi r_v r_a r_steer
         r_accumulated_s length].
    rewrite <- !app_assoc. cbn [app]. repeat split; lia.
    Unshelve. cbn. lia.
Qed.

(** C2 at the failing inputs: for every path of 2 to 10 poses (with empty
    output vectors), setting up the s-curve problem dereferences the
    iterator ten places before the minimum of [v], which is before the
    start of the vector; the profile has no defined result. The lower
    first-order bound is never min(v) - 10. *)
Theorem GenerateSCurveSpeedAcceleration_short_path cfg result :
  r_v result = [] -> r_accumulated_s result = [] ->
  length (r_y result) = length (r_x result) ->
  length (r_phi result) = length (r_x result) ->
  (2 <= length (r_x result) <= 10)%nat ->
  GenerateSCurveSpeedAcceleration cfg result = Undefined.
Proof.
  intros Hv Hs Hy Hphi HN.
  unfold GenerateSCurveSpeedAcceleration, vsize. rewrite Hy, Hphi.
  destruct (Z.ltb_spec (Z.of_nat (length (r_x result))) 2); [lia|].
  cbn [orb]. unfold SCurveProblem, pairs_count, vsize.
  set (N := length (r_x result)) in *.
  replace (Z.to_nat (Z.of_nat N - 1)) with (N - 1)%nat by lia.
  edestruct (load_reference_loop cfg (N - 1) 0 0%float) as
    (acc' & V & S & -> & HV & HS); [| |shelve|]; [exact Hy|exact Hphi|].
  cbn [mbind res_bind set_accumulated_s set_v r_x r_y r_phi r_v r_a r_steer
       r_accumulated_s].
  rewrite Hv, Hs. cbn [app].
  assert (HlV : length (0%float :: V) = N) by (cbn; lia).
  assert (HlS : length (0%float :: S) = N) by (cbn; lia).
  unfold vec_set.
  destruct (Z.ltb_spec (Z.of_nat N - 1) 0); [lia|].
  destruct (Nat.ltb_spec (Z.to_nat (Z.of_nat N - 1)) (length (0%float :: V)));
    [|lia].
  cbn [mbind res_bind set_accumulated_s set_v r_x r_y r_phi r_v r_a r_steer
       r_accumulated_s].
  set (v := <[Z.to_nat (Z.of_nat N - 1) := 0%float]> (0%float :: V)).
  assert (Hlv : length v = N) by (unfold v; rewrite length_insert; exact HlV).
  change 0%Z with (Z.of_nat 0). change 1%Z with (Z.of_nat 1).
  rewrite !vec_at_nth by lia.
  replace (Z.of_nat N - Z.of_nat 1)%Z with (Z.of_nat (N - 1)) by lia.
  rewrite vec_at_nth by lia.
  cbn [mbind res_bind].
  destruct (deref_min_defined (0%float :: S) ltac:(discriminate)) as [a ->].
  destruct (deref_max_defined (0%float :: S) ltac:(discriminate)) as [b ->].
  cbn [mbind res_bind].
  rewrite first_order_lower_bound_short by lia. reflexivity.
  Unshelve. cbn. fold N. lia.
Qed.

End SCurve.

(** The two-pose path from (0, 0) to (5, 0). *)
Lemma GenerateSCurveSpeedAcceleration_short_path_witness :
  r_v Demo.straight = [] /\
  (2 <= length (r_x Demo.straight) <= 10)%nat /\
  @GenerateSCurveSpeedAcceleration Demo.world Demo.config Demo.straight
  = Undefined.
Proof.
  split; [reflexivity|]. split; [simpl; lia|].
  exact (@GenerateSCurveSpeedAcceleration_short_path Demo.world Demo.config
           Demo.straight eq_refl eq_refl eq_refl eq_refl ltac:(simpl; lia)).
Defined.


(** ** The search loop *)

Lemma pq_top_Some q id c :
  pq_top q = Some (id, c) ->
  exists k, pq_top_index q = Some k /\ q !! k = Some (id, c) /\
            pq_pop q = delete k q.
Proof.
  unfold pq_top, pq_pop. destruct (pq_top_index q) as [k|]; [|discriminate].
  cbn. intros Hk. exists k. done.
Qed.

Lemma pq_top_in_queue q id c :
  pq_top q = Some (id, c) -> id ∈ map fst q.
Proof.
  intros Htop. destruct (pq_top_Some _ _ _ Htop) as (k & _ & Hk & _).
  apply list_elem_of_In, in_map_iff. exists (id, c). split; [reflexivity|].
  apply list_elem_of_In. eapply list_elem_of_lookup_2. exact Hk.
Qed.

Section Search.
Context `{E : Externals}.

Lemma AnalyticExpansion_false self node self' :
  AnalyticExpansion self node = Done (false, self') -> self' = self.
Proof.
  unfold AnalyticExpansion.
  destruct (end_node_ self); [|discriminate].
  destruct (ShortestRSP _ _); [|congruence].
  destruct (RSPCheck self _) as [[]| |]; cbn; try discriminate;
    [|congruence].
  destruct (LoadRSPinCS _ _ _) as [[]| |]; cbn; discriminate.
Qed.

Lemma CalculateNodeCost_index cfg self current next :
  Node3d.GetIndex (CalculateNodeCost cfg self current next)
  = Node3d.GetIndex next.
Proof. reflexivity. Qed.

Lemma Plan_setup_inv self sx sy sphi ex ey ephi XYbounds obstacles s0 :
  Plan_setup self sx sy sphi ex ey ephi XYbounds obstacles = Done (true, s0) ->
  Plan_inv s0.
Proof.
  unfold Plan_setup.
  destruct (for_each obstacle_segments obstacles) as [segs| |];
    try discriminate.
  cbn [mbind res_bind Node3d.make length Nat.eqb andb negb vec_back last].
  set (start := Node3d.Build _ _ _ _ _ _ _ _ _ _ _ _ _).
  set (goal := Node3d.Build _ _ _ _ _ _ _ _ _ _ _ _ _).
  destruct (ValidityCheck _ start) as [[]| |]; try discriminate.
  cbn [mbind res_bind negb].
  destruct (ValidityCheck _ goal) as [[]| |]; try discriminate.
  cbn [mbind res_bind negb]. intros [= <-].
  constructor; cbn.
  - apply NoDup_singleton.
  - intros id. unfold umap_insert. rewrite lookup_empty.
    rewrite list_elem_of_singleton.
    destruct (decide (Node3d.GetIndex start = id)) as [<-|Hne].
    + rewrite lookup_insert_eq. split; eauto.
    + rewrite lookup_insert_ne by done. rewrite lookup_empty.
      split; [intros []; discriminate|intros ->; done].
  - reflexivity.
  - intros id []. rewrite lookup_empty in *. discriminate.
  - intros id n. unfold umap_insert. rewrite lookup_empty.
    destruct (decide (Node3d.GetIndex start = id)) as [<-|Hne].
    + rewrite lookup_insert_eq. congruence.
    + rewrite lookup_insert_ne by done. rewrite lookup_empty. discriminate.
Qed.

Lemma Plan_successor_inv fuel cfg current i s s' :
  Plan_inv s -> Plan_successor fuel cfg current i s = Done s' -> Plan_inv s'.
Proof.
  intros Hinv. unfold Plan_successor.
  destruct (Next_node_generator fuel cfg s current i) as [[next|]| |];
    cbn [mbind res_bind]; try discriminate; [|congruence].
  destruct (close_set_ s !! Node3d.GetIndex next); [congruence|].
  destruct (ValidityCheck s next) as [[]| |]; cbn [mbind res_bind negb];
    try discriminate; [|congruence].
  destruct (open_set_ s !! Node3d.GetIndex next) eqn:Hopen; [congruence|].
  cbv zeta. rewrite !CalculateNodeCost_index. intros [= <-].
  set (nn := CalculateNodeCost cfg s current next).
  destruct Hinv as [Hnd Hop Hq Hcl Hidx].
  assert (Hfresh : Node3d.GetIndex next ∉ pushed_ s).
  { intros Hin. apply Hop in Hin. rewrite Hopen in Hin. by destruct Hin. }
  constructor; cbn; unfold umap_insert; rewrite ?Hopen.
  - apply NoDup_app. split; [exact Hnd|]. split; [|apply NoDup_singleton].
    intros x Hx Hx'. apply list_elem_of_singleton in Hx'. congruence.
  - intros id. rewrite elem_of_app, list_elem_of_singleton, <- Hop.
    destruct (decide (Node3d.GetIndex next = id)) as [<-|Hne].
    + rewrite lookup_insert_eq. split; eauto.
    + rewrite lookup_insert_ne by done. split; [tauto|].
      intros [?|?]; [done|congruence].
  - rewrite map_app. cbn [map fst]. rewrite <- Hq.
    rewrite <- !app_assoc. apply Permutation_app_head, Permutation_app_comm.
  - exact Hcl.
  - intros id n.
    destruct (decide (Node3d.GetIndex next = id)) as [<-|Hne].
    + rewrite lookup_insert_eq. intros [= <-]. reflexivity.
    + rewrite lookup_insert_ne by done. apply Hidx.
Qed.

Lemma Plan_iteration_inv fuel cfg s s' :
  Plan_inv s -> Plan_iteration fuel cfg s = Done (false, s') -> Plan_inv s'.
Proof.
  intros Hinv. unfold Plan_iteration.
  destruct (pq_top (open_pq_ s)) as [[id c]|] eqn:Htop; [|discriminate].
  destruct (pq_top_Some _ _ _ Htop) as (k & _ & Hk & Hpop).
  cbn [open_set_ pq_take].
  destruct (open_set_ s !! id) as [current|] eqn:Hcur; [|discriminate].
  destruct (AnalyticExpansion (pq_take id s) current) as [[found s1]| |]
    eqn:Hae; cbn [mbind res_bind]; try discriminate.
  destruct found; [discriminate|].
  apply AnalyticExpansion_false in Hae. subst s1.
  destruct (for_loop _ _ _ _) as [s2| |] eqn:Hloop; cbn [mbind res_bind];
    try discriminate.
  intros [= <-].
  eapply for_loop_preserves; [|  |exact Hloop].
  { intros i a b. apply Plan_successor_inv. }
  destruct Hinv as [Hnd Hop Hq Hcl Hidx].
  constructor; cbn.
  - exact Hnd.
  - exact Hop.
  - rewrite Hpop, <- Hq.
    pose proof (Permutation_map fst
                  (delete_Permutation (open_pq_ s) k (id, c) Hk)) as Hm.
    cbn [map fst] in Hm. rewrite Hm. cbn [app]. rewrite app_assoc.
    symmetry. apply Permutation_cons_append.
  - intros x. unfold umap_insert. rewrite (Hidx _ _ Hcur).
    rewrite elem_of_app, list_elem_of_singleton.
    destruct (close_set_ s !! id) eqn:Hc.
    + intros Hx. left. by apply Hcl.
    + destruct (decide (id = x)) as [<-|Hne]; [by right|].
      rewrite lookup_insert_ne by done. intros Hx. left. by apply Hcl.
  - exact Hidx.
Qed.

Lemma reachable_inv cfg s0 s :
  Plan_inv s0 -> reachable cfg s0 s -> Plan_inv s.
Proof.
  intros H0. induction 1 as [|fuel s s' _ IH _ Hstep]; [exact H0|].
  eapply Plan_iteration_inv; eassumption.
Qed.

(** The rounds [Plan_search] goes through are the reachable ones: it ends
    either between two rounds with an empty queue, or in a round that
    breaks out of the loop. *)
Lemma Plan_search_reachable fuel cfg s0 rounds : forall s s',
  reachable cfg s0 s ->
  Plan_search rounds fuel cfg s = Done s' ->
  (reachable cfg s0 s' /\ open_pq_ s' = []) \/
  (exists s1, reachable cfg s0 s1 /\ open_pq_ s1 <> [] /\
              Plan_iteration fuel cfg s1 = Done (true, s')).
Proof.
  induction rounds as [|rounds IH]; intros s s' Hreach Hrun; [discriminate|].
  cbn [Plan_search] in Hrun.
  destruct (open_pq_ s) as [|e q] eqn:Hq.
  - injection Hrun as <-. left. done.
  - destruct (Plan_iteration fuel cfg s) as [[found s1]| |] eqn:Hit;
      cbn [mbind res_bind] in Hrun; try discriminate.
    destruct found.
    + injection Hrun as <-. right. exists s. rewrite Hq. done.
    + apply (IH s1 s'); [|exact Hrun].
      eapply reach_round; [exact Hreach|rewrite Hq; done|exact Hit].
Qed.

Lemma queue_disjoint_expanded s id :
  Plan_inv s -> id ∈ map fst (open_pq_ s) -> id ∉ expanded_ s.
Proof.
  intros [Hnd _ Hq _ _] Hin Hex.
  rewrite <- Hq in Hnd. apply NoDup_app in Hnd as (_ & Hdis & _).
  exact (Hdis id Hin Hex).
Qed.

Lemma queue_not_closed s id c :
  Plan_inv s -> (id, c) ∈ open_pq_ s -> close_set_ s !! id = None.
Proof.
  intros Hinv Hin. destruct (close_set_ s !! id) eqn:Hc; [|reflexivity].
  exfalso. eapply (queue_disjoint_expanded s id Hinv).
  - apply list_elem_of_In, in_map_iff. exists (id, c).
    split; [reflexivity|by apply list_elem_of_In].
  - apply (inv_closed s Hinv). rewrite Hc. eauto.
Qed.

Lemma pq_top_elem q id c : pq_top q = Some (id, c) -> (id, c) ∈ q.
Proof.
  intros Htop. destruct (pq_top_Some _ _ _ Htop) as (k & _ & Hk & _).
  eapply list_elem_of_lookup_2. exact Hk.
Qed.

Lemma Plan_iteration_checked_inv fuel cfg s :
  Plan_inv s -> Plan_iteration_checked fuel cfg s = Plan_iteration fuel cfg s.
Proof.
  intros Hinv. unfold Plan_iteration_checked.
  destruct (pq_top (open_pq_ s)) as [[id c]|] eqn:Htop; [|reflexivity].
  rewrite (queue_not_closed s id c Hinv (pq_top_elem _ _ _ Htop)).
  reflexivity.
Qed.

Lemma Plan_search_checked_reachable fuel cfg s0 rounds : forall s,
  Plan_inv s0 -> reachable cfg s0 s ->
  Plan_search_checked rounds fuel cfg s = Plan_search rounds fuel cfg s.
Proof.
  induction rounds as [|rounds IH]; intros s H0 Hreach; [reflexivity|].
  cbn [Plan_search_checked Plan_search].
  destruct (open_pq_ s) as [|e q] eqn:Hq; [reflexivity|].
  rewrite Plan_iteration_checked_inv by (eapply reachable_inv; eassumption).
  destruct (Plan_iteration fuel cfg s) as [[found s1]| |] eqn:Hit;
    cbn [mbind res_bind]; try reflexivity.
  destruct found; [reflexivity|]. apply IH; [exact H0|].
  eapply reach_round; [exact Hreach|rewrite Hq; done|exact Hit].
Qed.

(** C5: in every run of [Plan] no node whose index is in the closed set is
    expanded, and the search loop computes what the loop of the
    specification computes, which consults the closed set after the pop
    and skips a closed entry. Between any two rounds no queue entry is
    stale: the index of every entry is outside the closed set; the index
    on top of the queue, which the next round expands, is outside the
    closed set and has not been expanded before. The text of the round
    holds no test of its own between the pop and the analytic expansion;
    it needs none, since every index enters the queue once. *)
Theorem Plan_top_not_closed cfg self sx sy sphi ex ey ephi XYbounds obstacles
    s0 s :
  Plan_setup self sx sy sphi ex ey ephi XYbounds obstacles = Done (true, s0) ->
  reachable cfg s0 s ->
  (forall id c, (id, c) ∈ open_pq_ s -> close_set_ s !! id = None) /\
  (forall id c, pq_top (open_pq_ s) = Some (id, c) ->
     close_set_ s !! id = None /\ id ∉ expanded_ s) /\
  (forall fuel,
     Plan_iteration_checked fuel cfg s = Plan_iteration fuel cfg s) /\
  (forall rounds fuel,
     Plan_search_checked rounds fuel cfg s = Plan_search rounds fuel cfg s).
Proof.
  intros Hsetup Hreach.
  pose proof (Plan_setup_inv _ _ _ _ _ _ _ _ _ _ Hsetup) as H0.
  pose proof (reachable_inv cfg s0 s H0 Hreach) as Hinv.
  split; [intros id c; apply queue_not_closed, Hinv|].
  split.
  - intros id c Htop. split.
    + eapply queue_not_closed; [exact Hinv|eapply pq_top_elem, Htop].
    + eapply queue_disjoint_expanded;
        [exact Hinv|eapply pq_top_in_queue; exact Htop].
  - split; [intros fuel; apply Plan_iteration_checked_inv, Hinv|].
    intros rounds fuel. by apply (Plan_search_checked_reachable fuel cfg s0).
Qed.

(** C10: between any two rounds of the search loop, every index pushed so
    far is a key of [open_set_], no index was pushed twice, every queue
    entry is a pushed index, the node looked up for the entry on top of the
    queue exists (and carries that index), that index has not been expanded
    before, and no index was expanded twice. *)
Theorem Plan_pushed_once cfg self sx sy sphi ex ey ephi XYbounds obstacles
    s0 s :
  Plan_setup self sx sy sphi ex ey ephi XYbounds obstacles = Done (true, s0) ->
  reachable cfg s0 s ->
  NoDup (pushed_ s) /\
  (forall id, id ∈ pushed_ s -> is_Some (open_set_ s !! id)) /\
  (forall e, e ∈ open_pq_ s -> e.1 ∈ pushed_ s) /\
  (forall id c, pq_top (open_pq_ s) = Some (id, c) ->
     exists node, open_set_ s !! id = Some node /\
                  Node3d.GetIndex node = id /\ id ∉ expanded_ s) /\
  NoDup (expanded_ s).
Proof.
  intros Hsetup Hreach.
  pose proof (reachable_inv cfg s0 s (Plan_setup_inv _ _ _ _ _ _ _ _ _ _ Hsetup)
                Hreach) as Hinv.
  pose proof Hinv as [Hnd Hop Hq Hcl Hidx].
  assert (Hqin : forall id, id ∈ map fst (open_pq_ s) -> id ∈ pushed_ s).
  { intros id Hin. rewrite <- Hq. apply elem_of_app. by left. }
  split; [exact Hnd|]. split; [intros id; apply Hop|].
  split; [|split].
  - intros e He. apply Hqin, list_elem_of_In, in_map, list_elem_of_In, He.
  - intros id c Htop. pose proof (pq_top_in_queue _ _ _ Htop) as Hin.
    destruct (proj2 (Hop id) (Hqin id Hin)) as [node Hnode].
    exists node. split; [exact Hnode|]. split; [by apply Hidx|].
    by apply queue_disjoint_expanded.
  - rewrite <- Hq in Hnd. by apply NoDup_app in Hnd as (_ & _ & ?).
Qed.

End Search.

(** The loop of the code and the loop of the specification differ only
    off the runs of [Plan]. [stale_world] has a closed index on top of its
    queue; no run of [Plan] reaches it. There the round of the specification
    skips the entry, and the round of the code runs the analytic expansion
    from the closed node and, whenever a curve to the goal exists (as in
    the demo world), ends the search. *)
Lemma stale_world_not_reachable :
  (forall (E' : Externals) (dp : @DpMap E'),
     close_set_ (stale_world dp) !! "a" = Some stale_node /\
     pq_top (open_pq_ (stale_world dp)) = Some ("a", 0%float)) /\
  (forall (E' : Externals) (dp : @DpMap E') cfg self sx sy sphi ex ey ephi
          XYbounds obstacles s0,
     Plan_setup self sx sy sphi ex ey ephi XYbounds obstacles
     = Done (true, s0) ->
     ~ reachable cfg s0 (stale_world dp)) /\
  (forall (E' : Externals) (dp : @DpMap E') fuel cfg,
     Plan_iteration_checked fuel cfg (stale_world dp)
     = Done (false, pq_skip (stale_world dp))) /\
  (forall (E' : Externals) (dp : @DpMap E') fuel cfg rsp curve,
     ShortestRSP (node_pose stale_node) (node_pose stale_goal) = Some rsp ->
     Node3d.make (rs_x rsp) (rs_y rsp) (rs_phi rsp) [-10; 10; -10; 10]%float
     = Done curve ->
     exists s',
       Plan_iteration fuel cfg (stale_world dp) = Done (true, s') /\
       final_node_ s' = Some (Node3d.SetPre stale_node curve)) /\
  (exists rsp curve,
     @ShortestRSP Demo.world (node_pose stale_node) (node_pose stale_goal)
     = Some rsp /\
     @Node3d.make Demo.world (rs_x rsp) (rs_y rsp) (rs_phi rsp)
       [-10; 10; -10; 10]%float = Done curve).
Proof.
  split; [intros; split; reflexivity|]. split; [|split; [|split]].
  - intros E' dp cfg self sx sy sphi ex ey ephi XYbounds obstacles s0 Hsetup
      Hreach.
    pose proof (reachable_inv cfg s0 _
                  (Plan_setup_inv _ _ _ _ _ _ _ _ _ _ Hsetup) Hreach) as Hinv.
    assert (Hin : ("a"%string, 0%float) ∈ open_pq_ (stale_world dp))
      by (cbn; left).
    pose proof (queue_not_closed _ _ _ Hinv Hin) as Hc. discriminate.
  - reflexivity.
  - intros E' dp fuel cfg rsp curve Hrsp Hcurve.
    unfold Plan_iteration.
    change (pq_top (open_pq_ (stale_world dp)))
      with (Some ("a"%string, 0%float)).
    cbn [pq_take open_set_ stale_world].
    change (({[ "a"%string := stale_node ]} : gmap string Node3d.t)
              !! "a"%string) with (Some stale_node).
    unfold AnalyticExpansion. cbn [end_node_ pq_take stale_world].
    rewrite Hrsp.
    unfold RSPCheck, LoadRSPinCS.
    change (XYbounds_ (pq_take "a" (stale_world dp)))
      with [-10; 10; -10; 10]%float.
    rewrite Hcurve. cbn [mbind res_bind].
    change (ValidityCheck (pq_take "a" (stale_world dp)) curve)
      with (Done true).
    cbn [mbind res_bind negb]. eexists. split; reflexivity.
  - eexists _, _. split; reflexivity.
Qed.

(** The demo planner after its first round: the entry on top of the queue
    is neither closed nor expanded before, and one more round of either
    loop gives the same planner. *)
Lemma Plan_top_not_closed_witness :
  @Plan_setup Demo.world Demo.blank 0 0 0 5 1 0 Demo.bounds []
  = Done (true, Demo.seeded) /\
  reachable Demo.config Demo.seeded Demo.second_round /\
  pq_top (open_pq_ Demo.second_round) = Some ("21_20_6"%string, 6%float) /\
  close_set_ Demo.second_round !! "21_20_6"%string = None /\
  ("21_20_6"%string ∉ expanded_ Demo.second_round) /\
  (Plan_iteration_checked 5 Demo.config Demo.second_round
   = Plan_iteration 5 Demo.config Demo.second_round).
Proof.
  assert (Hsetup : @Plan_setup Demo.world Demo.blank 0 0 0 5 1 0 Demo.bounds []
                   = Done (true, Demo.seeded))
    by (apply (Done_pair_eta _ Demo.blank true); vm_compute; reflexivity).
  assert (Hreach : reachable Demo.config Demo.seeded Demo.second_round).
  { apply (reach_round Demo.config Demo.seeded 5 Demo.seeded
             Demo.second_round (reach_seed _ _)).
    - vm_compute. discriminate.
    - apply (Done_pair_eta _ Demo.seeded false); vm_compute; reflexivity. }
  assert (Htop : pq_top (open_pq_ Demo.second_round)
                 = Some ("21_20_6"%string, 6%float))
    by (vm_compute; reflexivity).
  split; [exact Hsetup|]. split; [exact Hreach|]. split; [exact Htop|].
  destruct (@Plan_top_not_closed Demo.world Demo.config Demo.blank 0 0 0 5 1 0
              Demo.bounds [] Demo.seeded Demo.second_round Hsetup Hreach)
    as (_ & Htopc & Hround & _).
  destruct (Htopc _ _ Htop) as [Hc He].
  split; [exact Hc|]. split; [exact He|exact (Hround 5%nat)].
Defined.

(** The demo planner after its first round: three pushes, all distinct. *)
Lemma Plan_pushed_once_witness :
  @Plan_setup Demo.world Demo.blank 0 0 0 5 1 0 Demo.bounds []
  = Done (true, Demo.seeded) /\
  reachable Demo.config Demo.seeded Demo.second_round /\
  pushed_ Demo.second_round = ["20_20_6"; "21_20_6"; "19_20_6"]%string /\
  NoDup (pushed_ Demo.second_round) /\
  NoDup (expanded_ Demo.second_round).
Proof.
  assert (Hsetup : @Plan_setup Demo.world Demo.blank 0 0 0 5 1 0 Demo.bounds []
                   = Done (true, Demo.seeded))
    by (apply (Done_pair_eta _ Demo.blank true); vm_compute; reflexivity).
  assert (Hreach : reachable Demo.config Demo.seeded Demo.second_round).
  { apply (reach_round Demo.config Demo.seeded 5 Demo.seeded
             Demo.second_round (reach_seed _ _)).
    - vm_compute. discriminate.
    - apply (Done_pair_eta _ Demo.seeded false); vm_compute; reflexivity. }
  split; [exact Hsetup|]. split; [exact Hreach|].
  split; [vm_compute; reflexivity|].
  destruct (@Plan_pushed_once Demo.world Demo.config Demo.blank 0 0 0 5 1 0
              Demo.bounds [] Demo.seeded Demo.second_round Hsetup Hreach)
    as (Hp & _ & _ & _ & He).
  split; [exact Hp|exact He].
Defined.

(** * Further properties *)

(** ** Node3d and the successors *)

Section Successors.
Context `{E : Externals}.

Lemma make_Done xs ys phis XY n :
  Node3d.make xs ys phis XY = Done n ->
  exists x y phi,
    last xs = Some x /\ last ys = Some y /\ last phis = Some phi /\
    length ys = length xs /\ length phis = length xs /\
    n = Node3d.Build xs ys phis x y phi (vsize xs)
          (ComputeStringIndex x y phi XY) 0 0 0 true None.
Proof.
  unfold Node3d.make, vec_back.
  destruct (Nat.eqb_spec (length xs) (length ys)) as [Hy|]; [|discriminate].
  destruct (Nat.eqb_spec (length xs) (length phis)) as [Hphi|];
    [|discriminate].
  cbn [andb negb].
  destruct (last xs) as [x|]; [|discriminate].
  destruct (last ys) as [y|]; [|discriminate].
  destruct (last phis) as [phi|]; [|discriminate].
  cbn. intros [= <-]. exists x, y, phi. repeat split; congruence.
Qed.

Lemma Next_node_loop_done cfg d st : forall fuel i x y phi ix iy iphi r,
  (0 <= i < SIZE_MOD)%Z ->
  Next_node_loop fuel cfg d st i x y phi ix iy iphi = Done r ->
  exists n,
    (n < fuel)%nat /\
    (forall j, (j < n)%nat ->
       substep_cond cfg (size_wrap (i + Z.of_nat j)) = true) /\
    substep_cond cfg (size_wrap (i + Z.of_nat n)) = false /\
    r = (ix ++ map (fun q => q.1.1)
                 (tail (primitive_poses cfg d st n (x, y, phi))),
         iy ++ map (fun q => q.1.2)
                 (tail (primitive_poses cfg d st n (x, y, phi))),
         iphi ++ map snd (tail (primitive_poses cfg d st n (x, y, phi)))).
Proof.
  induction fuel as [|fuel IH]; intros i x y phi ix iy iphi r Hi Hrun;
    [discriminate|].
  cbn [Next_node_loop] in Hrun. fold (substep_cond cfg i) in Hrun.
  destruct (substep_cond cfg i) eqn:Hc.
  - apply IH in Hrun as (n & Hn & Hlt & Hex & ->);
      [|unfold size_add, size_wrap; apply Z.mod_pos_bound; done].
    assert (Hw : forall m : nat,
              size_wrap (size_add i 1 + Z.of_nat m)
              = size_wrap (i + Z.of_nat (S m))).
    { intros m. unfold size_add, size_wrap.
      rewrite Zplus_mod_idemp_l. f_equal. lia. }
    exists (S n). split; [lia|]. split; [|split].
    + intros [|j] Hj.
      * unfold size_wrap. rewrite Z.add_0_r, Z.mod_small by lia. exact Hc.
      * rewrite <- Hw. apply Hlt. lia.
    + rewrite <- Hw. exact Hex.
    + cbn [primitive_poses tail bicycle_step].
      destruct n; cbn [primitive_poses tail map fst snd];
        rewrite <- !app_assoc; reflexivity.
  - injection Hrun as <-. exists 0%nat. split; [lia|]. split; [|split].
    + intros j Hj. lia.
    + unfold size_wrap. rewrite Z.add_0_r, Z.mod_small by lia. exact Hc.
    + cbn. rewrite !app_nil_r. reflexivity.
Qed.

(** The counter cannot wrap before the loop ends: a loop that ends does so
    after fewer than 2^64 - 1 rounds. *)
Lemma substep_count_small cfg n :
  (forall j, (j < n)%nat ->
     substep_cond cfg (size_wrap (Z.of_nat j)) = true) ->
  substep_cond cfg (size_wrap (Z.of_nat n)) = false ->
  (Z.of_nat n < SIZE_MOD - 1)%Z.
Proof.
  intros Hlt Hex.
  destruct (Z.lt_ge_cases (Z.of_nat n) SIZE_MOD) as [Hsmall|Hbig].
  - destruct (Z.eq_dec (Z.of_nat n) (SIZE_MOD - 1)%Z) as [Heq|]; [|lia].
    exfalso.
    specialize (Hlt (Z.to_nat (SIZE_MOD - 2)%Z)
                  ltac:(unfold SIZE_MOD in *; lia)).
    rewrite Z2Nat.id in Hlt by (unfold SIZE_MOD; lia).
    rewrite Heq in Hex. unfold substep_cond in *.
    change (double_of_size_t (size_wrap (SIZE_MOD - 1)%Z))
      with (double_of_size_t (size_wrap (SIZE_MOD - 2)%Z)) in Hex.
    congruence.
  - exfalso.
    specialize (Hlt (Z.to_nat (Z.of_nat n - SIZE_MOD)%Z)
                  ltac:(unfold SIZE_MOD in *; lia)).
    rewrite Z2Nat.id in Hlt by lia.
    replace (size_wrap (Z.of_nat n - SIZE_MOD)%Z) with (size_wrap (Z.of_nat n))
      in Hlt; [congruence|].
    unfold size_wrap.
    replace (Z.of_nat n - SIZE_MOD)%Z with (Z.of_nat n + (-1) * SIZE_MOD)%Z
      by lia.
    rewrite Z_mod_plus_full. reflexivity.
Qed.

Lemma substeps_of_loop cfg n :
  (forall j, (j < n)%nat ->
     substep_cond cfg (size_wrap (0 + Z.of_nat j)) = true) ->
  substep_cond cfg (size_wrap (0 + Z.of_nat n)) = false ->
  substeps cfg n = true /\ (Z.of_nat n < SIZE_MOD - 1)%Z.
Proof.
  intros Hlt Hex. cbn [Z.add] in Hlt, Hex.
  pose proof (substep_count_small cfg n Hlt Hex) as Hn.
  split; [|exact Hn]. unfold substeps.
  apply andb_true_iff. split.
  - apply forallb_forall. intros j Hj. apply in_seq in Hj.
    specialize (Hlt j ltac:(lia)). unfold size_wrap in Hlt.
    rewrite Z.mod_small in Hlt by lia. exact Hlt.
  - apply negb_true_iff. unfold size_wrap in Hex.
    rewrite Z.mod_small in Hex by lia. exact Hex.
Qed.

Lemma zip_projections (ps : list (float * float * float)) :
  zip (zip (map (fun q => q.1.1) ps) (map (fun q => q.1.2) ps)) (map snd ps)
  = ps.
Proof.
  induction ps as [|[[x y] phi] ps IH]; [reflexivity|].
  cbn. f_equal. exact IH.
Qed.

Lemma vec_at_Done {A} (v : list A) i a :
  vec_at v i = Done a -> v !! Z.to_nat i = Some a.
Proof.
  unfold vec_at. destruct (i <? 0)%Z; [discriminate|].
  destruct (v !! Z.to_nat i); [congruence|discriminate].
Qed.

(** The shape of every node the generator returns. *)
Lemma Next_node_generator_shape fuel cfg self current k node :
  Next_node_generator fuel cfg self current k = Done (Some node) ->
  Node3d.wf node /\
  Node3d.GetPreNode node = Some current /\
  (head (Node3d.GetXs node), head (Node3d.GetYs node),
   head (Node3d.GetPhis node)) =
  (Some (Node3d.GetX current), Some (Node3d.GetY current),
   Some (Node3d.GetPhi current)) /\
  Node3d.GetIndex node =
  ComputeStringIndex (Node3d.GetX node) (Node3d.GetY node)
    (Node3d.GetPhi node) (XYbounds_ self) /\
  (Node3d.GetSteer node, Node3d.GetDirec node) =
  ((primitive_choice cfg k).1, fgt (primitive_choice cfg k).2 0) /\
  (exists xmin xmax ymin ymax,
     XYbounds_ self !! 0%nat = Some xmin /\
     XYbounds_ self !! 1%nat = Some xmax /\
     XYbounds_ self !! 2%nat = Some ymin /\
     XYbounds_ self !! 3%nat = Some ymax /\
     InXYbounds xmin xmax ymin ymax (Node3d.GetX node) (Node3d.GetY node)
     = true) /\
  (exists n,
     substeps cfg n = true /\ (n < fuel)%nat /\
     Node3d.poses node =
     primitive_poses cfg (primitive_choice cfg k).2 (primitive_choice cfg k).1
       n (node_pose current)).
Proof.
  unfold Next_node_generator.
  destruct (primitive_choice cfg k) as [st d]. cbn [fst snd].
  destruct (Next_node_loop _ _ _ _ _ _ _ _ _ _ _) as [r| |] eqn:Hloop;
    cbn [mbind res_bind]; try discriminate.
  apply Next_node_loop_done in Hloop as (n & Hfuel & Hlt & Hex & ->);
    [|unfold SIZE_MOD; lia].
  destruct (substeps_of_loop cfg n Hlt Hex) as [Hsub Hn].
  fold (node_pose current).
  set (ps := primitive_poses cfg d st n (node_pose current)).
  pose proof (primitive_poses_length cfg d st n (node_pose current)) as Hlen.
  pose proof (primitive_poses_head cfg d st n (node_pose current)) as Hh.
  fold ps in Hlen, Hh.
  assert (Hps : ps = node_pose current :: tail ps)
    by (destruct ps; [discriminate|injection Hh as ->; reflexivity]).
  assert (Hx : [Node3d.GetX current] ++
               map (fun q : float * float * float => q.1.1) (tail ps)
               = map (fun q => q.1.1) ps)
    by (rewrite Hps at 2; reflexivity).
  assert (Hy : [Node3d.GetY current] ++
               map (fun q : float * float * float => q.1.2) (tail ps)
               = map (fun q => q.1.2) ps)
    by (rewrite Hps at 2; reflexivity).
  assert (Hphi : [Node3d.GetPhi current] ++
                 map (snd : float * float * float -> float) (tail ps)
                 = map snd ps)
    by (rewrite Hps at 2; reflexivity).
  rewrite Hx, Hy, Hphi. clear Hx Hy Hphi Hlt Hex.
  pose proof (primitive_poses_last cfg d st n (node_pose current)) as Hl.
  fold ps in Hl.
  destruct (primitive_end cfg d st n (node_pose current)) as [[xf yf] phif].
  unfold Node3d.make, vec_back. rewrite !last_map, Hl.
  cbn [fmap option_fmap option_map fst snd mbind res_bind].
  rewrite !length_map, !Nat.eqb_refl. cbn [andb negb].
  destruct (vec_at (XYbounds_ self) 1) as [b1| |] eqn:Hb1;
    cbn [mbind res_bind]; try discriminate.
  destruct (fgt xf b1) eqn:C1; cbv iota; [discriminate|].
  destruct (vec_at (XYbounds_ self) 0) as [b0| |] eqn:Hb0;
    cbn [mbind res_bind]; try discriminate.
  destruct (flt xf b0) eqn:C0; cbv iota; [discriminate|].
  destruct (vec_at (XYbounds_ self) 3) as [b3| |] eqn:Hb3;
    cbn [mbind res_bind]; try discriminate.
  destruct (fgt yf b3) eqn:C3; cbv iota; [discriminate|].
  destruct (vec_at (XYbounds_ self) 2) as [b2| |] eqn:Hb2;
    cbn [mbind res_bind]; try discriminate.
  destruct (flt yf b2) eqn:C2; cbv iota; [discriminate|].
  intros [= <-].
  apply vec_at_Done in Hb0, Hb1, Hb2, Hb3.
  assert (Hwf : Node3d.wf
            (Node3d.SetSteer st
               (Node3d.SetDirec (fgt d 0)
                  (Node3d.SetPre current
                     (Node3d.Build (map (fun q => q.1.1) ps)
                        (map (fun q => q.1.2) ps) (map snd ps) xf yf phif
                        (vsize (map (fun q : float * float * float => q.1.1)
                                  ps))
                        (ComputeStringIndex xf yf phif (XYbounds_ self))
                        0 0 0 true None))))).
  { constructor; cbn; unfold vsize; rewrite ?length_map, ?last_map, ?Hl,
      ?Hlen; try reflexivity; lia. }
  split; [exact Hwf|]. split; [reflexivity|].
  split; [cbn; rewrite Hps; reflexivity|].
  split; [reflexivity|]. split; [reflexivity|]. split.
  - exists b0, b1, b2, b3. repeat (split; [assumption|]).
    change (InXYbounds b0 b1 b2 b3 xf yf = true). unfold InXYbounds.
    rewrite C0, C1, C2, C3. reflexivity.
  - exists n. split; [exact Hsub|]. split; [exact Hfuel|].
    apply zip_projections.
Qed.

Lemma linked_successor current node :
  Node3d.wf node ->
  Node3d.GetPreNode node = Some current ->
  (head (Node3d.GetXs node), head (Node3d.GetYs node),
   head (Node3d.GetPhis node)) =
  (Some (Node3d.GetX current), Some (Node3d.GetY current),
   Some (Node3d.GetPhi current)) ->
  linked current -> linked node.
Proof.
  intros Hwf Hpre [= Hx Hy Hphi] Hl.
  eapply linked_edge; eassumption.
Qed.

(** X1: every node [Next_node_generator] returns is well formed, has the
    current node as parent, starts at the pose of the current node and ends
    inside XYbounds, is indexed by its final pose, carries the steering and
    direction of its primitive, and consists of the start pose followed by
    as many bicycle substeps as the loop condition allows; so a successor
    of a node with a linked parent chain has a linked parent chain. *)
Theorem Next_node_generator_node fuel cfg self current k node :
  Next_node_generator fuel cfg self current k = Done (Some node) ->
  Node3d.wf node /\
  Node3d.GetPreNode node = Some current /\
  (linked current -> linked node) /\
  chain_root node = chain_root current /\
  Node3d.GetIndex node =
  ComputeStringIndex (Node3d.GetX node) (Node3d.GetY node)
    (Node3d.GetPhi node) (XYbounds_ self) /\
  (Node3d.GetSteer node, Node3d.GetDirec node) =
  ((primitive_choice cfg k).1, fgt (primitive_choice cfg k).2 0) /\
  (exists xmin xmax ymin ymax,
     XYbounds_ self !! 0%nat = Some xmin /\
     XYbounds_ self !! 1%nat = Some xmax /\
     XYbounds_ self !! 2%nat = Some ymin /\
     XYbounds_ self !! 3%nat = Some ymax /\
     InXYbounds xmin xmax ymin ymax (Node3d.GetX node) (Node3d.GetY node)
     = true) /\
  (exists n,
     substeps cfg n = true /\ (n < fuel)%nat /\
     Node3d.poses node =
     primitive_poses cfg (primitive_choice cfg k).2 (primitive_choice cfg k).1
       n (node_pose current)).
Proof.
  intros Hgen.
  destruct (Next_node_generator_shape _ _ _ _ _ _ Hgen)
    as (Hwf & Hpre & Hhead & Hidx & Hprim & Hin & Hposes).
  split; [exact Hwf|]. split; [exact Hpre|].
  split; [apply linked_successor; assumption|].
  split.
  { unfold Node3d.GetPreNode in Hpre. destruct node; cbn in Hpre |- *.
    rewrite Hpre. reflexivity. }
  repeat (split; [assumption|]). exact Hposes.
Qed.

End Successors.

(** ** The stored nodes during the search *)

Lemma umap_insert_keeps {V} (k k' : string) (v v' : V) (m : gmap string V) :
  m !! k' = Some v' -> umap_insert k v m !! k' = Some v'.
Proof.
  intros Hk. unfold umap_insert. destruct (m !! k) eqn:Hm; [exact Hk|].
  rewrite lookup_insert_ne; [exact Hk|]. intros ->. congruence.
Qed.

Lemma umap_insert_lookup {V} (k k' : string) (v v' : V) (m : gmap string V) :
  umap_insert k v m !! k' = Some v' ->
  m !! k' = Some v' \/ (k' = k /\ v' = v /\ m !! k = None).
Proof.
  unfold umap_insert. destruct (m !! k) eqn:Hm; [by left|].
  destruct (decide (k = k')) as [<-|Hne].
  - rewrite lookup_insert_eq. intros [= <-]. by right.
  - rewrite lookup_insert_ne by done. by left.
Qed.

Section SearchInvariant.
Context `{E : Externals}.

Lemma CalculateNodeCost_wf cfg self current next :
  Node3d.wf next -> Node3d.wf (CalculateNodeCost cfg self current next).
Proof. intros [? ? ? ? ? ? ? ?]. constructor; assumption. Qed.

Lemma chain_root_pre n p :
  Node3d.GetPreNode n = Some p -> chain_root n = chain_root p.
Proof.
  unfold Node3d.GetPreNode. destruct n; cbn. intros ->. reflexivity.
Qed.

Lemma chain_root_root n : Node3d.GetPreNode n = None -> chain_root n = n.
Proof.
  unfold Node3d.GetPreNode. destruct n; cbn. intros ->. reflexivity.
Qed.

Lemma Plan_setup_start self sx sy sphi ex ey ephi XYbounds obstacles s0 :
  Plan_setup self sx sy sphi ex ey ephi XYbounds obstacles = Done (true, s0) ->
  exists segs start goal,
    for_each obstacle_segments obstacles = Done segs /\
    Node3d.make [sx] [sy] [sphi] XYbounds = Done start /\
    Node3d.make [ex] [ey] [ephi] XYbounds = Done goal /\
    s0 = Build_Planner XYbounds segs (Some start) (Some goal) None
           {[ Node3d.GetIndex start := start ]} ∅
           [(Node3d.GetIndex start, Node3d.GetCost start)]
           (GenerateDpMap ex ey XYbounds segs)
           [Node3d.GetIndex start] [].
Proof.
  unfold Plan_setup.
  destruct (for_each obstacle_segments obstacles) as [segs| |];
    try discriminate.
  cbn [mbind res_bind Node3d.make length Nat.eqb andb negb vec_back last].
  set (start := Node3d.Build _ _ _ _ _ _ _ _ _ _ _ _ _).
  set (goal := Node3d.Build _ _ _ _ _ _ _ _ _ _ _ _ _).
  destruct (ValidityCheck _ start) as [[]| |]; try discriminate.
  cbn [mbind res_bind negb].
  destruct (ValidityCheck _ goal) as [[]| |]; try discriminate.
  cbn [mbind res_bind negb]. intros [= <-].
  exists segs, start, goal. repeat split.
Qed.

Lemma Plan_setup_search_inv cfg self sx sy sphi ex ey ephi XYbounds obstacles
    s0 :
  Plan_setup self sx sy sphi ex ey ephi XYbounds obstacles = Done (true, s0) ->
  exists start,
    start_node_ s0 = Some start /\
    Node3d.make [sx] [sy] [sphi] XYbounds = Done start /\
    Search_inv cfg start s0.
Proof.
  intros Hsetup.
  destruct (Plan_setup_start _ _ _ _ _ _ _ _ _ _ Hsetup)
    as (segs & start & goal & _ & Hstart & _ & ->).
  exists start. split; [reflexivity|]. split; [exact Hstart|].
  apply make_Done in Hstart as (x & y & phi & _ & _ & _ & _ & _ & Hs).
  assert (Hroot : Node3d.GetPreNode start = None) by (subst start; reflexivity).
  assert (Hone : forall id n,
            ({[ Node3d.GetIndex start := start ]} : gmap string Node3d.t)
              !! id = Some n -> n = start).
  { intros id n Hn. apply lookup_singleton_Some in Hn as [_ <-]. reflexivity. }
  constructor; cbn.
  - intros id n Hn. apply Hone in Hn as ->.
    split; [by apply linked_root|by apply chain_root_root].
  - intros id n Hn _. by apply Hone in Hn.
  - intros id n p Hn Hp. apply Hone in Hn as ->. congruence.
  - intros id n p Hn Hp. apply Hone in Hn as ->. congruence.
  - intros id c Hin. apply list_elem_of_singleton in Hin as [= -> ->].
    exists start. split; [apply lookup_singleton_eq|reflexivity].
  - intros id n Hn. rewrite lookup_empty in Hn. discriminate.
  - intros id Hin. by apply elem_of_nil in Hin.
Qed.

Lemma Plan_successor_search fuel cfg start current i s s' :
  Search_inv cfg start s ->
  open_set_ s !! Node3d.GetIndex current = Some current ->
  close_set_ s !! Node3d.GetIndex current = Some current ->
  Plan_successor fuel cfg current i s = Done s' ->
  Search_inv cfg start s' /\
  open_set_ s' !! Node3d.GetIndex current = Some current /\
  close_set_ s' !! Node3d.GetIndex current = Some current.
Proof.
  intros Hinv Hcur Hclosed. unfold Plan_successor.
  destruct (Next_node_generator fuel cfg s current i) as [[next|]| |] eqn:Hgen;
    cbn [mbind res_bind]; try discriminate; [|intros [= <-]; done].
  destruct (close_set_ s !! Node3d.GetIndex next); [intros [= <-]; done|].
  destruct (ValidityCheck s next) as [[]| |]; cbn [mbind res_bind negb];
    try discriminate; [|intros [= <-]; done].
  destruct (open_set_ s !! Node3d.GetIndex next) eqn:Hopen;
    [intros [= <-]; done|].
  cbv zeta. rewrite !CalculateNodeCost_index. intros [= <-].
  destruct (Next_node_generator_shape _ _ _ _ _ _ Hgen)
    as (Hwf & Hpre & Hhead & _).
  set (nn := CalculateNodeCost cfg s current next).
  assert (Hnnpre : Node3d.GetPreNode nn = Some current) by exact Hpre.
  destruct Hinv as [Hl Hr Hp Hc Hq Hco Hec].
  destruct (Hl _ _ Hcur) as [Hlcur Hrcur].
  assert (Hlnn : linked nn).
  { apply (linked_successor current); [|exact Hnnpre|exact Hhead|exact Hlcur].
    by apply CalculateNodeCost_wf. }
  assert (Hin : forall id n,
            umap_insert (Node3d.GetIndex next) nn (open_set_ s) !! id = Some n ->
            open_set_ s !! id = Some n \/ n = nn).
  { intros id n Hn. apply umap_insert_lookup in Hn as [?|(_ & -> & _)];
      [by left|by right]. }
  assert (Hnew : umap_insert (Node3d.GetIndex next) nn (open_set_ s)
                   !! Node3d.GetIndex next = Some nn).
  { unfold umap_insert. rewrite Hopen. apply lookup_insert_eq. }
  split; [|split; [cbn; by apply umap_insert_keeps|exact Hclosed]].
  constructor; cbn.
  - intros id n Hn. apply Hin in Hn as [Hn| ->]; [by eapply Hl|].
    split; [exact Hlnn|]. rewrite (chain_root_pre _ _ Hnnpre). exact Hrcur.
  - intros id n Hn Hnone. apply Hin in Hn as [Hn| ->]; [by eapply Hr|].
    congruence.
  - intros id n p Hn Hpn. apply Hin in Hn as [Hn| ->].
    + destruct (Hp _ _ _ Hn Hpn) as [Ho Hcl].
      split; [by apply umap_insert_keeps|exact Hcl].
    + assert (p = current) as -> by congruence.
      split; [by apply umap_insert_keeps|exact Hclosed].
  - intros id n p Hn Hpn. apply Hin in Hn as [Hn| ->]; [by eapply Hc|].
    assert (p = current) as -> by congruence. split; reflexivity.
  - intros id c Hin'. apply elem_of_app in Hin' as [Hold|Hnew'].
    + destruct (Hq _ _ Hold) as (n & Hn & Hcost).
      exists n. split; [by apply umap_insert_keeps|exact Hcost].
    + apply list_elem_of_singleton in Hnew' as [= -> ->].
      exists nn. split; [exact Hnew|reflexivity].
  - intros id n Hn. apply umap_insert_keeps. by apply Hco.
  - exact Hec.
Qed.

Lemma Plan_iteration_search fuel cfg start s s' :
  Plan_inv s -> Search_inv cfg start s ->
  Plan_iteration fuel cfg s = Done (false, s') ->
  Search_inv cfg start s'.
Proof.
  intros Hpinv Hinv. unfold Plan_iteration.
  destruct (pq_top (open_pq_ s)) as [[id c]|] eqn:Htop; [|discriminate].
  destruct (pq_top_Some _ _ _ Htop) as (k & _ & Hk & Hpop).
  cbn [open_set_ pq_take].
  destruct (open_set_ s !! id) as [current|] eqn:Hcur; [|discriminate].
  destruct (AnalyticExpansion (pq_take id s) current) as [[found s1]| |]
    eqn:Hae; cbn [mbind res_bind]; try discriminate.
  destruct found; [discriminate|].
  apply AnalyticExpansion_false in Hae. subst s1.
  destruct (for_loop _ _ _ _) as [s2| |] eqn:Hloop; cbn [mbind res_bind];
    try discriminate.
  intros [= <-].
  pose proof (inv_index s Hpinv _ _ Hcur) as Hidx.
  assert (Hnotclosed : close_set_ s !! id = None).
  { destruct (close_set_ s !! id) eqn:Hc; [|reflexivity]. exfalso.
    eapply queue_disjoint_expanded;
      [exact Hpinv|eapply pq_top_in_queue; exact Htop|].
    apply (inv_closed s Hpinv). rewrite Hc. eauto. }
  rewrite Hidx in Hloop.
  refine (proj1 (for_loop_preserves
            (fun t => Search_inv cfg start t /\
                      open_set_ t !! Node3d.GetIndex current = Some current /\
                      close_set_ t !! Node3d.GetIndex current = Some current)
            _ _ _ _ _ _ _ Hloop)).
  { intros i a b (Ha & Ho & Hc) Hstep.
    eapply Plan_successor_search; eassumption. }
  rewrite Hidx. cbn. unfold umap_insert. rewrite Hnotclosed.
  split; [|split; [exact Hcur|apply lookup_insert_eq]].
  destruct Hinv as [Hl Hr Hp Hc Hq Hco Hec].
  constructor; cbn.
  - exact Hl.
  - exact Hr.
  - intros id' n p Hn Hpn. destruct (Hp _ _ _ Hn Hpn) as [Ho Hcl].
    split; [exact Ho|]. rewrite lookup_insert_ne; [exact Hcl|].
    intros Heq. rewrite <- Heq in Hcl. congruence.
  - exact Hc.
  - intros id' c' Hin. apply Hq. rewrite Hpop in Hin.
    apply list_elem_of_In. apply list_elem_of_In in Hin.
    revert Hin. clear. revert k.
    induction (open_pq_ s) as [|e q IH]; intros [|k] Hin; cbn in *;
      try tauto. destruct Hin as [?|?]; [by left|right; eauto].
  - intros id' n. destruct (decide (id = id')) as [<-|Hne].
    + rewrite lookup_insert_eq. intros [= <-]. exact Hcur.
    + rewrite lookup_insert_ne by done. apply Hco.
  - intros id' Hin. apply elem_of_app in Hin as [Hin|Hin].
    + destruct (decide (id = id')) as [<-|Hne].
      * rewrite lookup_insert_eq. eauto.
      * rewrite lookup_insert_ne by done. by apply Hec.
    + apply list_elem_of_singleton in Hin as ->.
      rewrite lookup_insert_eq. eauto.
Qed.

Lemma reachable_search_inv cfg start s0 s :
  Plan_inv s0 -> Search_inv cfg start s0 -> reachable cfg s0 s ->
  Plan_inv s /\ Search_inv cfg start s.
Proof.
  intros H0 H0'. induction 1 as [|fuel s s' _ [IH IH'] _ Hstep]; [done|].
  split; [eapply Plan_iteration_inv; eassumption|].
  eapply Plan_iteration_search; eassumption.
Qed.

End SearchInvariant.

Lemma umap_insert_subseteq {V} (k : string) (v : V) (m : gmap string V) :
  m ⊆ umap_insert k v m.
Proof.
  apply map_subseteq_spec. intros i x Hi. by apply umap_insert_keeps.
Qed.

Section SearchFrame.
Context `{E : Externals}.

Lemma same_problem_refl s : same_problem s s.
Proof. repeat split. Qed.

Lemma same_problem_trans s1 s2 s3 :
  same_problem s1 s2 -> same_problem s2 s3 -> same_problem s1 s3.
Proof.
  intros (? & ? & ? & ? & ?) (? & ? & ? & ? & ?).
  repeat split; congruence.
Qed.

Lemma maps_grow_refl s : maps_grow s s.
Proof. split; reflexivity. Qed.

Lemma maps_grow_trans s1 s2 s3 :
  maps_grow s1 s2 -> maps_grow s2 s3 -> maps_grow s1 s3.
Proof. intros [? ?] [? ?]. split; etrans; eassumption. Qed.

Lemma Plan_successor_frame fuel cfg current i s s' :
  Plan_successor fuel cfg current i s = Done s' ->
  same_problem s s' /\ maps_grow s s' /\
  close_set_ s' = close_set_ s /\ final_node_ s' = final_node_ s.
Proof.
  assert (Hsame : same_problem s s /\ maps_grow s s /\
                  close_set_ s = close_set_ s /\ final_node_ s = final_node_ s)
    by (split; [apply same_problem_refl|split; [apply maps_grow_refl|done]]).
  unfold Plan_successor.
  destruct (Next_node_generator fuel cfg s current i) as [[next|]| |];
    cbn [mbind res_bind]; try discriminate; [|intros [= <-]; exact Hsame].
  destruct (close_set_ s !! Node3d.GetIndex next);
    [intros [= <-]; exact Hsame|].
  destruct (ValidityCheck s next) as [[]| |]; cbn [mbind res_bind negb];
    try discriminate; [|intros [= <-]; exact Hsame].
  destruct (open_set_ s !! Node3d.GetIndex next);
    [intros [= <-]; exact Hsame|].
  intros [= <-]. split; [repeat split|].
  split; [|done]. split; cbn; [apply umap_insert_subseteq|reflexivity].
Qed.

Lemma AnalyticExpansion_true self node self' :
  AnalyticExpansion self node = Done (true, self') ->
  exists goal rsp made,
    end_node_ self = Some goal /\
    ShortestRSP (node_pose node) (node_pose goal) = Some rsp /\
    Node3d.make (rs_x rsp) (rs_y rsp) (rs_phi rsp) (XYbounds_ self)
    = Done made /\
    ValidityCheck self made = Done true /\
    self' = set_final_node (Some (Node3d.SetPre node made))
              (set_close_set
                 (umap_insert (Node3d.GetIndex made) (Node3d.SetPre node made)
                    (close_set_ self)) self).
Proof.
  unfold AnalyticExpansion.
  destruct (end_node_ self) as [goal|]; [|discriminate].
  destruct (ShortestRSP _ _) as [rsp|] eqn:Hrsp; [|discriminate].
  unfold RSPCheck, LoadRSPinCS.
  destruct (Node3d.make _ _ _ _) as [made| |] eqn:Hmade;
    cbn [mbind res_bind]; try discriminate.
  destruct (ValidityCheck self made) as [[]| |] eqn:Hv;
    cbn [mbind res_bind negb]; try discriminate.
  intros [= <-]. exists goal, rsp, made. repeat split; assumption.
Qed.

Lemma Plan_iteration_frame fuel cfg s b s' :
  Plan_iteration fuel cfg s = Done (b, s') ->
  same_problem s s' /\ maps_grow s s'.
Proof.
  unfold Plan_iteration.
  destruct (pq_top (open_pq_ s)) as [[id c]|]; [|discriminate].
  cbn [open_set_ pq_take].
  destruct (open_set_ s !! id) as [current|]; [|discriminate].
  destruct (AnalyticExpansion (pq_take id s) current) as [[found s1]| |]
    eqn:Hae; cbn [mbind res_bind]; try discriminate.
  destruct found.
  - intros [= <- <-].
    apply AnalyticExpansion_true in Hae
      as (goal & rsp & made & _ & _ & _ & _ & ->).
    split; [repeat split|]. split; cbn;
      [reflexivity|apply umap_insert_subseteq].
  - apply AnalyticExpansion_false in Hae. subst s1.
    destruct (for_loop _ _ _ _) as [s2| |] eqn:Hloop; cbn [mbind res_bind];
      try discriminate.
    intros [= <- <-].
    set (s1 := set_close_set _ _) in Hloop.
    assert (H1 : same_problem s s1 /\ maps_grow s s1).
    { split; [repeat split|]. split; cbn;
        [reflexivity|apply umap_insert_subseteq]. }
    refine (for_loop_preserves
              (fun t => same_problem s t /\ maps_grow s t)
              _ _ _ _ _ _ H1 Hloop).
    intros i a a' [Ha Hb] Hstep.
    apply Plan_successor_frame in Hstep as (Hs & Hg & _).
    split; [eapply same_problem_trans|eapply maps_grow_trans]; eassumption.
Qed.

Lemma reachable_frame cfg s0 s :
  reachable cfg s0 s -> same_problem s0 s /\ maps_grow s0 s.
Proof.
  induction 1 as [|fuel s s' _ [IH IH'] _ Hstep].
  - split; [apply same_problem_refl|apply maps_grow_refl].
  - apply Plan_iteration_frame in Hstep as [Hs Hg].
    split; [eapply same_problem_trans|eapply maps_grow_trans]; eassumption.
Qed.

(** X2: a round of the search loop, whether it ends the search or not,
    never removes or replaces an entry of the open set or of the closed
    set (a successor whose index is already stored is dropped, not
    updated), and leaves the bounds, the obstacle segments, the start and
    end node and the heuristic map as they are. *)
Theorem Plan_iteration_keeps_entries fuel cfg s b s' :
  Plan_iteration fuel cfg s = Done (b, s') ->
  (forall id n, open_set_ s !! id = Some n -> open_set_ s' !! id = Some n) /\
  (forall id n, close_set_ s !! id = Some n -> close_set_ s' !! id = Some n) /\
  XYbounds_ s' = XYbounds_ s /\
  obstacles_linesegments_vec_ s' = obstacles_linesegments_vec_ s /\
  start_node_ s' = start_node_ s /\
  end_node_ s' = end_node_ s /\
  dp_map_ s' = dp_map_ s.
Proof.
  intros Hstep.
  destruct (Plan_iteration_frame _ _ _ _ _ Hstep) as [Hsame [Ho Hc]].
  split; [intros id n; apply (proj1 (map_subseteq_spec _ _) Ho)|].
  split; [intros id n; apply (proj1 (map_subseteq_spec _ _) Hc)|].
  exact Hsame.
Qed.

End SearchFrame.

Section SearchResults.
Context `{E : Externals}.

Lemma GetResult_path_chain n :
  linked n ->
  GetResult_path n =
  Some (chain_path Node3d.GetX Node3d.GetXs n,
        chain_path Node3d.GetY Node3d.GetYs n,
        chain_path Node3d.GetPhi Node3d.GetPhis n).
Proof.
  intros Hl.
  pose proof (chain_path_head Node3d.GetX Node3d.GetXs n Hl) as Hx.
  pose proof (chain_path_head Node3d.GetY Node3d.GetYs n Hl) as Hy.
  pose proof (chain_path_head Node3d.GetPhi Node3d.GetPhis n Hl) as Hphi.
  unfold GetResult_path. rewrite (GetResult_walk_linked n Hl).
  cbn [app]. rewrite !rev_app_distr, !rev_involutive. cbn [rev app].
  destruct (chain_path Node3d.GetX Node3d.GetXs n); [discriminate|].
  destruct (chain_path Node3d.GetY Node3d.GetYs n); [discriminate|].
  destruct (chain_path Node3d.GetPhi Node3d.GetPhis n); [discriminate|].
  cbn in Hx, Hy, Hphi |- *. congruence.
Qed.

(** Reconstruction from a node hung off a linked chain, whatever its own
    first pose. *)
Lemma GetResult_path_hung current made :
  linked current ->
  Node3d.GetXs made <> [] -> Node3d.GetYs made <> [] ->
  Node3d.GetPhis made <> [] ->
  GetResult_path (Node3d.SetPre current made) =
  Some (chain_path Node3d.GetX Node3d.GetXs current
          ++ tail (Node3d.GetXs made),
        chain_path Node3d.GetY Node3d.GetYs current
          ++ tail (Node3d.GetYs made),
        chain_path Node3d.GetPhi Node3d.GetPhis current
          ++ tail (Node3d.GetPhis made)).
Proof.
  intros Hl Hx Hy Hphi.
  pose proof (chain_path_head Node3d.GetX Node3d.GetXs current Hl) as Hhx.
  pose proof (chain_path_head Node3d.GetY Node3d.GetYs current Hl) as Hhy.
  pose proof (chain_path_head Node3d.GetPhi Node3d.GetPhis current Hl) as Hhp.
  unfold GetResult_path. destruct made as [xs ys phis ? ? ? ? ? ? ? ? ? ?].
  cbn in Hx, Hy, Hphi |- *.
  destruct xs as [|x0 xs]; [done|]. destruct ys as [|y0 ys]; [done|].
  destruct phis as [|p0 phis]; [done|].
  rewrite (GetResult_walk_linked current Hl).
  rewrite !(removelast_rev (_ :: _)). cbn [tail app].
  rewrite !rev_app_distr, !rev_involutive. cbn [rev app].
  destruct (chain_path Node3d.GetX Node3d.GetXs current); [discriminate|].
  destruct (chain_path Node3d.GetY Node3d.GetYs current); [discriminate|].
  destruct (chain_path Node3d.GetPhi Node3d.GetPhis current); [discriminate|].
  cbn in Hhx, Hhy, Hhp |- *. congruence.
Qed.

Lemma make_single x y phi XY n :
  Node3d.make [x] [y] [phi] XY = Done n ->
  node_pose n = (x, y, phi) /\ Node3d.GetPreNode n = None /\
  Node3d.GetTrajCost n = 0%float /\ Node3d.heuristic_cost_ n = 0%float.
Proof. cbn. intros [= <-]. repeat split. Qed.

(** Everything the search keeps between two rounds, from the state [Plan]
    sets up. *)
Lemma reachable_all cfg self sx sy sphi ex ey ephi XYbounds obstacles s0 s :
  Plan_setup self sx sy sphi ex ey ephi XYbounds obstacles = Done (true, s0) ->
  reachable cfg s0 s ->
  exists start goal,
    Node3d.make [sx] [sy] [sphi] XYbounds = Done start /\
    Node3d.make [ex] [ey] [ephi] XYbounds = Done goal /\
    start_node_ s = Some start /\ end_node_ s = Some goal /\
    XYbounds_ s = XYbounds /\
    Plan_inv s /\ Search_inv cfg start s.
Proof.
  intros Hsetup Hreach.
  destruct (Plan_setup_search_inv cfg _ _ _ _ _ _ _ _ _ _ Hsetup)
    as (start & Hst & Hmk & Hinv).
  destruct (Plan_setup_start _ _ _ _ _ _ _ _ _ _ Hsetup)
    as (segs & start' & goal & _ & Hmk' & Hgoal & Hs0).
  assert (start' = start) as -> by congruence.
  destruct (reachable_frame cfg s0 s Hreach)
    as [(HXY & _ & Hstart & Hend & _) _].
  destruct (reachable_search_inv cfg start s0 s
              (Plan_setup_inv _ _ _ _ _ _ _ _ _ _ Hsetup) Hinv Hreach)
    as [Hp Hs].
  exists start, goal. rewrite Hstart, Hend, HXY, Hs0. cbn.
  split; [exact Hmk|]. split; [exact Hgoal|]. do 3 (split; [reflexivity|]).
  split; assumption.
Qed.

(** X3: between two rounds of the search, every node of the open set hangs
    off the start node by a linked parent chain, is stored under its own
    index, and reconstructs without failing the size check: its path
    begins at the start pose given to [Plan] and ends at the node's own
    pose. *)
Theorem Plan_stored_nodes_reconstruct cfg self sx sy sphi ex ey ephi XYbounds
    obstacles s0 s id n :
  Plan_setup self sx sy sphi ex ey ephi XYbounds obstacles = Done (true, s0) ->
  reachable cfg s0 s ->
  open_set_ s !! id = Some n ->
  linked n /\ Node3d.GetIndex n = id /\
  node_pose (chain_root n) = (sx, sy, sphi) /\
  exists px py pphi,
    GetResult_path n = Some (px, py, pphi) /\
    (head px, head py, head pphi) = (Some sx, Some sy, Some sphi) /\
    (last px, last py, last pphi) =
    (Some (Node3d.GetX n), Some (Node3d.GetY n), Some (Node3d.GetPhi n)).
Proof.
  intros Hsetup Hreach Hn.
  destruct (reachable_all cfg _ _ _ _ _ _ _ _ _ _ _ Hsetup Hreach)
    as (start & goal & Hmk & _ & _ & _ & _ & Hp & Hs).
  destruct (sinv_linked cfg start s Hs _ _ Hn) as [Hl Hroot].
  destruct (make_single _ _ _ _ _ Hmk) as ([= Hx Hy Hphi] & _).
  split; [exact Hl|]. split; [exact (inv_index s Hp _ _ Hn)|].
  split; [rewrite Hroot; unfold node_pose; congruence|].
  eexists _, _, _. split; [apply GetResult_path_chain, Hl|].
  rewrite !chain_path_head by exact Hl. rewrite Hroot.
  destruct (chain_path_last n Hl) as (-> & -> & ->).
  split; congruence.
Qed.

(** X4: between two rounds, the costs of every stored node are the ones
    [CalculateNodeCost] gave it from its parent: the start node has zero
    costs; any other node has a parent that is stored and closed, its
    trajectory cost is the parent's plus the edge cost, and its heuristic
    cost is the grid value of its final position. Costs are never
    revised. *)
Theorem Plan_costs_accumulate cfg self sx sy sphi ex ey ephi XYbounds
    obstacles s0 s id n :
  Plan_setup self sx sy sphi ex ey ephi XYbounds obstacles = Done (true, s0) ->
  reachable cfg s0 s ->
  open_set_ s !! id = Some n ->
  match Node3d.GetPreNode n with
  | None =>
      node_pose n = (sx, sy, sphi) /\
      Node3d.GetTrajCost n = 0%float /\ Node3d.heuristic_cost_ n = 0%float
  | Some p =>
      open_set_ s !! Node3d.GetIndex p = Some p /\
      close_set_ s !! Node3d.GetIndex p = Some p /\
      Node3d.GetTrajCost n
      = (Node3d.GetTrajCost p + TrajCost cfg p n)%float /\
      Node3d.heuristic_cost_ n
      = (0 + CheckDpMap (dp_map_ s0) (Node3d.GetX n) (Node3d.GetY n))%float
  end.
Proof.
  intros Hsetup Hreach Hn.
  destruct (reachable_all cfg _ _ _ _ _ _ _ _ _ _ _ Hsetup Hreach)
    as (start & goal & Hmk & _ & _ & _ & _ & Hp & Hs).
  destruct (reachable_frame cfg s0 s Hreach) as [(_ & _ & _ & _ & Hdp) _].
  destruct (Node3d.GetPreNode n) as [p|] eqn:Hpre.
  - destruct (sinv_parent cfg start s Hs _ _ _ Hn Hpre) as [Ho Hc].
    destruct (sinv_cost cfg start s Hs _ _ _ Hn Hpre) as [Ht Hh].
    rewrite <- Hdp. done.
  - rewrite (sinv_root cfg start s Hs _ _ Hn Hpre).
    destruct (make_single _ _ _ _ _ Hmk) as (? & _ & ? & ?). done.
Qed.

(** X5: between two rounds, every queue entry names a stored node and
    carries exactly that node's total cost, and the node is stored under
    the index the entry names. *)
Theorem Plan_queue_costs cfg self sx sy sphi ex ey ephi XYbounds obstacles
    s0 s id c :
  Plan_setup self sx sy sphi ex ey ephi XYbounds obstacles = Done (true, s0) ->
  reachable cfg s0 s ->
  (id, c) ∈ open_pq_ s ->
  exists n, open_set_ s !! id = Some n /\ Node3d.GetIndex n = id /\
            Node3d.GetCost n = c /\ close_set_ s !! id = None.
Proof.
  intros Hsetup Hreach Hin.
  destruct (reachable_all cfg _ _ _ _ _ _ _ _ _ _ _ Hsetup Hreach)
    as (start & goal & _ & _ & _ & _ & _ & Hp & Hs).
  destruct (sinv_queue_cost cfg start s Hs _ _ Hin) as (n & Hn & Hc).
  exists n. split; [exact Hn|]. split; [exact (inv_index s Hp _ _ Hn)|].
  split; [exact Hc|].
  destruct (close_set_ s !! id) eqn:Hcl; [|reflexivity]. exfalso.
  eapply (queue_disjoint_expanded s id Hp).
  - apply list_elem_of_In, in_map_iff. exists (id, c).
    split; [reflexivity|by apply list_elem_of_In].
  - apply (inv_closed s Hp). rewrite Hcl. eauto.
Qed.

(** X6: between two rounds, the keys of the closed set are exactly the
    indices popped so far, and every closed node is the node the open set
    stores under the same index. *)
Theorem Plan_closed_is_expanded cfg self sx sy sphi ex ey ephi XYbounds
    obstacles s0 s :
  Plan_setup self sx sy sphi ex ey ephi XYbounds obstacles = Done (true, s0) ->
  reachable cfg s0 s ->
  (forall id, is_Some (close_set_ s !! id) <-> id ∈ expanded_ s) /\
  (forall id n, close_set_ s !! id = Some n ->
     open_set_ s !! id = Some n /\ Node3d.GetIndex n = id).
Proof.
  intros Hsetup Hreach.
  destruct (reachable_all cfg _ _ _ _ _ _ _ _ _ _ _ Hsetup Hreach)
    as (start & goal & _ & _ & _ & _ & _ & Hp & Hs).
  split.
  - intros id. split; [apply (inv_closed s Hp)|].
    apply (sinv_expanded_closed cfg start s Hs).
  - intros id n Hn.
    pose proof (sinv_closed_open cfg start s Hs _ _ Hn) as Ho.
    split; [exact Ho|exact (inv_index s Hp _ _ Ho)].
Qed.

(** X7: when a round ends the search, the final node holds the whole
    Reeds-Shepp curve found from the node just popped, that node is its
    parent, the final node is in the closed set, and the path
    reconstructed from it is the path to the popped node followed by the
    curve without its first pose; it starts at the start pose. *)
Theorem Plan_final_node cfg self sx sy sphi ex ey ephi XYbounds obstacles
    s0 s fuel s' :
  Plan_setup self sx sy sphi ex ey ephi XYbounds obstacles = Done (true, s0) ->
  reachable cfg s0 s ->
  Plan_iteration fuel cfg s = Done (true, s') ->
  exists id c current rsp final,
    pq_top (open_pq_ s) = Some (id, c) /\
    open_set_ s !! id = Some current /\
    ShortestRSP (node_pose current) (ex, ey, ephi) = Some rsp /\
    final_node_ s' = Some final /\
    Node3d.GetPreNode final = Some current /\
    (Node3d.GetXs final, Node3d.GetYs final, Node3d.GetPhis final)
    = (rs_x rsp, rs_y rsp, rs_phi rsp) /\
    is_Some (close_set_ s' !! Node3d.GetIndex final) /\
    GetResult_path final =
    Some (chain_path Node3d.GetX Node3d.GetXs current ++ tail (rs_x rsp),
          chain_path Node3d.GetY Node3d.GetYs current ++ tail (rs_y rsp),
          chain_path Node3d.GetPhi Node3d.GetPhis current
            ++ tail (rs_phi rsp)) /\
    (head (chain_path Node3d.GetX Node3d.GetXs current),
     head (chain_path Node3d.GetY Node3d.GetYs current),
     head (chain_path Node3d.GetPhi Node3d.GetPhis current))
    = (Some sx, Some sy, Some sphi).
Proof.
  intros Hsetup Hreach Hstep.
  destruct (reachable_all cfg _ _ _ _ _ _ _ _ _ _ _ Hsetup Hreach)
    as (start & goal & Hmk & Hmkg & _ & Hend & _ & Hp & Hs).
  unfold Plan_iteration in Hstep.
  destruct (pq_top (open_pq_ s)) as [[id c]|] eqn:Htop; [|discriminate].
  cbn [open_set_ pq_take] in Hstep.
  destruct (open_set_ s !! id) as [current|] eqn:Hcur; [|discriminate].
  destruct (AnalyticExpansion (pq_take id s) current) as [[found s1]| |]
    eqn:Hae; cbn [mbind res_bind] in Hstep; try discriminate.
  destruct found.
  2:{ destruct (for_loop _ _ _ _); cbn [mbind res_bind] in Hstep;
      discriminate. }
  injection Hstep as <-.
  apply AnalyticExpansion_true in Hae
    as (goal' & rsp & made & Hg & Hrsp & Hmade & _ & ->).
  cbn [end_node_ pq_take] in Hg. assert (goal' = goal) as -> by congruence.
  destruct (make_single _ _ _ _ _ Hmkg) as (Hgoal & _).
  destruct (make_single _ _ _ _ _ Hmk) as ([= Hx Hy Hphi] & _).
  rewrite Hgoal in Hrsp.
  destruct (sinv_linked cfg start s Hs _ _ Hcur) as [Hl Hroot].
  apply make_Done in Hmade
    as (x & y & phi & Lx & Ly & Lphi & Hly & Hlphi & ->).
  exists id, c, current, rsp, (Node3d.SetPre current
    (Node3d.Build (rs_x rsp) (rs_y rsp) (rs_phi rsp) x y phi
       (vsize (rs_x rsp))
       (ComputeStringIndex x y phi (XYbounds_ (pq_take id s)))
       0 0 0 true None)).
  split; [reflexivity|]. split; [exact Hcur|]. split; [exact Hrsp|].
  split; [reflexivity|]. split; [reflexivity|]. split; [reflexivity|].
  split.
  { cbn. unfold umap_insert.
    destruct (close_set_ s !! _) eqn:Hc; [rewrite Hc; eauto|].
    rewrite lookup_insert_eq. eauto. }
  split.
  - rewrite GetResult_path_hung; [reflexivity|exact Hl|..]; cbn;
      intros Hnil; rewrite Hnil in *; discriminate.
  - rewrite !chain_path_head by exact Hl. rewrite Hroot. congruence.
Qed.

End SearchResults.

(** ** What the speed profiles do to a result *)

Section ProfileEffects.
Context `{E : Externals}.

Lemma load_velocity_any cfg i r r' :
  load_velocity cfg i r = Done r' -> exists a, r' = set_v (r_v r ++ [a]) r.
Proof.
  unfold load_velocity.
  destruct (discrete_v_at cfg r i) as [a| |]; try discriminate.
  intros [= <-]. eauto.
Qed.

Lemma load_acceleration_any cfg i r r' :
  load_acceleration cfg i r = Done r' ->
  exists a, r' = set_a (r_a r ++ [a]) r.
Proof.
  unfold load_acceleration.
  destruct (vec_at (r_v r) (i + 1)) as [v1| |]; try discriminate.
  destruct (vec_at (r_v r) i) as [v0| |]; try discriminate.
  intros [= <-]. eauto.
Qed.

Lemma load_steering_any cfg i r r' :
  load_steering cfg i r = Done r' ->
  exists a, r' = set_steer (r_steer r ++ [a]) r.
Proof.
  unfold load_steering.
  destruct (vec_at (r_phi r) (i + 1)) as [p1| |]; try discriminate.
  destruct (vec_at (r_phi r) i) as [p0| |]; try discriminate.
  cbn [mbind res_bind].
  destruct (vec_at (r_v r) i) as [vi| |]; try discriminate.
  intros [= <-]. eauto.
Qed.

Lemma load_reference_any cfg i acc r acc' r' :
  load_reference cfg i (acc, r) = Done (acc', r') ->
  exists a b,
    r' = set_accumulated_s (r_accumulated_s r ++ [b]) (set_v (r_v r ++ [a]) r).
Proof.
  unfold load_reference.
  destruct (discrete_v_at cfg r i) as [a| |]; try discriminate.
  intros [= <- <-]. eauto.
Qed.

Lemma load_velocity_loop_any cfg k : forall i r r',
  for_loop k i (load_velocity cfg) r = Done r' ->
  exists V, length V = k /\ r' = set_v (r_v r ++ V) r.
Proof.
  induction k as [|k IH]; intros i r r' Hrun.
  - injection Hrun as <-. exists []. rewrite app_nil_r.
    destruct r; done.
  - rewrite for_loop_S in Hrun.
    destruct (load_velocity cfg i r) as [r1| |] eqn:Hs; try discriminate.
    apply load_velocity_any in Hs as (a & ->).
    cbn [mbind res_bind] in Hrun. apply IH in Hrun as (V & HV & ->).
    exists (a :: V). split; [cbn; lia|]. cbn. rewrite <- app_assoc. done.
Qed.

Lemma load_acceleration_loop_any cfg k : forall i r r',
  for_loop k i (load_acceleration cfg) r = Done r' ->
  exists A, length A = k /\ r' = set_a (r_a r ++ A) r.
Proof.
  induction k as [|k IH]; intros i r r' Hrun.
  - injection Hrun as <-. exists []. rewrite app_nil_r.
    destruct r; done.
  - rewrite for_loop_S in Hrun.
    destruct (load_acceleration cfg i r) as [r1| |] eqn:Hs; try discriminate.
    apply load_acceleration_any in Hs as (a & ->).
    cbn [mbind res_bind] in Hrun. apply IH in Hrun as (A & HA & ->).
    exists (a :: A). split; [cbn; lia|]. cbn. rewrite <- app_assoc. done.
Qed.

Lemma load_steering_loop_any cfg k : forall i r r',
  for_loop k i (load_steering cfg) r = Done r' ->
  exists S, length S = k /\ r' = set_steer (r_steer r ++ S) r.
Proof.
  induction k as [|k IH]; intros i r r' Hrun.
  - injection Hrun as <-. exists []. rewrite app_nil_r.
    destruct r; done.
  - rewrite for_loop_S in Hrun.
    destruct (load_steering cfg i r) as [r1| |] eqn:Hs; try discriminate.
    apply load_steering_any in Hs as (a & ->).
    cbn [mbind res_bind] in Hrun. apply IH in Hrun as (S & HS & ->).
    exists (a :: S). split; [cbn; lia|]. cbn. rewrite <- app_assoc. done.
Qed.

Lemma load_reference_loop_any cfg k : forall i acc r acc' r',
  for_loop k i (load_reference cfg) (acc, r) = Done (acc', r') ->
  exists V S, length V = k /\ length S = k /\
    r' = set_accumulated_s (r_accumulated_s r ++ S) (set_v (r_v r ++ V) r).
Proof.
  induction k as [|k IH]; intros i acc r acc' r' Hrun.
  - injection Hrun as <- <-. exists [], []. rewrite !app_nil_r.
    destruct r; done.
  - rewrite for_loop_S in Hrun.
    destruct (load_reference cfg i (acc, r)) as [[acc1 r1]| |] eqn:Hs;
      try discriminate.
    apply load_reference_any in Hs as (a & b & ->).
    cbn [mbind res_bind] in Hrun. apply IH in Hrun as (V & S & HV & HS & ->).
    exists (a :: V), (b :: S). split; [cbn; lia|]. split; [cbn; lia|].
    cbn. rewrite <- !app_assoc. done.
Qed.

(** What a successful finite-difference profile leaves. *)
Lemma GenerateSpeedAcceleration_true cfg r r' :
  GenerateSpeedAcceleration cfg r = Done (true, r') ->
  exists V A S,
    length V = length (r_x r) /\
    length A = (length (r_x r) - 1)%nat /\
    length S = (length (r_x r) - 1)%nat /\
    (2 <= length (r_x r))%nat /\
    r' = set_steer (r_steer r ++ S) (set_a (r_a r ++ A) (set_v (r_v r ++ V) r)).
Proof.
  unfold GenerateSpeedAcceleration, vsize.
  destruct (Z.ltb_spec (Z.of_nat (length (r_x r))) 2); [discriminate|].
  cbn [orb].
  destruct (_ || _); [discriminate|].
  unfold pairs_count.
  replace (Z.to_nat (Z.of_nat (length (r_x r)) - 1))
    with (length (r_x r) - 1)%nat by lia.
  destruct (for_loop _ 0 (load_velocity cfg) r) as [r1| |] eqn:H1;
    cbn [mbind res_bind]; try discriminate.
  apply load_velocity_loop_any in H1 as (V & HV & ->).
  destruct (for_loop _ 0 (load_acceleration cfg) _) as [r2| |] eqn:H2;
    cbn [mbind res_bind]; try discriminate.
  apply load_acceleration_loop_any in H2 as (A & HA & ->).
  destruct (for_loop _ 0 (load_steering cfg) _) as [r3| |] eqn:H3;
    cbn [mbind res_bind]; try discriminate.
  apply load_steering_loop_any in H3 as (S & HS & ->).
  intros [= <-]. exists (V ++ [0%float]), A, S.
  rewrite length_app, HV. cbn. split; [lia|]. split; [exact HA|].
  split; [exact HS|]. split; [lia|]. rewrite <- app_assoc. reflexivity.
Qed.

Lemma SCurveProblem_frame cfg r qp r1 :
  SCurveProblem cfg r = Done (qp, r1) ->
  exists v acc, r1 = set_accumulated_s acc (set_v v r).
Proof.
  unfold SCurveProblem.
  destruct (for_loop _ _ _ _) as [[acc r0]| |] eqn:Hloop;
    cbn [mbind res_bind]; try discriminate.
  apply load_reference_loop_any in Hloop as (V & S & _ & _ & ->).
  destruct (vec_set _ _ _) as [v| |]; cbn [mbind res_bind]; try discriminate.
  repeat (match goal with
          | |- context [match ?m with Done _ => _ | _ => _ end] =>
              destruct m; cbn [mbind res_bind]; try discriminate
          | |- context [?m ≫= _] =>
              destruct m; cbn [mbind res_bind]; try discriminate
          end).
  intros [= <- <-]. eexists _, _. reflexivity.
Qed.

(** What a successful s-curve profile leaves. *)
Lemma GenerateSCurveSpeedAcceleration_true cfg r r' :
  GenerateSCurveSpeedAcceleration cfg r = Done (true, r') ->
  exists acc v a S,
    length S = (length (r_x r) - 1)%nat /\
    (2 <= length (r_x r))%nat /\
    r' = set_steer (r_steer r ++ S)
           (set_a a (set_v v (set_accumulated_s acc r))).
Proof.
  unfold GenerateSCurveSpeedAcceleration, vsize.
  destruct (Z.ltb_spec (Z.of_nat (length (r_x r))) 2); [discriminate|].
  cbn [orb].
  destruct (_ || _); [discriminate|].
  destruct (SCurveProblem cfg r) as [[qp r1]| |] eqn:Hqp;
    cbn [mbind res_bind]; try discriminate.
  apply SCurveProblem_frame in Hqp as (v0 & acc0 & ->).
  destruct (Optimize qp) as [sol|]; [|discriminate].
  destruct (vec_pop_back _) as [a| |]; cbn [mbind res_bind];
    try discriminate.
  unfold pairs_count.
  replace (Z.to_nat (Z.of_nat (length (r_x r)) - 1))
    with (length (r_x r) - 1)%nat by lia.
  destruct (for_loop _ _ _ _) as [r3| |] eqn:H3; cbn [mbind res_bind];
    try discriminate.
  apply load_steering_loop_any in H3 as (S & HS & ->).
  intros [= <-]. exists (qp_x sol), (qp_x_derivative sol), a, S.
  split; [exact HS|]. split; [lia|]. destruct r; reflexivity.
Qed.

End ProfileEffects.

(** ** GetResult and Plan as a whole *)

Section Outcome.
Context `{E : Externals}.

Lemma result_sizes_ok_true r :
  result_sizes_ok r = true ->
  length (r_y r) = length (r_x r) /\ length (r_v r) = length (r_x r) /\
  length (r_phi r) = length (r_x r) /\ length (r_steer r) = length (r_a r) /\
  size_sub (vsize (r_x r)) (vsize (r_a r)) = 1%Z.
Proof.
  unfold result_sizes_ok, vsize.
  rewrite andb_true_iff, !negb_true_iff, !orb_false_iff, !negb_false_iff.
  rewrite !Z.eqb_eq. intros [[[? ?] ?] [? ?]]. repeat split; lia.
Qed.

Lemma GetResult_true cfg self result r :
  GetResult cfg self result = Done (true, r) ->
  exists final S,
    final_node_ self = Some final /\
    GetResult_path final = Some (r_x r, r_y r, r_phi r) /\
    r_steer r = r_steer result ++ S /\
    length S = (length (r_x r) - 1)%nat /\
    (2 <= length (r_x r))%nat /\
    result_sizes_ok r = true.
Proof.
  unfold GetResult.
  destruct (final_node_ self) as [final|]; [|discriminate].
  destruct (GetResult_path final) as [[[px py] pphi]|] eqn:Hpath;
    [|discriminate].
  destruct (FLAGS_use_s_curve_speed_smooth cfg).
  - destruct (GenerateSCurveSpeedAcceleration _ _) as [[ok r1]| |] eqn:Hg;
      cbn [mbind res_bind]; try discriminate.
    destruct ok; cbn [negb]; [|discriminate].
    apply GenerateSCurveSpeedAcceleration_true in Hg
      as (acc & v & a & S & HS & HN & ->).
    intros [= Hok <-]. exists final, S. cbn in *. done.
  - destruct (GenerateSpeedAcceleration _ _) as [[ok r1]| |] eqn:Hg;
      cbn [mbind res_bind]; try discriminate.
    destruct ok; cbn [negb]; [|discriminate].
    apply GenerateSpeedAcceleration_true in Hg
      as (V & A & S & HV & HA & HS & HN & ->).
    intros [= Hok <-]. exists final, S. cbn in *. done.
Qed.

Lemma Plan_true rounds fuel cfg self sx sy sphi ex ey ephi XYbounds obstacles
    result s r :
  Plan rounds fuel cfg self sx sy sphi ex ey ephi XYbounds obstacles result
  = Done (true, s, r) ->
  GetResult cfg s result = Done (true, r).
Proof.
  unfold Plan.
  destruct (Plan_setup _ _ _ _ _ _ _ _ _) as [[ok s0]| |];
    cbn [mbind res_bind]; try discriminate.
  destruct ok; cbn [negb]; [|discriminate].
  destruct (Plan_search _ _ _ _) as [s1| |]; cbn [mbind res_bind];
    try discriminate.
  destruct (final_node_ s1); [|discriminate].
  destruct (GetResult cfg s1 result) as [[ok r1]| |] eqn:Hg;
    cbn [mbind res_bind]; try discriminate.
  intros [= -> <- <-]. exact Hg.
Qed.

(** X8: whenever [Plan] returns true, the planner holds a final node, the
    x, y and phi of the result are the path reconstructed from it (at least
    two poses), and the sizes obey the rule of the result:
    |x| = |y| = |phi| = |v|, |a| = |steer|, and |x| - |a| = 1 in size_t. *)
Theorem Plan_true_result rounds fuel cfg self sx sy sphi ex ey ephi XYbounds
    obstacles result s r :
  Plan rounds fuel cfg self sx sy sphi ex ey ephi XYbounds obstacles result
  = Done (true, s, r) ->
  (exists final,
     final_node_ s = Some final /\
     GetResult_path final = Some (r_x r, r_y r, r_phi r)) /\
  (2 <= length (r_x r))%nat /\
  length (r_y r) = length (r_x r) /\ length (r_v r) = length (r_x r) /\
  length (r_phi r) = length (r_x r) /\ length (r_steer r) = length (r_a r) /\
  size_sub (vsize (r_x r)) (vsize (r_a r)) = 1%Z.
Proof.
  intros Hplan. apply Plan_true in Hplan.
  apply GetResult_true in Hplan as (final & S & Hf & Hp & _ & _ & HN & Hok).
  split; [eauto|]. split; [exact HN|]. by apply result_sizes_ok_true.
Qed.

(** X9: [Plan] appends to the steer vector of the result it is given and
    never clears it: called with a result whose steer is not empty, it
    never returns true, in either profile mode. *)
Theorem Plan_needs_empty_steer rounds fuel cfg self sx sy sphi ex ey ephi
    XYbounds obstacles result s r :
  r_steer result <> [] ->
  (vsize (r_steer result) < SIZE_MOD)%Z ->
  Plan rounds fuel cfg self sx sy sphi ex ey ephi XYbounds obstacles result
  <> Done (true, s, r).
Proof.
  intros Hne Hsize Hplan. apply Plan_true in Hplan.
  apply GetResult_true in Hplan as (final & S & _ & _ & Hst & HS & HN & Hok).
  apply result_sizes_ok_true in Hok as (_ & _ & _ & Hsa & Hsub).
  rewrite Hst, length_app, HS in Hsa.
  unfold size_sub, size_wrap, vsize, SIZE_MOD in *. rewrite <- Hsa in Hsub.
  assert (Hpos : (1 <= length (r_steer result))%nat)
    by (destruct (r_steer result); [done|cbn; lia]).
  replace (Z.of_nat (length (r_x r)) -
           Z.of_nat (length (r_steer result) + (length (r_x r) - 1)))%Z
    with (1 - Z.of_nat (length (r_steer result)))%Z in Hsub by lia.
  destruct (Z.eq_dec (Z.of_nat (length (r_steer result))) 1%Z) as [H1|H1].
  - rewrite H1 in Hsub. discriminate.
  - rewrite <- (Z_mod_plus_full _ 1%Z) in Hsub.
    rewrite Z.mod_small in Hsub by lia. lia.
Qed.

(** X10: when [Plan] ends without a final node (invalid start or end, or
    an exhausted queue), it returns false and hands the result back
    untouched. *)
Theorem Plan_without_final_node rounds fuel cfg self sx sy sphi ex ey ephi
    XYbounds obstacles result b s r :
  Plan rounds fuel cfg self sx sy sphi ex ey ephi XYbounds obstacles result
  = Done (b, s, r) ->
  final_node_ s = None ->
  b = false /\ r = result.
Proof.
  unfold Plan.
  destruct (Plan_setup _ _ _ _ _ _ _ _ _) as [[ok s0]| |];
    cbn [mbind res_bind]; try discriminate.
  destruct ok; cbn [negb]; [|intros [= <- <- <-]; done].
  destruct (Plan_search _ _ _ _) as [s1| |]; cbn [mbind res_bind];
    try discriminate.
  destruct (final_node_ s1) eqn:Hf; [|intros [= <- <- <-]; done].
  destruct (GetResult cfg s1 result) as [[ok r1]| |]; cbn [mbind res_bind];
    try discriminate.
  intros [= <- <- <-] Hnone. congruence.
Qed.

End Outcome.


(** ** Only validated nodes are stored *)

Section StoredValid.
Context `{E : Externals}.

Lemma ValidityCheck_loop_frame s s' tx ty tphi n : forall i,
  XYbounds_ s' = XYbounds_ s ->
  obstacles_linesegments_vec_ s' = obstacles_linesegments_vec_ s ->
  ValidityCheck_loop s' tx ty tphi n i = ValidityCheck_loop s tx ty tphi n i.
Proof.
  induction n as [|n IH]; intros i HXY Hobs; [reflexivity|].
  cbn [ValidityCheck_loop]. rewrite HXY, Hobs, IH by assumption.
  reflexivity.
Qed.

Lemma ValidityCheck_frame s s' node :
  XYbounds_ s' = XYbounds_ s ->
  obstacles_linesegments_vec_ s' = obstacles_linesegments_vec_ s ->
  ValidityCheck s' node = ValidityCheck s node.
Proof.
  intros HXY Hobs. unfold ValidityCheck. rewrite Hobs.
  destruct (obstacles_linesegments_vec_ s) eqn:Ho; [reflexivity|].
  apply ValidityCheck_loop_frame; congruence.
Qed.

Lemma ValidityCheck_same_problem s s' node :
  same_problem s s' -> ValidityCheck s' node = ValidityCheck s node.
Proof. intros (HXY & Hobs & _). by apply ValidityCheck_frame. Qed.

Lemma ValidityCheck_SetPre s p node :
  ValidityCheck s (Node3d.SetPre p node) = ValidityCheck s node.
Proof. destruct node; reflexivity. Qed.

Lemma ValidityCheck_costs cfg s t current node :
  ValidityCheck s (CalculateNodeCost cfg t current node)
  = ValidityCheck s node.
Proof. destruct node; reflexivity. Qed.

Lemma stored_valid_frame s s' :
  open_set_ s' = open_set_ s -> XYbounds_ s' = XYbounds_ s ->
  obstacles_linesegments_vec_ s' = obstacles_linesegments_vec_ s ->
  stored_valid s -> stored_valid s'.
Proof.
  intros Ho HXY Hobs Hinv id n Hn. rewrite Ho in Hn.
  rewrite (ValidityCheck_frame s s' n HXY Hobs). by eapply Hinv.
Qed.

Lemma Plan_setup_valid self sx sy sphi ex ey ephi XYbounds obstacles s0 :
  Plan_setup self sx sy sphi ex ey ephi XYbounds obstacles = Done (true, s0) ->
  stored_valid s0.
Proof.
  unfold Plan_setup.
  destruct (for_each obstacle_segments obstacles) as [segs| |];
    try discriminate.
  cbn [mbind res_bind Node3d.make length Nat.eqb andb negb vec_back last].
  set (start := Node3d.Build _ _ _ _ _ _ _ _ _ _ _ _ _).
  set (goal := Node3d.Build _ _ _ _ _ _ _ _ _ _ _ _ _).
  destruct (ValidityCheck _ start) as [[]| |] eqn:Hv; try discriminate.
  cbn [mbind res_bind negb].
  destruct (ValidityCheck _ goal) as [[]| |]; try discriminate.
  cbn [mbind res_bind negb]. intros [= <-] id n Hn.
  cbn in Hn. apply umap_insert_lookup in Hn as [Hn|(_ & -> & _)];
    [rewrite lookup_empty in Hn; discriminate|].
  rewrite <- Hv. by apply ValidityCheck_frame.
Qed.

Lemma Plan_successor_valid fuel cfg current i s s' :
  stored_valid s -> Plan_successor fuel cfg current i s = Done s' ->
  stored_valid s'.
Proof.
  intros Hinv Hstep.
  pose proof (Plan_successor_frame _ _ _ _ _ _ Hstep) as (Hsame & _).
  revert Hstep. unfold Plan_successor.
  destruct (Next_node_generator fuel cfg s current i) as [[next|]| |];
    cbn [mbind res_bind]; try discriminate; [|intros [= <-]; exact Hinv].
  destruct (close_set_ s !! Node3d.GetIndex next);
    [intros [= <-]; exact Hinv|].
  destruct (ValidityCheck s next) as [[]| |] eqn:Hv; cbn [mbind res_bind negb];
    try discriminate; [|intros [= <-]; exact Hinv].
  destruct (open_set_ s !! Node3d.GetIndex next);
    [intros [= <-]; exact Hinv|].
  intros Hs' id n Hn. rewrite (ValidityCheck_same_problem s s' n Hsame).
  injection Hs' as <-. cbn in Hn.
  apply umap_insert_lookup in Hn as [Hn|(_ & -> & _)]; [by eapply Hinv|].
  rewrite ValidityCheck_costs. exact Hv.
Qed.

Lemma Plan_iteration_valid fuel cfg s b s' :
  stored_valid s -> Plan_iteration fuel cfg s = Done (b, s') ->
  stored_valid s'.
Proof.
  intros Hinv. unfold Plan_iteration.
  destruct (pq_top (open_pq_ s)) as [[id c]|]; [|discriminate].
  cbn [open_set_ pq_take].
  destruct (open_set_ s !! id) as [current|]; [|discriminate].
  destruct (AnalyticExpansion (pq_take id s) current) as [[found s1]| |]
    eqn:Hae; cbn [mbind res_bind]; try discriminate.
  destruct found.
  - intros [= <- <-].
    apply AnalyticExpansion_true in Hae as (? & ? & ? & _ & _ & _ & _ & ->).
    by apply (stored_valid_frame s).
  - apply AnalyticExpansion_false in Hae. subst s1.
    destruct (for_loop _ _ _ _) as [s2| |] eqn:Hloop; cbn [mbind res_bind];
      try discriminate.
    intros [= <- <-].
    refine (for_loop_preserves stored_valid _ _ _ _ _ _ _ Hloop).
    + intros i a b' Ha Hstep. eapply Plan_successor_valid; eassumption.
    + by apply (stored_valid_frame s).
Qed.

Lemma reachable_valid cfg s0 s :
  stored_valid s0 -> reachable cfg s0 s -> stored_valid s.
Proof.
  intros H0. induction 1 as [|fuel s s' _ IH _ Hstep]; [exact H0|].
  eapply Plan_iteration_valid; eassumption.
Qed.

(** X11: only validated nodes are stored. Between two rounds of the search
    every node of the open set (the start node included) has passed
    [ValidityCheck] against the obstacles and bounds given to [Plan], and
    when a round ends the search, so has the final node with its
    Reeds-Shepp curve. *)
Theorem Plan_nodes_validated cfg self sx sy sphi ex ey ephi XYbounds
    obstacles s0 s :
  Plan_setup self sx sy sphi ex ey ephi XYbounds obstacles = Done (true, s0) ->
  reachable cfg s0 s ->
  (forall id n, open_set_ s !! id = Some n -> ValidityCheck s0 n = Done true) /\
  (forall fuel s' final,
     Plan_iteration fuel cfg s = Done (true, s') ->
     final_node_ s' = Some final -> ValidityCheck s0 final = Done true).
Proof.
  intros Hsetup Hreach.
  pose proof (reachable_valid cfg s0 s (Plan_setup_valid _ _ _ _ _ _ _ _ _ _
                                          Hsetup) Hreach) as Hv.
  destruct (reachable_frame cfg s0 s Hreach) as [Hsame _].
  split.
  - intros id n Hn. rewrite <- (ValidityCheck_same_problem s0 s n Hsame).
    by eapply Hv.
  - intros fuel s' final. unfold Plan_iteration.
    destruct (pq_top (open_pq_ s)) as [[id c]|]; [|discriminate].
    cbn [open_set_ pq_take].
    destruct (open_set_ s !! id) as [current|]; [|discriminate].
    destruct (AnalyticExpansion (pq_take id s) current) as [[found s1]| |]
      eqn:Hae; cbn [mbind res_bind]; try discriminate.
    destruct found.
    2:{ destruct (for_loop _ _ _ _); cbn [mbind res_bind]; discriminate. }
    intros [= <-].
    apply AnalyticExpansion_true in Hae
      as (goal & rsp & made & _ & _ & _ & Hval & ->).
    cbn. intros [= <-]. rewrite ValidityCheck_SetPre, <- Hval.
    rewrite <- (ValidityCheck_same_problem s0 s made Hsame).
    apply ValidityCheck_frame; reflexivity.
Qed.

End StoredValid.


(** ** The s-curve profile on a path that never reverses *)

Section SCurveForward.
Context `{E : Externals}.

Lemma load_reference_loop_v cfg k : forall i acc result,
  length (r_y result) = length (r_x result) ->
  length (r_phi result) = length (r_x result) ->
  (i + k < length (r_x result))%nat ->
  exists acc' S,
    for_loop k (Z.of_nat i) (load_reference cfg) (acc, result) =
    Done (acc',
          set_accumulated_s (r_accumulated_s result ++ S)
            (set_v (r_v result ++
                    map (discrete_v cfg (r_x result) (r_y result)
                           (r_phi result)) (seq i k)) result)) /\
    length S = k.
Proof.
  induction k as [|k IH]; intros i acc result Hy Hphi Hi.
  - exists acc, []. cbn. rewrite !app_nil_r. destruct result; done.
  - assert (Hstep : load_reference cfg (Z.of_nat i) (acc, result) =
      Done ((acc + discrete_v cfg (r_x result) (r_y result) (r_phi result) i
                   * delta_t_ cfg)%float,
            set_accumulated_s
              (r_accumulated_s result ++
               [(acc + discrete_v cfg (r_x result) (r_y result)
                         (r_phi result) i * delta_t_ cfg)%float])
              (set_v (r_v result ++
                      [discrete_v cfg (r_x result) (r_y result)
                         (r_phi result) i]) result))).
    { unfold load_reference. rewrite discrete_v_at_spec by lia. reflexivity. }
    rewrite for_loop_S, Hstep. cbn [mbind res_bind].
    replace (Z.of_nat i + 1)%Z with (Z.of_nat (S i)) by lia.
    edestruct (IH (S i)) as (acc' & S & -> & HS);
      [| |shelve|]; [exact Hy|exact Hphi|].
    eexists acc', (_ :: S).
    cbn [set_accumulated_s set_v r_x r_y r_phi r_v r_a r_steer
         r_accumulated_s length seq map].
    rewrite <- !app_assoc. cbn [app]. split; [reflexivity|lia].
    Unshelve. cbn. lia.
Qed.

Lemma min_element_from_stays v : forall bi b i,
  Forall (fun a => flt a b = false) v -> min_element_from bi b i v = bi.
Proof.
  induction v as [|a v IH]; intros bi b i Hall; [reflexivity|].
  apply Forall_cons in Hall as [Ha Hv]. cbn [min_element_from].
  rewrite Ha. by apply IH.
Qed.

(** X12: on a path that never moves backwards (no finite difference of the
    positions is below zero), of any length, the s-curve profile has no
    defined result: the first minimum of the reference velocities is the
    leading 0.0, and the lower first-order bound is read ten places before
    it, in front of the vector. *)
Theorem GenerateSCurveSpeedAcceleration_forward_path cfg result :
  r_v result = [] -> r_accumulated_s result = [] ->
  length (r_y result) = length (r_x result) ->
  length (r_phi result) = length (r_x result) ->
  (2 <= length (r_x result))%nat ->
  (forall i, (i < length (r_x result) - 1)%nat ->
     flt (discrete_v cfg (r_x result) (r_y result) (r_phi result) i) 0
     = false) ->
  GenerateSCurveSpeedAcceleration cfg result = Undefined.
Proof.
  intros Hv Hs Hy Hphi HN Hfwd.
  unfold GenerateSCurveSpeedAcceleration, vsize. rewrite Hy, Hphi.
  destruct (Z.ltb_spec (Z.of_nat (length (r_x result))) 2); [lia|].
  cbn [orb]. unfold SCurveProblem, pairs_count, vsize.
  set (N := length (r_x result)) in *.
  replace (Z.to_nat (Z.of_nat N - 1)) with (N - 1)%nat by lia.
  edestruct (load_reference_loop_v cfg (N - 1) 0 0%float) as
    (acc' & S & -> & HS); [| |shelve|]; [exact Hy|exact Hphi|].
  cbn [mbind res_bind set_accumulated_s set_v r_x r_y r_phi r_v r_a r_steer
       r_accumulated_s].
  rewrite Hv, Hs. cbn [app].
  set (V := map _ (seq 0 (N - 1))).
  assert (HV : length V = (N - 1)%nat)
    by (unfold V; rewrite length_map, length_seq; reflexivity).
  assert (HallV : Forall (fun a => flt a 0 = false) V).
  { unfold V. apply Forall_forall. intros a Ha.
    apply list_elem_of_In, in_map_iff in Ha as (i & <- & Hi).
    apply in_seq in Hi.
    apply Hfwd. fold N. lia. }
  assert (HlV : length (0%float :: V) = N) by (cbn; lia).
  assert (HlS : length (0%float :: S) = N) by (cbn; lia).
  unfold vec_set.
  destruct (Z.ltb_spec (Z.of_nat N - 1) 0); [lia|].
  destruct (Nat.ltb_spec (Z.to_nat (Z.of_nat N - 1)) (length (0%float :: V)));
    [|lia].
  cbn [mbind res_bind set_accumulated_s set_v r_x r_y r_phi r_v r_a r_steer
       r_accumulated_s].
  set (v := <[Z.to_nat (Z.of_nat N - 1) := 0%float]> (0%float :: V)).
  assert (Hlv : length v = N) by (unfold v; rewrite length_insert; exact HlV).
  assert (Hmin : min_element v = Some 0%nat).
  { unfold v.
    replace (Z.to_nat (Z.of_nat N - 1)) with (Datatypes.S (N - 2)) by lia.
    change (<[Datatypes.S (N - 2) := 0%float]> (0%float :: V))
      with (0%float :: <[(N - 2)%nat := 0%float]> V).
    cbn [min_element]. f_equal. apply min_element_from_stays.
    apply Forall_insert; [exact HallV|reflexivity]. }
  change 0%Z with (Z.of_nat 0). change 1%Z with (Z.of_nat 1).
  rewrite !vec_at_nth by lia.
  replace (Z.of_nat N - Z.of_nat 1)%Z with (Z.of_nat (N - 1)) by lia.
  rewrite vec_at_nth by lia.
  cbn [mbind res_bind].
  destruct (deref_min_defined (0%float :: S) ltac:(discriminate)) as [a ->].
  destruct (deref_max_defined (0%float :: S) ltac:(discriminate)) as [b ->].
  cbn [mbind res_bind].
  unfold first_order_lower_bound. rewrite Hmin. reflexivity.
  Unshelve. cbn. fold N. lia.
Qed.

End SCurveForward.


(** ** GetResult with the finite-difference profile *)

Section FiniteDifferenceResult.
Context `{E : Externals}.

Lemma chain_path_length n :
  linked n ->
  length (chain_path Node3d.GetY Node3d.GetYs n)
  = length (chain_path Node3d.GetX Node3d.GetXs n) /\
  length (chain_path Node3d.GetPhi Node3d.GetPhis n)
  = length (chain_path Node3d.GetX Node3d.GetXs n).
Proof.
  induction 1 as [n Hpre|n p Hpre _ [IHy IHphi] Hwf _ _ _];
    unfold Node3d.GetPreNode in Hpre.
  - destruct n; cbn in Hpre |- *. rewrite Hpre. done.
  - destruct Hwf as [Hly Hlphi _ _ _ _ _ _].
    destruct n as [xs ys phis x y phi st idx tc hc sg dr pre].
    cbn in Hpre, Hly, Hlphi |- *. subst pre.
    rewrite !length_app.
    destruct xs, ys, phis; cbn [tail length] in *; lia.
Qed.

Lemma GenerateSpeedAcceleration_run cfg result :
  length (r_y result) = length (r_x result) ->
  length (r_phi result) = length (r_x result) ->
  (2 <= length (r_x result))%nat ->
  let N := length (r_x result) in
  let v :=
    r_v result ++
    map (discrete_v cfg (r_x result) (r_y result) (r_phi result))
      (seq 0 (N - 1)) ++ [0%float] in
  GenerateSpeedAcceleration cfg result =
  Done (true,
        set_steer (r_steer result ++
                   map (discrete_steer cfg (r_phi result) v) (seq 0 (N - 1)))
          (set_a (r_a result ++ map (discrete_a cfg v) (seq 0 (N - 1)))
             (set_v v result))).
Proof.
  intros Hy Hphi HN N v.
  assert (Hlv : (N <= length v)%nat).
  { unfold v. rewrite !length_app, length_map, length_seq. cbn. lia. }
  unfold GenerateSpeedAcceleration, vsize. rewrite Hy, Hphi.
  destruct (Z.ltb_spec (Z.of_nat (length (r_x result))) 2); [lia|].
  cbn [orb]. unfold pairs_count.
  replace (Z.to_nat (Z.of_nat (length (r_x result)) - 1)) with (N - 1)%nat
    by lia.
  rewrite (load_velocity_loop cfg (N - 1) 0) by (fold N; lia).
  cbn [mbind res_bind set_v r_x r_y r_phi r_v r_a r_steer r_accumulated_s].
  rewrite <- app_assoc. fold N v.
  rewrite (load_acceleration_loop cfg (N - 1) 0) by (cbn; lia).
  cbn [mbind res_bind].
  rewrite (load_steering_loop cfg (N - 1) 0) by (cbn; lia).
  reflexivity.
Qed.

Lemma GetResult_finite_difference_path cfg self result final x y phi :
  FLAGS_use_s_curve_speed_smooth cfg = false ->
  final_node_ self = Some final ->
  GetResult_path final = Some (x, y, phi) ->
  length y = length x -> length phi = length x ->
  (2 <= length x)%nat ->
  r_v result = [] -> r_a result = [] -> r_steer result = [] ->
  let N := length x in
  let v := map (discrete_v cfg x y phi) (seq 0 (N - 1)) ++ [0%float] in
  GetResult cfg self result =
  Done (true,
        Build_HybridAStartResult x y phi v
          (map (discrete_a cfg v) (seq 0 (N - 1)))
          (map (discrete_steer cfg phi v) (seq 0 (N - 1)))
          (r_accumulated_s result)).
Proof.
  intros Hflag Hfinal Hpath Hly Hlphi HN Hv Ha Hs N v.
  unfold GetResult. rewrite Hfinal, Hpath, Hflag.
  rewrite GenerateSpeedAcceleration_run by (cbn; assumption).
  cbn [mbind res_bind negb set_path set_steer set_a set_v r_x r_y r_phi r_v
       r_a r_steer r_accumulated_s].
  rewrite Hv, Ha, Hs. cbn [app]. fold N v.
  f_equal. f_equal.
  unfold result_sizes_ok, vsize.
  cbn [set_path set_steer set_a set_v r_x r_y r_phi r_v r_a r_steer].
  rewrite Hly, Hlphi.
  assert (HN' : (2 <= N)%nat) by exact HN.
  assert (Hlv : length v = N).
  { unfold v. rewrite length_app, length_map, length_seq.
    cbn [length]. lia. }
  rewrite Hlv, !length_map, !length_seq. fold N.
  rewrite !Z.eqb_refl. cbn [negb orb andb].
  unfold size_sub, size_wrap, SIZE_MOD.
  replace (Z.of_nat N - Z.of_nat (N - 1))%Z with 1%Z by lia. reflexivity.
Qed.

(** X13: with the finite-difference profile, a result whose v, a and steer
    are empty, and a final node whose parent chain is linked and whose path
    has at least two poses, [GetResult] returns true: none of its size
    checks can fail. The result holds the reconstructed path, the
    finite-difference velocities closed by 0.0, the accelerations and the
    steering angles, and accumulated_s is left as it was. *)
Theorem GetResult_finite_difference cfg self result final :
  FLAGS_use_s_curve_speed_smooth cfg = false ->
  final_node_ self = Some final ->
  linked final ->
  (2 <= length (chain_path Node3d.GetX Node3d.GetXs final))%nat ->
  r_v result = [] -> r_a result = [] -> r_steer result = [] ->
  let x := chain_path Node3d.GetX Node3d.GetXs final in
  let y := chain_path Node3d.GetY Node3d.GetYs final in
  let phi := chain_path Node3d.GetPhi Node3d.GetPhis final in
  let N := length x in
  let v := map (discrete_v cfg x y phi) (seq 0 (N - 1)) ++ [0%float] in
  GetResult cfg self result =
  Done (true,
        Build_HybridAStartResult x y phi v
          (map (discrete_a cfg v) (seq 0 (N - 1)))
          (map (discrete_steer cfg phi v) (seq 0 (N - 1)))
          (r_accumulated_s result)).
Proof.
  intros Hflag Hfinal Hl HN Hv Ha Hs x y phi N v.
  destruct (chain_path_length final Hl) as [Hly Hlphi].
  apply (GetResult_finite_difference_path cfg self result final x y phi);
    try assumption.
  apply GetResult_path_chain, Hl.
Qed.

End FiniteDifferenceResult.


(** ** The analytic expansion *)

Section AnalyticExpansionProps.
Context `{E : Externals}.

(** X14: [AnalyticExpansion] returns true exactly on a curve that
    [ShortestRSP] finds and [ValidityCheck] accepts. On false the planner
    is unchanged, and the curve, if one was found, was rejected. On true
    the final node holds the poses of the curve, has the current node as
    parent and is indexed by the last pose of the curve; only the final
    node and the closed set change, and the closed set keeps an entry it
    already has under that index, so the final node need not be the closed
    node of its index. *)
Theorem AnalyticExpansion_outcome self current b self' :
  AnalyticExpansion self current = Done (b, self') ->
  if b then
    exists goal rsp final,
      end_node_ self = Some goal /\
      ShortestRSP (node_pose current) (node_pose goal) = Some rsp /\
      final_node_ self' = Some final /\
      Node3d.GetPreNode final = Some current /\
      (Node3d.GetXs final, Node3d.GetYs final, Node3d.GetPhis final)
      = (rs_x rsp, rs_y rsp, rs_phi rsp) /\
      (last (rs_x rsp), last (rs_y rsp), last (rs_phi rsp))
      = (Some (Node3d.GetX final), Some (Node3d.GetY final),
         Some (Node3d.GetPhi final)) /\
      Node3d.GetIndex final
      = ComputeStringIndex (Node3d.GetX final) (Node3d.GetY final)
          (Node3d.GetPhi final) (XYbounds_ self) /\
      ValidityCheck self final = Done true /\
      (forall old, close_set_ self !! Node3d.GetIndex final = Some old ->
         close_set_ self' = close_set_ self) /\
      (close_set_ self !! Node3d.GetIndex final = None ->
         close_set_ self'
         = <[Node3d.GetIndex final := final]> (close_set_ self)) /\
      open_set_ self' = open_set_ self /\
      open_pq_ self' = open_pq_ self /\
      same_problem self self'
  else
    self' = self /\
    forall goal rsp,
      end_node_ self = Some goal ->
      ShortestRSP (node_pose current) (node_pose goal) = Some rsp ->
      RSPCheck self rsp = Done false.
Proof.
  intros Hae. destruct b.
  - apply AnalyticExpansion_true in Hae
      as (goal & rsp & made & Hg & Hrsp & Hmade & Hval & ->).
    apply make_Done in Hmade
      as (x & y & phi & Lx & Ly & Lphi & Hly & Hlphi & ->).
    eexists goal, rsp, _. split; [exact Hg|]. split; [exact Hrsp|].
    split; [reflexivity|]. split; [reflexivity|]. split; [reflexivity|].
    split; [cbn; congruence|]. split; [reflexivity|].
    split; [exact Hval|].
    split; [intros old Hold; cbn in *; unfold umap_insert; by rewrite Hold|].
    split; [intros Hnone; cbn in *; unfold umap_insert; by rewrite Hnone|].
    repeat split.
  - split; [by apply AnalyticExpansion_false in Hae|].
    intros goal rsp Hg Hrsp. revert Hae. unfold AnalyticExpansion.
    rewrite Hg, Hrsp.
    destruct (RSPCheck self rsp) as [[]| |]; cbn [mbind res_bind negb];
      try discriminate; [|reflexivity].
    destruct (LoadRSPinCS self rsp current) as [[]| |];
      cbn [mbind res_bind]; discriminate.
Qed.

End AnalyticExpansionProps.


(** ** The obstacle segments *)

Section ObstacleSegments.
Context `{E : Externals}.

Lemma polyline_nth (d : Vec2d) (vs : list Vec2d) :
  map (fun j => {| seg_start := nth j vs d; seg_end := nth (S j) vs d |})
    (seq 0 (length vs - 1))
  = polyline vs.
Proof.
  destruct vs as [|a vs]; [reflexivity|].
  cbn [length]. rewrite Nat.sub_succ, Nat.sub_0_r. unfold polyline.
  cbn [tail]. revert a.
  induction vs as [|b vs IH]; intros a; [reflexivity|].
  cbn [length seq map zip_with nth]. f_equal.
  rewrite <- seq_shift, map_map. exact (IH b).
Qed.

Lemma for_each_polyline (obstacles : list (list Vec2d)) :
  Forall (fun vs => (1 <= length vs)%nat /\ (vsize vs < SIZE_MOD)%Z)
    obstacles ->
  for_each obstacle_segments obstacles = Done (map polyline obstacles).
Proof.
  induction 1 as [|vs obstacles [Hn Hs] _ IH]; [reflexivity|].
  cbn [for_each map].
  rewrite (obstacle_segments_polyline vs {| vx := 0; vy := 0 |} Hn Hs).
  cbn [mbind res_bind]. rewrite IH, polyline_nth. reflexivity.
Qed.

(** X15: when every obstacle has at least one vertex, [Plan] stores for
    each obstacle, in order, the segments between successive vertices: an
    open polyline of n - 1 segments with no edge from the last vertex back
    to the first, and no segment at all for a single vertex. This holds
    whether or not the start and end poses pass the checks. *)
Theorem Plan_setup_obstacle_segments self sx sy sphi ex ey ephi XYbounds
    obstacles b s :
  Forall (fun vs => (1 <= length vs)%nat /\ (vsize vs < SIZE_MOD)%Z)
    obstacles ->
  Plan_setup self sx sy sphi ex ey ephi XYbounds obstacles = Done (b, s) ->
  obstacles_linesegments_vec_ s = map polyline obstacles /\
  Forall2 (fun vs segs => length segs = (length vs - 1)%nat) obstacles
    (obstacles_linesegments_vec_ s).
Proof.
  intros Hall Hsetup.
  assert (Hsegs : obstacles_linesegments_vec_ s = map polyline obstacles).
  { revert Hsetup. unfold Plan_setup. rewrite (for_each_polyline _ Hall).
    cbn [mbind res_bind Node3d.make length Nat.eqb andb negb vec_back last].
    set (start := Node3d.Build _ _ _ _ _ _ _ _ _ _ _ _ _).
    set (goal := Node3d.Build _ _ _ _ _ _ _ _ _ _ _ _ _).
    destruct (ValidityCheck _ start) as [[]| |]; cbn [mbind res_bind negb];
      try discriminate; [|by intros [= <- <-]].
    destruct (ValidityCheck _ goal) as [[]| |]; cbn [mbind res_bind negb];
      try discriminate; by intros [= <- <-]. }
  split; [exact Hsegs|]. rewrite Hsegs. clear.
  induction obstacles as [|vs obstacles IH]; constructor; [|exact IH].
  unfold polyline. rewrite length_zip_with.
  destruct vs; cbn [tail length]; lia.
Qed.

End ObstacleSegments.


(** ** The path of a successful call *)

Section PlanPath.
Context `{E : Externals}.

Lemma Plan_iteration_true fuel cfg s s' :
  Plan_iteration fuel cfg s = Done (true, s') ->
  exists id c current,
    pq_top (open_pq_ s) = Some (id, c) /\
    open_set_ s !! id = Some current /\
    AnalyticExpansion (pq_take id s) current = Done (true, s').
Proof.
  unfold Plan_iteration.
  destruct (pq_top (open_pq_ s)) as [[id c]|]; [|discriminate].
  cbn [open_set_ pq_take].
  destruct (open_set_ s !! id) as [current|] eqn:Hcur; [|discriminate].
  destruct (AnalyticExpansion (pq_take id s) current) as [[found s1]| |]
    eqn:Hae; cbn [mbind res_bind]; try discriminate.
  destruct found.
  - intros [= <-]. exists id, c, current. done.
  - destruct (for_loop _ _ _ _); cbn [mbind res_bind]; discriminate.
Qed.

Lemma reachable_no_final cfg s0 s :
  final_node_ s0 = None -> reachable cfg s0 s -> final_node_ s = None.
Proof.
  intros H0. induction 1 as [|fuel' t t' _ IH _ Hstep]; [exact H0|].
  revert Hstep. unfold Plan_iteration.
  destruct (pq_top (open_pq_ t)) as [[id c]|]; [|discriminate].
  cbn [open_set_ pq_take].
  destruct (open_set_ t !! id) as [current|]; [|discriminate].
  destruct (AnalyticExpansion (pq_take id t) current) as [[found t1]| |]
    eqn:Hae; cbn [mbind res_bind]; try discriminate.
  destruct found; [discriminate|].
  apply AnalyticExpansion_false in Hae. subst t1.
  destruct (for_loop _ _ _ _) as [t2| |] eqn:Hloop; cbn [mbind res_bind];
    try discriminate.
  intros [= <-].
  refine (for_loop_preserves (fun u => final_node_ u = None)
            _ _ _ _ _ _ _ Hloop); [|exact IH].
  intros i a b Ha Hs.
  apply Plan_successor_frame in Hs as (_ & _ & _ & ->). exact Ha.
Qed.

Lemma Plan_search_final fuel cfg s0 rounds s s' final :
  reachable cfg s0 s -> final_node_ s0 = None ->
  Plan_search rounds fuel cfg s = Done s' ->
  final_node_ s' = Some final ->
  exists s1, reachable cfg s0 s1 /\
             Plan_iteration fuel cfg s1 = Done (true, s').
Proof.
  intros Hreach H0 Hrun Hfinal.
  destruct (Plan_search_reachable fuel cfg s0 rounds s s' Hreach Hrun)
    as [[Hr _]|(s1 & Hr & _ & Hit)]; [|eauto].
  pose proof (reachable_no_final cfg s0 s' H0 Hr). congruence.
Qed.


End PlanPath.


(** ** Plan with the finite-difference profile *)

Section PlanFiniteDifference.
Context `{E : Externals}.

Lemma Plan_setup_false self sx sy sphi ex ey ephi XYbounds obstacles s :
  Plan_setup self sx sy sphi ex ey ephi XYbounds obstacles = Done (false, s) ->
  final_node_ s = None /\ open_set_ s = ∅ /\ open_pq_ s = [].
Proof.
  unfold Plan_setup.
  destruct (for_each obstacle_segments obstacles) as [segs| |];
    try discriminate.
  cbn [mbind res_bind Node3d.make length Nat.eqb andb negb vec_back last].
  set (start := Node3d.Build _ _ _ _ _ _ _ _ _ _ _ _ _).
  set (goal := Node3d.Build _ _ _ _ _ _ _ _ _ _ _ _ _).
  destruct (ValidityCheck _ start) as [[]| |]; try discriminate;
    cbn [mbind res_bind negb]; [|by intros [= <-]].
  destruct (ValidityCheck _ goal) as [[]| |]; try discriminate;
    cbn [mbind res_bind negb]; by intros [= <-].
Qed.

(** X17: with the finite-difference profile and a result whose v, a and
    steer are empty, [Plan] returns true whenever the search ends with a
    final node whose curve has at least two poses: the failure branch of
    [GetResult] is not taken. *)
Theorem Plan_finite_difference_true rounds fuel cfg self sx sy sphi ex ey
    ephi XYbounds obstacles result b s r final :
  FLAGS_use_s_curve_speed_smooth cfg = false ->
  r_v result = [] -> r_a result = [] -> r_steer result = [] ->
  Plan rounds fuel cfg self sx sy sphi ex ey ephi XYbounds obstacles result
  = Done (b, s, r) ->
  final_node_ s = Some final ->
  (2 <= length (Node3d.GetXs final))%nat ->
  b = true /\ length (r_v r) = length (r_x r) /\
  length (r_a r) = (length (r_x r) - 1)%nat /\
  length (r_steer r) = (length (r_x r) - 1)%nat.
Proof.
  intros Hflag Hv Ha Hs. unfold Plan.
  destruct (Plan_setup _ _ _ _ _ _ _ _ _) as [[ok s0]| |] eqn:Hsetup;
    cbn [mbind res_bind]; try discriminate.
  destruct ok; cbn [negb].
  2:{ intros [= <- <- <-] Hf.
      apply Plan_setup_false in Hsetup as (Hnone & _). congruence. }
  destruct (Plan_search _ _ _ _) as [s1| |] eqn:Hsearch; cbn [mbind res_bind];
    try discriminate.
  destruct (final_node_ s1) as [final'|] eqn:Hfinal.
  2:{ intros [= <- <- <-] Hf. congruence. }
  assert (H0 : final_node_ s0 = None).
  { destruct (Plan_setup_start _ _ _ _ _ _ _ _ _ _ Hsetup)
      as (? & ? & ? & _ & _ & _ & ->). reflexivity. }
  destruct (Plan_search_final fuel cfg s0 rounds s0 s1 final'
              (reach_seed _ _) H0 Hsearch Hfinal) as (t & Hreach & Hit).
  destruct (reachable_all cfg _ _ _ _ _ _ _ _ _ _ _ Hsetup Hreach)
    as (start & goal & Hmk & Hmkg & _ & Hend & _ & Hp & Hsi).
  apply Plan_iteration_true in Hit as (id & c & current & _ & Hcur & Hae).
  apply AnalyticExpansion_true in Hae
    as (goal' & rsp & made & Hg & Hrsp & Hmade & _ & Hs1).
  destruct (sinv_linked cfg start t Hsi _ _ Hcur) as [Hl Hroot].
  apply make_Done in Hmade
    as (x & y & phi & Lx & Ly & Lphi & Hly & Hlphi & ->).
  assert (Hf' : final' = Node3d.SetPre current
            (Node3d.Build (rs_x rsp) (rs_y rsp) (rs_phi rsp) x y phi
               (vsize (rs_x rsp))
               (ComputeStringIndex x y phi (XYbounds_ (pq_take id t)))
               0 0 0 true None)).
  { rewrite Hs1 in Hfinal. cbn [final_node_ set_final_node] in Hfinal.
    congruence. }
  destruct (chain_path_length current Hl) as [Hcy Hcphi].
  pose proof (chain_path_head Node3d.GetX Node3d.GetXs current Hl) as Hhx.
  assert (Hpath : GetResult_path final' =
            Some (chain_path Node3d.GetX Node3d.GetXs current
                    ++ tail (rs_x rsp),
                  chain_path Node3d.GetY Node3d.GetYs current
                    ++ tail (rs_y rsp),
                  chain_path Node3d.GetPhi Node3d.GetPhis current
                    ++ tail (rs_phi rsp))).
  { rewrite Hf'. rewrite GetResult_path_hung; [reflexivity|exact Hl|..];
      cbn; intros Hnil; rewrite Hnil in *; discriminate. }
  destruct (GetResult cfg s1 result) as [[ok r1]| |] eqn:Hget;
    cbn [mbind res_bind]; try discriminate.
  intros [= <- <- <-] Hf HN. assert (final = final') as -> by congruence.
  assert (HNx : (2 <= length (rs_x rsp))%nat) by (rewrite Hf' in HN; exact HN).
  rewrite (GetResult_finite_difference_path cfg s1 result final' _ _ _
             Hflag Hfinal Hpath) in Hget; try assumption.
  - injection Hget as <- <-. cbn [r_x r_v r_a r_steer].
    rewrite !length_app, !length_map, !length_seq, ?length_app. cbn [length].
    destruct (chain_path Node3d.GetX Node3d.GetXs current); [discriminate|].
    cbn [length]. repeat split; lia.
  - rewrite !length_app. destruct (rs_x rsp), (rs_y rsp);
      cbn [tail length] in *; lia.
  - rewrite !length_app. destruct (rs_x rsp), (rs_phi rsp);
      cbn [tail length] in *; lia.
  - rewrite length_app. destruct (rs_x rsp); cbn [tail length] in *; [lia|].
    destruct (chain_path Node3d.GetX Node3d.GetXs current); [discriminate|].
    cbn [length]. lia.
Qed.

End PlanFiniteDifference.


(** ** The bounds vector *)

Section BoundsVector.
Context `{E : Externals}.

Lemma for_each_length {A B} (f : A -> res B) (l : list A) (r : list B) :
  for_each f l = Done r -> length r = length l.
Proof.
  revert r. induction l as [|a l IH]; intros r; cbn [for_each].
  - by intros [= <-].
  - destruct (f a) as [b| |]; cbn [mbind res_bind]; try discriminate.
    destruct (for_each f l) as [bs| |]; cbn [mbind res_bind];
      try discriminate.
    intros [= <-]. cbn. f_equal. by apply IH.
Qed.

Lemma vec_at_length {A} (v : list A) (i : nat) a :
  vec_at v (Z.of_nat i) = Done a -> (i < length v)%nat.
Proof.
  unfold vec_at. destruct (Z.ltb_spec (Z.of_nat i) 0); [discriminate|].
  rewrite Nat2Z.id. destruct (v !! i) eqn:Hv; [|discriminate].
  intros _. eapply lookup_lt_Some. exact Hv.
Qed.

Lemma ValidityCheck_single_true self x y phi node :
  obstacles_linesegments_vec_ self <> [] ->
  Node3d.make [x] [y] [phi] (XYbounds_ self) = Done node ->
  ValidityCheck self node = Done true ->
  (4 <= length (XYbounds_ self))%nat /\
  PoseValid (nth 0 (XYbounds_ self) 0%float) (nth 1 (XYbounds_ self) 0%float)
    (nth 2 (XYbounds_ self) 0%float) (nth 3 (XYbounds_ self) 0%float)
    self (x, y, phi) = true.
Proof.
  intros Hobs. cbn. intros [= <-]. unfold ValidityCheck.
  destruct (obstacles_linesegments_vec_ self) as [|o os] eqn:Ho; [done|].
  match goal with
  | |- _ = ?r -> ?G =>
      change (ValidityCheck_loop self [x] [y] [phi] 1 0 = r -> G)
  end.
  cbn [ValidityCheck_loop].
  change (vec_at [x] 0) with (Done x). change (vec_at [y] 0) with (Done y).
  change (vec_at [phi] 0) with (Done phi). cbn [mbind res_bind].
  destruct (vec_at (XYbounds_ self) 1) as [b1| |] eqn:H1;
    cbn [mbind res_bind]; try discriminate.
  destruct (fgt x b1) eqn:C1; cbv iota; [discriminate|].
  destruct (vec_at (XYbounds_ self) 0) as [b0| |] eqn:H0;
    cbn [mbind res_bind]; try discriminate.
  destruct (flt x b0) eqn:C0; cbv iota; [discriminate|].
  destruct (vec_at (XYbounds_ self) 3) as [b3| |] eqn:H3;
    cbn [mbind res_bind]; try discriminate.
  destruct (fgt y b3) eqn:C3; cbv iota; [discriminate|].
  destruct (vec_at (XYbounds_ self) 2) as [b2| |] eqn:H2;
    cbn [mbind res_bind]; try discriminate.
  destruct (flt y b2) eqn:C2; cbv iota; [discriminate|].
  rewrite Ho.
  destruct (existsb _ (o :: os)) eqn:Hex; cbv iota; [discriminate|].
  intros _.
  pose proof (vec_at_length _ 3 _ H3) as Hlen. split; [lia|].
  apply vec_at_Done in H0, H1, H2, H3.
  change (Z.to_nat 0) with 0%nat in H0. change (Z.to_nat 1) with 1%nat in H1.
  change (Z.to_nat 2) with 2%nat in H2. change (Z.to_nat 3) with 3%nat in H3.
  rewrite (nth_lookup_Some _ _ 0%float _ H0),
    (nth_lookup_Some _ _ 0%float _ H1), (nth_lookup_Some _ _ 0%float _ H2),
    (nth_lookup_Some _ _ 0%float _ H3).
  unfold PoseValid, InXYbounds, CollisionFree. cbn [fst snd].
  rewrite C0, C1, C2, C3, Ho, Hex. reflexivity.
Qed.

(** X18: with at least one obstacle, [Plan] gets past its two checks only
    when XYbounds has at least four entries and both the start pose and
    the end pose are inside the bounds and clear of every obstacle
    segment; with fewer than four entries the search is never started. *)
Theorem Plan_setup_checks self sx sy sphi ex ey ephi XYbounds obstacles s0 :
  obstacles <> [] ->
  Plan_setup self sx sy sphi ex ey ephi XYbounds obstacles = Done (true, s0) ->
  (4 <= length XYbounds)%nat /\
  let xmin := nth 0 XYbounds 0%float in
  let xmax := nth 1 XYbounds 0%float in
  let ymin := nth 2 XYbounds 0%float in
  let ymax := nth 3 XYbounds 0%float in
  PoseValid xmin xmax ymin ymax s0 (sx, sy, sphi) = true /\
  PoseValid xmin xmax ymin ymax s0 (ex, ey, ephi) = true.
Proof.
  intros Hobs Hsetup.
  destruct (Plan_setup_start _ _ _ _ _ _ _ _ _ _ Hsetup)
    as (segs & start & goal & Hsegs & Hstart & Hgoal & Hs0).
  assert (Hne : segs <> []).
  { apply for_each_length in Hsegs. destruct segs, obstacles; try done. }
  revert Hsetup. unfold Plan_setup. rewrite Hsegs, Hstart, Hgoal.
  cbn [mbind res_bind].
  set (s := Build_Planner XYbounds segs (Some start) (Some goal) None ∅ ∅ []
              (dp_map_ self) [] []).
  destruct (ValidityCheck s start) as [[]| |] eqn:Hvs;
    cbn [mbind res_bind negb]; try discriminate.
  destruct (ValidityCheck s goal) as [[]| |] eqn:Hvg;
    cbn [mbind res_bind negb]; try discriminate.
  intros _.
  destruct (ValidityCheck_single_true s sx sy sphi start Hne Hstart Hvs)
    as [Hlen Hps].
  destruct (ValidityCheck_single_true s ex ey ephi goal Hne Hgoal Hvg)
    as [_ Hpg].
  split; [exact Hlen|]. cbv zeta. rewrite Hs0. split; assumption.
Qed.

End BoundsVector.


(** ** Runs in the demo world *)

Lemma Done_triple_eta {A B} (r : res (bool * A * B)) (d : A * B) (b : bool) :
  match r with Done (b', _, _) => Bool.eqb b' b | _ => false end = true ->
  r = Done (b, (match r with Done (_, s, x) => (s, x) | _ => d end).1,
            (match r with Done (_, s, x) => (s, x) | _ => d end).2).
Proof.
  destruct r as [[[b' s] x]| |]; cbn; try discriminate.
  destruct b', b; try discriminate; reflexivity.
Qed.

Lemma demo_seeded :
  @Plan_setup Demo.world Demo.blank 0 0 0 5 1 0 Demo.bounds []
  = Done (true, Demo.seeded).
Proof. apply (Done_pair_eta _ Demo.blank true); vm_compute; reflexivity. Qed.

Lemma demo_second_round :
  @Plan_iteration Demo.world 5 Demo.config Demo.seeded
  = Done (false, Demo.second_round).
Proof. apply (Done_pair_eta _ Demo.seeded false); vm_compute; reflexivity. Qed.

Lemma demo_reachable : reachable Demo.config Demo.seeded Demo.second_round.
Proof.
  apply (reach_round Demo.config Demo.seeded 5 Demo.seeded
           Demo.second_round (reach_seed _ _)).
  - vm_compute. discriminate.
  - exact demo_second_round.
Qed.

Lemma demo_aimed :
  @Plan_setup Demo.world Demo.blank 0 0 0 5 0 0 Demo.bounds []
  = Done (true, Demo.aimed).
Proof. apply (Done_pair_eta _ Demo.blank true); vm_compute; reflexivity. Qed.

Lemma demo_arrived :
  @Plan_iteration Demo.world 5 Demo.config Demo.aimed
  = Done (true, Demo.arrived).
Proof. apply (Done_pair_eta _ Demo.aimed true); vm_compute; reflexivity. Qed.

Lemma demo_yard :
  @Plan_setup Demo.world Demo.blank 0 0 0 5 1 0 Demo.bounds Demo.corner
  = Done (true, Demo.yard).
Proof. apply (Done_pair_eta _ Demo.blank true); vm_compute; reflexivity. Qed.

Lemma demo_yard_reachable : reachable Demo.config Demo.yard Demo.yard_round.
Proof.
  apply (reach_round Demo.config Demo.yard 5 Demo.yard
           Demo.yard_round (reach_seed _ _)).
  - vm_compute. discriminate.
  - apply (Done_pair_eta _ Demo.yard false); vm_compute; reflexivity.
Qed.

Lemma demo_planned :
  @Plan Demo.world 5 5 Demo.config Demo.blank 0 0 0 5 0 0 Demo.bounds []
    Demo.no_result
  = Done (true, Demo.planned.1, Demo.planned.2).
Proof.
  apply (Done_triple_eta _ (Demo.blank, Demo.no_result) true).
  vm_compute; reflexivity.
Qed.

Lemma demo_boxed :
  @Plan Demo.world 5 5 Demo.config Demo.blank 0 0 0 0 0.05 0 Demo.narrow []
    Demo.no_result
  = Done (false, Demo.boxed.1, Demo.boxed.2).
Proof.
  apply (Done_triple_eta _ (Demo.blank, Demo.no_result) false).
  vm_compute; reflexivity.
Qed.

Lemma demo_chain_linked : linked Demo.chain_final.
Proof.
  assert (Hwf : forall xs ys phis x y phi n idx tc hc sg dr pre,
            length ys = length xs -> length phis = length xs ->
            (1 <= length xs)%nat -> (vsize xs < SIZE_MOD)%Z ->
            n = vsize xs -> last xs = Some x -> last ys = Some y ->
            last phis = Some phi ->
            Node3d.wf (Node3d.Build xs ys phis x y phi n idx tc hc sg dr pre))
    by (intros; constructor; assumption).
  eapply linked_edge; [reflexivity| |apply Hwf|..]; try reflexivity;
    try (cbn; lia); try (unfold vsize, SIZE_MOD; cbn; lia).
  eapply linked_edge; [reflexivity| |apply Hwf|..]; try reflexivity;
    try (cbn; lia); try (unfold vsize, SIZE_MOD; cbn; lia).
  apply linked_root. reflexivity.
Qed.

Lemma demo_stored_hop :
  open_set_ Demo.second_round !! "21_20_6"%string = Some Demo.stored_hop.
Proof. vm_compute. reflexivity. Qed.

(** Primitive 0 from [hop] among the obstacles of [fenced]. *)
Lemma Next_node_generator_node_witness :
  exists node,
    @Next_node_generator Demo.world 5 Demo.config Demo.fenced Demo.hop 0
    = Done (Some node) /\
    Node3d.wf node /\ Node3d.GetPreNode node = Some Demo.hop /\
    chain_root node = chain_root Demo.hop.
Proof.
  destruct (@Next_node_generator Demo.world 5 Demo.config Demo.fenced
              Demo.hop 0) as [[node|]| |] eqn:H;
    try (vm_compute in H; discriminate).
  exists node. split; [reflexivity|].
  destruct (@Next_node_generator_node Demo.world 5 Demo.config Demo.fenced
              Demo.hop 0 node H) as (Hwf & Hpre & _ & Hroot & _).
  split; [exact Hwf|]. split; [exact Hpre|exact Hroot].
Defined.

(** The first round towards (5, 1, 0) keeps the start node in the open
    set. *)
Lemma Plan_iteration_keeps_entries_witness :
  @Plan_iteration Demo.world 5 Demo.config Demo.seeded
  = Done (false, Demo.second_round) /\
  (forall id n, open_set_ Demo.seeded !! id = Some n ->
     open_set_ Demo.second_round !! id = Some n) /\
  XYbounds_ Demo.second_round = XYbounds_ Demo.seeded.
Proof.
  split; [exact demo_second_round|].
  destruct (@Plan_iteration_keeps_entries Demo.world 5 Demo.config
              Demo.seeded false Demo.second_round demo_second_round)
    as (Ho & _ & HXY & _).
  split; [exact Ho|exact HXY].
Defined.

(** The node stored under "21_20_6" after the first round. *)
Lemma Plan_stored_nodes_reconstruct_witness :
  @Plan_setup Demo.world Demo.blank 0 0 0 5 1 0 Demo.bounds []
  = Done (true, Demo.seeded) /\
  reachable Demo.config Demo.seeded Demo.second_round /\
  open_set_ Demo.second_round !! "21_20_6"%string = Some Demo.stored_hop /\
  linked Demo.stored_hop /\
  Node3d.GetIndex Demo.stored_hop = "21_20_6"%string /\
  node_pose (chain_root Demo.stored_hop) = (0, 0, 0)%float.
Proof.
  split; [exact demo_seeded|]. split; [exact demo_reachable|].
  split; [exact demo_stored_hop|].
  destruct (@Plan_stored_nodes_reconstruct Demo.world Demo.config Demo.blank
              0 0 0 5 1 0 Demo.bounds [] Demo.seeded Demo.second_round
              "21_20_6"%string Demo.stored_hop demo_seeded demo_reachable
              demo_stored_hop) as (Hl & Hi & Hr & _).
  split; [exact Hl|]. split; [exact Hi|exact Hr].
Defined.

(** The costs of the node stored under "21_20_6": its parent is the start
    node, which is stored and closed. *)
Lemma Plan_costs_accumulate_witness :
  open_set_ Demo.second_round !! "21_20_6"%string = Some Demo.stored_hop /\
  Node3d.GetPreNode Demo.stored_hop = Some Demo.chain_start /\
  close_set_ Demo.second_round !! "20_20_6"%string = Some Demo.chain_start /\
  Node3d.GetTrajCost Demo.stored_hop
  = (Node3d.GetTrajCost Demo.chain_start
     + @TrajCost Demo.config Demo.chain_start Demo.stored_hop)%float.
Proof.
  split; [exact demo_stored_hop|]. split; [reflexivity|].
  pose proof (@Plan_costs_accumulate Demo.world Demo.config Demo.blank
                0 0 0 5 1 0 Demo.bounds [] Demo.seeded Demo.second_round
                "21_20_6"%string Demo.stored_hop demo_seeded demo_reachable
                demo_stored_hop) as H.
  change (Node3d.GetPreNode Demo.stored_hop) with (Some Demo.chain_start)
    in H.
  destruct H as (_ & Hc & Ht & _). split; [exact Hc|exact Ht].
Defined.

(** The entry on top of the queue after the first round. *)
Lemma Plan_queue_costs_witness :
  ("21_20_6"%string, 6%float) ∈ open_pq_ Demo.second_round /\
  exists n,
    open_set_ Demo.second_round !! "21_20_6"%string = Some n /\
    Node3d.GetCost n = 6%float /\
    close_set_ Demo.second_round !! "21_20_6"%string = None.
Proof.
  assert (Hin : ("21_20_6"%string, 6%float) ∈ open_pq_ Demo.second_round).
  { assert (Htop : pq_top (open_pq_ Demo.second_round)
                   = Some ("21_20_6"%string, 6%float))
      by (vm_compute; reflexivity).
    destruct (pq_top_Some _ _ _ Htop) as (k & _ & Hk & _).
    eapply list_elem_of_lookup_2. exact Hk. }
  split; [exact Hin|].
  destruct (@Plan_queue_costs Demo.world Demo.config Demo.blank
              0 0 0 5 1 0 Demo.bounds [] Demo.seeded Demo.second_round
              "21_20_6"%string 6%float demo_seeded demo_reachable Hin)
    as (n & Hn & _ & Hc & Hcl).
  exists n. split; [exact Hn|]. split; [exact Hc|exact Hcl].
Defined.

(** After the first round the start index is the one closed index. *)
Lemma Plan_closed_is_expanded_witness :
  @Plan_setup Demo.world Demo.blank 0 0 0 5 1 0 Demo.bounds []
  = Done (true, Demo.seeded) /\
  reachable Demo.config Demo.seeded Demo.second_round /\
  expanded_ Demo.second_round = ["20_20_6"%string] /\
  is_Some (close_set_ Demo.second_round !! "20_20_6"%string) /\
  ~ is_Some (close_set_ Demo.second_round !! "21_20_6"%string).
Proof.
  assert (Hex : expanded_ Demo.second_round = ["20_20_6"%string])
    by (vm_compute; reflexivity).
  split; [exact demo_seeded|]. split; [exact demo_reachable|].
  split; [exact Hex|].
  destruct (@Plan_closed_is_expanded Demo.world Demo.config Demo.blank
              0 0 0 5 1 0 Demo.bounds [] Demo.seeded Demo.second_round
              demo_seeded demo_reachable) as [Hiff _].
  split.
  - apply Hiff. rewrite Hex. left.
  - intros Hc. apply Hiff in Hc. rewrite Hex in Hc.
    apply list_elem_of_singleton in Hc. discriminate.
Defined.

(** The round that reaches the goal (5, 0, 0) from the start node. *)
Lemma Plan_final_node_witness :
  @Plan_setup Demo.world Demo.blank 0 0 0 5 0 0 Demo.bounds []
  = Done (true, Demo.aimed) /\
  @Plan_iteration Demo.world 5 Demo.config Demo.aimed
  = Done (true, Demo.arrived) /\
  exists current final,
    final_node_ Demo.arrived = Some final /\
    Node3d.GetPreNode final = Some current /\
    is_Some (close_set_ Demo.arrived !! Node3d.GetIndex final).
Proof.
  split; [exact demo_aimed|]. split; [exact demo_arrived|].
  destruct (@Plan_final_node Demo.world Demo.config Demo.blank
              0 0 0 5 0 0 Demo.bounds [] Demo.aimed Demo.aimed 5 Demo.arrived
              demo_aimed (reach_seed _ _) demo_arrived)
    as (id & c & current & rsp & final & _ & _ & _ & Hf & Hpre & _ & Hcl & _).
  exists current, final. split; [exact Hf|]. split; [exact Hpre|exact Hcl].
Defined.

(** The sizes of the result of the call that reaches (5, 0, 0). *)
Lemma Plan_true_result_witness :
  @Plan Demo.world 5 5 Demo.config Demo.blank 0 0 0 5 0 0 Demo.bounds []
    Demo.no_result
  = Done (true, Demo.planned.1, Demo.planned.2) /\
  (2 <= length (r_x Demo.planned.2))%nat /\
  length (r_v Demo.planned.2) = length (r_x Demo.planned.2) /\
  length (r_steer Demo.planned.2) = length (r_a Demo.planned.2).
Proof.
  split; [exact demo_planned|].
  destruct (@Plan_true_result Demo.world 5 5 Demo.config Demo.blank
              0 0 0 5 0 0 Demo.bounds [] Demo.no_result Demo.planned.1
              Demo.planned.2 demo_planned)
    as (_ & HN & _ & Hv & _ & Hs & _).
  split; [exact HN|]. split; [exact Hv|exact Hs].
Defined.

(** The same call with a result that already holds one steering angle. *)
Lemma Plan_needs_empty_steer_witness :
  r_steer Demo.used_result <> [] /\
  (vsize (r_steer Demo.used_result) < SIZE_MOD)%Z /\
  @Plan Demo.world 5 5 Demo.config Demo.blank 0 0 0 5 0 0 Demo.bounds []
    Demo.used_result
  <> Done (true, Demo.planned.1, Demo.planned.2).
Proof.
  split; [discriminate|]. split; [reflexivity|].
  apply (@Plan_needs_empty_steer Demo.world 5 5 Demo.config Demo.blank
           0 0 0 5 0 0 Demo.bounds [] Demo.used_result Demo.planned.1
           Demo.planned.2); [discriminate|reflexivity].
Defined.

(** Bounds that leave no successor: the queue runs empty. *)
Lemma Plan_without_final_node_witness :
  @Plan Demo.world 5 5 Demo.config Demo.blank 0 0 0 0 0.05 0 Demo.narrow []
    Demo.no_result
  = Done (false, Demo.boxed.1, Demo.boxed.2) /\
  final_node_ Demo.boxed.1 = None /\
  open_pq_ Demo.boxed.1 = [] /\
  Demo.boxed.2 = Demo.no_result.
Proof.
  assert (Hf : final_node_ Demo.boxed.1 = None) by (vm_compute; reflexivity).
  split; [exact demo_boxed|]. split; [exact Hf|].
  split; [vm_compute; reflexivity|].
  exact (proj2 (@Plan_without_final_node Demo.world 5 5 Demo.config
                  Demo.blank 0 0 0 0 0.05 0 Demo.narrow [] Demo.no_result
                  false Demo.boxed.1 Demo.boxed.2 demo_boxed Hf)).
Defined.

(** The node stored under "21_20_6" among the obstacles of [corner]. *)
Lemma Plan_nodes_validated_witness :
  @Plan_setup Demo.world Demo.blank 0 0 0 5 1 0 Demo.bounds Demo.corner
  = Done (true, Demo.yard) /\
  reachable Demo.config Demo.yard Demo.yard_round /\
  obstacles_linesegments_vec_ Demo.yard <> [] /\
  exists n,
    open_set_ Demo.yard_round !! "21_20_6"%string = Some n /\
    ValidityCheck Demo.yard n = Done true.
Proof.
  split; [exact demo_yard|]. split; [exact demo_yard_reachable|].
  split; [vm_compute; discriminate|].
  destruct (open_set_ Demo.yard_round !! "21_20_6"%string) as [n|] eqn:Hn;
    [|vm_compute in Hn; discriminate].
  exists n. split; [reflexivity|].
  exact (proj1 (@Plan_nodes_validated Demo.world Demo.config Demo.blank
                  0 0 0 5 1 0 Demo.bounds Demo.corner Demo.yard
                  Demo.yard_round demo_yard demo_yard_reachable) _ _ Hn).
Defined.

(** The twelve-pose forward path: every finite difference is 1. *)
Lemma GenerateSCurveSpeedAcceleration_forward_path_witness :
  length (r_x Demo.cruise) = 12%nat /\
  (forall i, (i < length (r_x Demo.cruise) - 1)%nat ->
     flt (@discrete_v Demo.world Demo.config (r_x Demo.cruise)
            (r_y Demo.cruise) (r_phi Demo.cruise) i) 0 = false) /\
  @GenerateSCurveSpeedAcceleration Demo.world Demo.config Demo.cruise
  = Undefined.
Proof.
  assert (Hfwd : forall i, (i < length (r_x Demo.cruise) - 1)%nat ->
            flt (@discrete_v Demo.world Demo.config (r_x Demo.cruise)
                   (r_y Demo.cruise) (r_phi Demo.cruise) i) 0 = false).
  { intros i Hi. cbn [Demo.cruise r_x length Nat.sub] in Hi.
    do 11 (destruct i as [|i]; [vm_compute; reflexivity|]). lia. }
  split; [reflexivity|]. split; [exact Hfwd|].
  exact (@GenerateSCurveSpeedAcceleration_forward_path Demo.world Demo.config
           Demo.cruise eq_refl eq_refl eq_refl eq_refl ltac:(simpl; lia)
           Hfwd).
Defined.

(** The result for the three-node chain of the demo world. *)
Lemma GetResult_finite_difference_witness :
  FLAGS_use_s_curve_speed_smooth Demo.config = false /\
  final_node_ Demo.finished = Some Demo.chain_final /\
  linked Demo.chain_final /\
  exists r,
    @GetResult Demo.world Demo.config Demo.finished Demo.no_result
    = Done (true, r) /\
    r_x r = [0; 0.5; 2; 5]%float /\ length (r_v r) = 4%nat.
Proof.
  split; [reflexivity|]. split; [reflexivity|].
  split; [exact demo_chain_linked|].
  eexists. split.
  - exact (@GetResult_finite_difference Demo.world Demo.config Demo.finished
             Demo.no_result Demo.chain_final eq_refl eq_refl
             demo_chain_linked ltac:(simpl; lia) eq_refl eq_refl eq_refl).
  - split; reflexivity.
Defined.

(** The analytic expansion from the start node towards (5, 0, 0). *)
Lemma AnalyticExpansion_outcome_witness :
  @AnalyticExpansion Demo.world Demo.aimed Demo.chain_start
  = Done (true, Demo.expanded) /\
  exists final,
    final_node_ Demo.expanded = Some final /\
    Node3d.GetPreNode final = Some Demo.chain_start /\
    open_set_ Demo.expanded = open_set_ Demo.aimed.
Proof.
  assert (H : @AnalyticExpansion Demo.world Demo.aimed Demo.chain_start
              = Done (true, Demo.expanded))
    by (apply (Done_pair_eta _ Demo.aimed true); vm_compute; reflexivity).
  split; [exact H|].
  destruct (@AnalyticExpansion_outcome Demo.world Demo.aimed
              Demo.chain_start true Demo.expanded H)
    as (goal & rsp & final & _ & _ & Hf & Hpre & _ & _ & _ & _ & _ & _ & Ho
        & _).
  exists final. split; [exact Hf|]. split; [exact Hpre|exact Ho].
Defined.

(** The segments of a three-vertex and of a one-vertex obstacle. *)
Lemma Plan_setup_obstacle_segments_witness :
  @Plan_setup Demo.world Demo.blank 0 0 0 5 1 0 Demo.bounds Demo.corner
  = Done (true, Demo.yard) /\
  obstacles_linesegments_vec_ Demo.yard =
  [ [ {| seg_start := {| vx := 5; vy := 5 |};
         seg_end := {| vx := 6; vy := 5 |} |};
      {| seg_start := {| vx := 6; vy := 5 |};
         seg_end := {| vx := 6; vy := 6 |} |} ];
    [] ].
Proof.
  split; [exact demo_yard|].
  refine (proj1 (@Plan_setup_obstacle_segments Demo.world Demo.blank
                   0 0 0 5 1 0 Demo.bounds Demo.corner true Demo.yard _
                   demo_yard)).
  repeat constructor; unfold vsize, SIZE_MOD; cbn; lia.
Defined.


(** The call that reaches (5, 0, 0): its final node holds a two-pose
    curve. *)
Lemma Plan_finite_difference_true_witness :
  FLAGS_use_s_curve_speed_smooth Demo.config = false /\
  final_node_ Demo.planned.1 = Some Demo.goal_curve /\
  (2 <= length (Node3d.GetXs Demo.goal_curve))%nat /\
  length (r_a Demo.planned.2) = (length (r_x Demo.planned.2) - 1)%nat.
Proof.
  assert (Hf : final_node_ Demo.planned.1 = Some Demo.goal_curve)
    by (vm_compute; reflexivity).
  split; [reflexivity|]. split; [exact Hf|]. split; [simpl; lia|].
  destruct (@Plan_finite_difference_true Demo.world 5 5 Demo.config
              Demo.blank 0 0 0 5 0 0 Demo.bounds [] Demo.no_result true
              Demo.planned.1 Demo.planned.2 Demo.goal_curve eq_refl eq_refl
              eq_refl eq_refl demo_planned Hf ltac:(simpl; lia))
    as (_ & _ & Ha & _).
  exact Ha.
Defined.

(** The checks of the start and end pose among the obstacles of
    [corner]. *)
Lemma Plan_setup_checks_witness :
  Demo.corner <> [] /\
  @Plan_setup Demo.world Demo.blank 0 0 0 5 1 0 Demo.bounds Demo.corner
  = Done (true, Demo.yard) /\
  PoseValid (-10) 10 (-10) 10 Demo.yard (0, 0, 0)%float = true /\
  PoseValid (-10) 10 (-10) 10 Demo.yard (5, 1, 0)%float = true.
Proof.
  split; [discriminate|]. split; [exact demo_yard|].
  exact (proj2 (@Plan_setup_checks Demo.world Demo.blank 0 0 0 5 1 0
                  Demo.bounds Demo.corner Demo.yard ltac:(discriminate)
                  demo_yard)).
Defined.
